(** * streaming_tts: the streaming pipeline of [main.py] and [tts_engine.py]

    A shallow embedding of the text side of the service: the notation
    normaliser ([MathNotationProcessor], [TTSEngine._clean_text]), the
    segmentation policy ([should_process_text]), the alignment synthesiser,
    the PCM quantiser, the session registry ([ConnectionManager]) and the
    message loop of [websocket_endpoint].

    Conventions.
    - A Python [str] is a list of Unicode code points ([N]).  What CPython's
      character database says about code points above 127 is not part of the
      repository; it is a parameter ([unicode_tables]) of everything that
      consults it ([\s], [\d], [\b], [str.strip], [re.IGNORECASE]).
    - A finite Python float is the rational it denotes ([Qc]); every float
      operation rounds its exact result to binary64, to nearest with ties
      to even ([R64]); numpy's float32 arithmetic does so with 24 bits
      ([R32]).  The exponent range is not modelled: no overflow to
      infinity, no underflow.  [int(x)] is truncation towards zero.
    - [re] patterns are terms of [regex], run by a backtracking matcher with
      the leftmost, greedy, first-alternative-wins discipline of [re]. *)

From Stdlib Require Import ZArith NArith Ascii String QArith Qcanon Qround Qpower Qabs Lqa Lia.
From stdpp Require Import gmap list.

Set Default Proof Using "Type".

(** ** Strings *)

Definition char := N.
Definition str := list char.

(** [u "abc"] is the Python literal ['abc'] (ASCII literals only). *)
Definition u (s : string) : str :=
  List.map N_of_ascii (list_ascii_of_string s).

Definition char_eqb (a b : char) : bool := N.eqb a b.

Fixpoint str_eqb (a b : str) : bool :=
  match a, b with
  | [], [] => true
  | x :: a', y :: b' => char_eqb x y && str_eqb a' b'
  | _, _ => false
  end.

(** [s.startswith(p)] *)
Fixpoint startswith (p s : str) : bool :=
  match p, s with
  | [], _ => true
  | x :: p', y :: s' => char_eqb x y && startswith p' s'
  | _ :: _, [] => false
  end.

(** [needle in hay] for strings. *)
Fixpoint contains (needle hay : str) : bool :=
  startswith needle hay ||
  match hay with
  | [] => false
  | _ :: hay' => contains needle hay'
  end.

(** [s.replace(old, new)]: leftmost non-overlapping occurrences.  [skip]
    counts the characters of an occurrence still to be passed over. *)
Fixpoint replace_from (old new : str) (s : str) (skip : nat) : str :=
  match s with
  | [] => []
  | c :: s' =>
      match skip with
      | S n => replace_from old new s' n
      | O =>
          if startswith old s
          then new ++ replace_from old new s' (length old - 1)
          else c :: replace_from old new s' 0
      end
  end.

Definition replace (old new s : str) : str :=
  match old with
  | [] => new ++ List.concat (List.map (fun c => c :: new) s)
  | _ :: _ => replace_from old new s 0
  end.

Fixpoint dropwhile (p : char -> bool) (s : str) : str :=
  match s with
  | c :: s' => if p c then dropwhile p s' else s
  | [] => []
  end.

(** ** Character classes *)

(** The part of the interpreter's Unicode database the code consults, for
    code points that are not ASCII. *)
Record unicode_tables := {
  uni_isspace : char -> bool;     (* Py_UNICODE_ISSPACE *)
  uni_isdecimal : char -> bool;   (* Py_UNICODE_ISDECIMAL *)
  uni_isalnum : char -> bool;     (* Py_UNICODE_ISALNUM *)
  uni_isalpha : char -> bool;     (* str.isalpha *)
  uni_lower : char -> str;        (* str.lower *)
  uni_caseless : char -> char -> bool
    (* whether a pattern literal matches a text character under IGNORECASE *)
}.

(** Tables that know of no character outside ASCII. *)
Definition ascii_tables : unicode_tables :=
  {| uni_isspace := fun _ => false;
     uni_isdecimal := fun _ => false;
     uni_isalnum := fun _ => false;
     uni_isalpha := fun _ => false;
     uni_lower := fun c => [c];
     uni_caseless := fun p c => N.eqb p c |}.

Definition in_range (lo hi c : char) : bool := (N.leb lo c) && (N.leb c hi).
Arguments in_range (lo hi c)%_N.

Definition is_ascii (c : char) : bool := N.ltb c 128.

Definition ascii_lower (c : char) : char :=
  if in_range 65 90 c then (c + 32)%N else c.

Section Classes.
Context (U : unicode_tables).

(** [str.isspace] on one character, also [\s] of [re] on [str]. *)
Definition isspace (c : char) : bool :=
  if is_ascii c
  then in_range 9 13 c || in_range 28 31 c || N.eqb c 32
  else uni_isspace U c.

(** [\d] *)
Definition isdecimal (c : char) : bool :=
  if is_ascii c then in_range 48 57 c else uni_isdecimal U c.

(** [\w] *)
Definition isword (c : char) : bool :=
  if is_ascii c
  then in_range 48 57 c || in_range 65 90 c || in_range 97 122 c || N.eqb c 95
  else uni_isalnum U c.

(** [c.isalpha()] and [c.lower()] on one character. *)
Definition isalpha (c : char) : bool :=
  if is_ascii c then in_range 65 90 c || in_range 97 122 c else uni_isalpha U c.

Definition lower (c : char) : str :=
  if is_ascii c then [ascii_lower c] else uni_lower U c.

(** A literal of an IGNORECASE pattern against a text character. *)
Definition caseless_eqb (p c : char) : bool :=
  if is_ascii p && is_ascii c
  then N.eqb (ascii_lower p) (ascii_lower c)
  else uni_caseless U p c.

(** [s.strip()] *)
Definition lstrip (s : str) : str := dropwhile isspace s.
Definition rstrip (s : str) : str := rev (dropwhile isspace (rev s)).
Definition strip (s : str) : str := rstrip (lstrip s).

(** ** Regular expressions *)

Inductive item :=
| IChar (c : char)
| IRange (lo hi : char).

Inductive category := CatDigit | CatSpace | CatNotSpace.

Inductive regex :=
| Eps
| Chr (c : char)                         (* a literal *)
| ChrI (c : char)                        (* a literal under IGNORECASE *)
| Set_ (neg : bool) (items : list item)  (* [...] and [^...] *)
| Cat (k : category)                     (* \d \s \S *)
| Bound                                  (* \b *)
| Seq (a b : regex)
| Alt (a b : regex)
| Star (a : regex)
| Plus (a : regex)
| Opt (a : regex)
| Group (n : nat) (a : regex).

Arguments IChar c%_N.
Arguments IRange (lo hi)%_N.
Arguments Chr c%_N.
Arguments ChrI c%_N.

Definition item_match (c : char) (i : item) : bool :=
  match i with
  | IChar x => char_eqb c x
  | IRange lo hi => in_range lo hi c
  end.

Definition set_match (neg : bool) (items : list item) (c : char) : bool :=
  xorb neg (existsb (item_match c) items).

Definition cat_match (k : category) (c : char) : bool :=
  match k with
  | CatDigit => isdecimal c
  | CatSpace => isspace c
  | CatNotSpace => negb (isspace c)
  end.

Definition opt_word (c : option char) : bool :=
  match c with Some x => isword x | None => false end.

(** [\b]: exactly one side of the position is a word character. *)
Definition at_boundary (prev : option char) (s : str) : bool :=
  xorb (opt_word prev) (opt_word (head s)).

Definition captures := list (nat * str).

Definition set_cap (n : nat) (v : str) (caps : captures) : captures :=
  (n, v) :: List.filter (fun p => negb (Nat.eqb (fst p) n)) caps.

Fixpoint get_cap (n : nat) (caps : captures) : str :=
  match caps with
  | [] => []
  | (m, v) :: caps' => if Nat.eqb m n then v else get_cap n caps'
  end.

(** The text between two positions of one string, the later given by
    what is left of it. *)
Definition consumed (s s' : str) : str := firstn (length s - length s') s.

(** A position is the character before it (for [\b]) and the text after
    it; a match state adds the groups captured so far. *)
Definition mstate := (option char * str * captures)%type.
Definition cont := option char -> str -> captures -> option mstate.

Definition one_char (p : char -> bool) (s : str) (caps : captures)
    (k : cont) : option mstate :=
  match s with
  | c :: s' => if p c then k (Some c) s' caps else None
  | [] => None
  end.

(** Greedy repetition: one more round of [body] if it consumes text,
    else go on with [k]. *)
Fixpoint star_loop (body : option char -> str -> captures -> cont -> option mstate)
    (fuel : nat) (prev : option char) (s : str) (caps : captures)
    (k : cont) : option mstate :=
  match fuel with
  | O => k prev s caps
  | S f =>
      match body prev s caps
              (fun p' s' c' =>
                 if Nat.ltb (length s') (length s)
                 then star_loop body f p' s' c' k
                 else None) with
      | Some r => Some r
      | None => k prev s caps
      end
  end.

Fixpoint rmatch (r : regex) (prev : option char) (s : str)
    (caps : captures) (k : cont) {struct r} : option mstate :=
  match r with
  | Eps => k prev s caps
  | Chr c => one_char (char_eqb c) s caps k
  | ChrI c => one_char (caseless_eqb c) s caps k
  | Set_ neg items => one_char (set_match neg items) s caps k
  | Cat c => one_char (cat_match c) s caps k
  | Bound => if at_boundary prev s then k prev s caps else None
  | Seq a b => rmatch a prev s caps (fun p' s' c' => rmatch b p' s' c' k)
  | Alt a b =>
      match rmatch a prev s caps k with
      | Some x => Some x
      | None => rmatch b prev s caps k
      end
  | Star a => star_loop (rmatch a) (S (length s)) prev s caps k
  | Plus a =>
      rmatch a prev s caps
        (fun p' s' c' => star_loop (rmatch a) (S (length s')) p' s' c' k)
  | Opt a =>
      match rmatch a prev s caps k with
      | Some x => Some x
      | None => k prev s caps
      end
  | Group n a =>
      rmatch a prev s caps
        (fun p' s' c' => k p' s' (set_cap n (consumed s s') c'))
  end.

(** [pattern.match] at one position: what is left of the text, and the
    groups. *)
Definition match_here (r : regex) (prev : option char) (s : str)
    : option (str * captures) :=
  match rmatch r prev s [] (fun p s' c => Some (p, s', c)) with
  | Some (_, s', c) => Some (s', c)
  | None => None
  end.

(** Replacement templates: literal text and [\n] references. *)
Inductive tpart := TLit (s : str) | TRef (n : nat).

Definition expand (t : list tpart) (caps : captures) : str :=
  List.concat
    (List.map (fun p => match p with
                        | TLit s => s
                        | TRef n => get_cap n caps
                        end) t).

(** [re.sub(r, repl, s)]: scan left to right; at a match emit the
    expansion and jump to its end; an empty match is followed by one
    copied character. *)
Fixpoint sub_from (r : regex) (repl : list tpart) (prev : option char)
    (s : str) (skip : nat) {struct s} : str :=
  match skip with
  | S n =>
      match s with
      | [] => []
      | c :: s' => sub_from r repl (Some c) s' n
      end
  | O =>
      match match_here r prev s with
      | Some (rest, caps) =>
          expand repl caps ++
          match s with
          | [] => []
          | c :: s' =>
              match length s - length rest with
              | O => c :: sub_from r repl (Some c) s' 0
              | S m => sub_from r repl (Some c) s' m
              end
          end
      | None =>
          match s with
          | [] => []
          | c :: s' => c :: sub_from r repl (Some c) s' 0
          end
      end
  end.

Definition re_sub (r : regex) (repl : list tpart) (s : str) : str :=
  sub_from r repl None s 0.

(** [re.findall(r, s)] for a pattern without groups. *)
Fixpoint findall_from (r : regex) (prev : option char) (s : str)
    (skip : nat) {struct s} : list str :=
  match skip with
  | S n =>
      match s with
      | [] => []
      | c :: s' => findall_from r (Some c) s' n
      end
  | O =>
      match match_here r prev s with
      | Some (rest, _) =>
          consumed s rest ::
          match s with
          | [] => []
          | c :: s' => findall_from r (Some c) s' (length s - length rest - 1)
          end
      | None =>
          match s with
          | [] => []
          | c :: s' => findall_from r (Some c) s' 0
          end
      end
  end.

Definition re_findall (r : regex) (s : str) : list str :=
  findall_from r None s 0.

(** [re.search(r, s) is not None], from a position on. *)
Fixpoint search_from (r : regex) (prev : option char) (s : str) : bool :=
  match match_here r prev s with
  | Some _ => true
  | None =>
      match s with
      | [] => false
      | c :: s' => search_from r (Some c) s'
      end
  end.

Definition re_search (r : regex) (s : str) : bool := search_from r None s.

(** [re.IGNORECASE] at compile time: literals become caseless. *)
Fixpoint ignorecase (r : regex) : regex :=
  match r with
  | Chr c => ChrI c
  | Seq a b => Seq (ignorecase a) (ignorecase b)
  | Alt a b => Alt (ignorecase a) (ignorecase b)
  | Star a => Star (ignorecase a)
  | Plus a => Plus (ignorecase a)
  | Opt a => Opt (ignorecase a)
  | Group n a => Group n (ignorecase a)
  | other => other
  end.

(** A literal string as a pattern. *)
Fixpoint lit (s : str) : regex :=
  match s with
  | [] => Eps
  | [c] => Chr c
  | c :: s' => Seq (Chr c) (lit s')
  end.

End Classes.

Arguments IChar c%_N.
Arguments IRange (lo hi)%_N.
Arguments Chr c%_N.
Arguments ChrI c%_N.

(** A sequence of patterns, as they are written side by side. *)
Fixpoint Seqs (rs : list regex) : regex :=
  match rs with
  | [] => Eps
  | [r] => r
  | r :: rs' => Seq r (Seqs rs')
  end.

(** One ASCII character, for patterns. *)
Definition ch (a : ascii) : char := N_of_ascii a.

(** ** Notation normaliser: [MathNotationProcessor] *)

Module MathNotationProcessor.

(** The entries of the [SYMBOL_MAP] literal, in source order.  Two keys
    (8594 and 8596, the arrows) are written twice. *)
Definition SYMBOL_MAP_literal : list (str * str) := [
  (u"+", u" plus ");
  (u"-", u" minus ");
  ([215]%N, u" times "); (* × *)
  ([8727]%N, u" times "); (* ∗ *)
  (u"*", u" times ");
  ([247]%N, u" divided by "); (* ÷ *)
  (u"/", u" divided by ");
  (u"=", u" equals ");
  ([8800]%N, u" not equal to "); (* ≠ *)
  ([8776]%N, u" approximately equals "); (* ≈ *)
  ([8801]%N, u" identical to "); (* ≡ *)
  (u"<", u" less than ");
  (u">", u" greater than ");
  ([8804]%N, u" less than or equal to "); (* ≤ *)
  ([8805]%N, u" greater than or equal to "); (* ≥ *)
  (u"<<", u" much less than ");
  (u">>", u" much greater than ");
  ([178]%N, u" squared"); (* ² *)
  ([179]%N, u" cubed"); (* ³ *)
  ([8308]%N, u" to the fourth power"); (* ⁴ *)
  ([8309]%N, u" to the fifth power"); (* ⁵ *)
  ([8310]%N, u" to the sixth power"); (* ⁶ *)
  ([8311]%N, u" to the seventh power"); (* ⁷ *)
  ([8312]%N, u" to the eighth power"); (* ⁸ *)
  ([8313]%N, u" to the ninth power"); (* ⁹ *)
  ([8730]%N, u" square root of "); (* √ *)
  ([8731]%N, u" cube root of "); (* ∛ *)
  ([8732]%N, u" fourth root of "); (* ∜ *)
  ([945]%N, u" alpha "); (* α *)
  ([946]%N, u" beta "); (* β *)
  ([947]%N, u" gamma "); (* γ *)
  ([948]%N, u" delta "); (* δ *)
  ([949]%N, u" epsilon "); (* ε *)
  ([950]%N, u" zeta "); (* ζ *)
  ([951]%N, u" eta "); (* η *)
  ([952]%N, u" theta "); (* θ *)
  ([953]%N, u" iota "); (* ι *)
  ([954]%N, u" kappa "); (* κ *)
  ([955]%N, u" lambda "); (* λ *)
  ([956]%N, u" mu "); (* μ *)
  ([957]%N, u" nu "); (* ν *)
  ([958]%N, u" xi "); (* ξ *)
  ([959]%N, u" omicron "); (* ο *)
  ([960]%N, u" pi "); (* π *)
  ([961]%N, u" rho "); (* ρ *)
  ([963]%N, u" sigma "); (* σ *)
  ([964]%N, u" tau "); (* τ *)
  ([965]%N, u" upsilon "); (* υ *)
  ([966]%N, u" phi "); (* φ *)
  ([967]%N, u" chi "); (* χ *)
  ([968]%N, u" psi "); (* ψ *)
  ([969]%N, u" omega "); (* ω *)
  ([913]%N, u" capital alpha "); (* Α *)
  ([914]%N, u" capital beta "); (* Β *)
  ([915]%N, u" capital gamma "); (* Γ *)
  ([916]%N, u" capital delta "); (* Δ *)
  ([917]%N, u" capital epsilon "); (* Ε *)
  ([918]%N, u" capital zeta "); (* Ζ *)
  ([919]%N, u" capital eta "); (* Η *)
  ([920]%N, u" capital theta "); (* Θ *)
  ([921]%N, u" capital iota "); (* Ι *)
  ([922]%N, u" capital kappa "); (* Κ *)
  ([923]%N, u" capital lambda "); (* Λ *)
  ([924]%N, u" capital mu "); (* Μ *)
  ([925]%N, u" capital nu "); (* Ν *)
  ([926]%N, u" capital xi "); (* Ξ *)
  ([927]%N, u" capital omicron "); (* Ο *)
  ([928]%N, u" capital pi "); (* Π *)
  ([929]%N, u" capital rho "); (* Ρ *)
  ([931]%N, u" capital sigma "); (* Σ *)
  ([932]%N, u" capital tau "); (* Τ *)
  ([933]%N, u" capital upsilon "); (* Υ *)
  ([934]%N, u" capital phi "); (* Φ *)
  ([935]%N, u" capital chi "); (* Χ *)
  ([936]%N, u" capital psi "); (* Ψ *)
  ([937]%N, u" capital omega "); (* Ω *)
  ([8734]%N, u" infinity "); (* ∞ *)
  ([8495]%N, u" e "); (* ℯ *)
  ([8462]%N, u" h "); (* ℎ *)
  ([8463]%N, u" h bar "); (* ℏ *)
  ([8501]%N, u" aleph "); (* ℵ *)
  ([8712]%N, u" is in "); (* ∈ *)
  ([8713]%N, u" is not in "); (* ∉ *)
  ([8834]%N, u" is a subset of "); (* ⊂ *)
  ([8835]%N, u" is a superset of "); (* ⊃ *)
  ([8838]%N, u" is a subset of or equal to "); (* ⊆ *)
  ([8839]%N, u" is a superset of or equal to "); (* ⊇ *)
  ([8746]%N, u" union "); (* ∪ *)
  ([8745]%N, u" intersection "); (* ∩ *)
  ([8709]%N, u" empty set "); (* ∅ *)
  ([8704]%N, u" for all "); (* ∀ *)
  ([8707]%N, u" there exists "); (* ∃ *)
  ([8708]%N, u" there does not exist "); (* ∄ *)
  ([172]%N, u" not "); (* ¬ *)
  ([8743]%N, u" and "); (* ∧ *)
  ([8744]%N, u" or "); (* ∨ *)
  ([8853]%N, u" exclusive or "); (* ⊕ *)
  ([8594]%N, u" implies "); (* → *)
  ([8596]%N, u" if and only if "); (* ↔ *)
  ([8747]%N, u" integral "); (* ∫ *)
  ([8748]%N, u" double integral "); (* ∬ *)
  ([8749]%N, u" triple integral "); (* ∭ *)
  ([8750]%N, u" contour integral "); (* ∮ *)
  ([8706]%N, u" partial derivative "); (* ∂ *)
  ([8711]%N, u" nabla "); (* ∇ *)
  ([8710]%N, u" delta "); (* ∆ *)
  ([8721]%N, u" sum "); (* ∑ *)
  ([8719]%N, u" product "); (* ∏ *)
  ([8720]%N, u" coproduct "); (* ∐ *)
  (u"lim", u" limit ");
  ([8592]%N, u" left arrow "); (* ← *)
  ([8594]%N, u" right arrow "); (* → *)
  ([8593]%N, u" up arrow "); (* ↑ *)
  ([8595]%N, u" down arrow "); (* ↓ *)
  ([8596]%N, u" left right arrow "); (* ↔ *)
  ([8597]%N, u" up down arrow "); (* ↕ *)
  ([8656]%N, u" left double arrow "); (* ⇐ *)
  ([8658]%N, u" right double arrow "); (* ⇒ *)
  ([8657]%N, u" up double arrow "); (* ⇑ *)
  ([8659]%N, u" down double arrow "); (* ⇓ *)
  ([8660]%N, u" left right double arrow "); (* ⇔ *)
  ([176]%N, u" degrees "); (* ° *)
  ([8242]%N, u" prime "); (* ′ *)
  ([8243]%N, u" double prime "); (* ″ *)
  ([8244]%N, u" triple prime "); (* ‴ *)
  ([8733]%N, u" proportional to "); (* ∝ *)
  ([8735]%N, u" right angle "); (* ∟ *)
  ([8736]%N, u" angle "); (* ∠ *)
  ([8741]%N, u" parallel to "); (* ∥ *)
  ([8869]%N, u" perpendicular to "); (* ⊥ *)
  ([177]%N, u" plus or minus "); (* ± *)
  ([8723]%N, u" minus or plus "); (* ∓ *)
  ([8756]%N, u" therefore "); (* ∴ *)
  ([8757]%N, u" because "); (* ∵ *)
  ([8759]%N, u" as "); (* ∷ *)
  ([8758]%N, u" ratio "); (* ∶ *)
  (u"%", u" percent ");
  ([8240]%N, u" permille ") (* ‰ *)
].

(** A dict display: a repeated key keeps its first position and takes the
    last value. *)
Fixpoint dict_set (k v : str) (d : list (str * str)) : list (str * str) :=
  match d with
  | [] => [(k, v)]
  | (k', v') :: d' =>
      if str_eqb k' k then (k', v) :: d' else (k', v') :: dict_set k v d'
  end.

Definition dict_of_literal (entries : list (str * str)) : list (str * str) :=
  fold_left (fun d kv => dict_set (fst kv) (snd kv) d) entries [].

Definition SYMBOL_MAP : list (str * str) := dict_of_literal SYMBOL_MAP_literal.

Definition digits : regex := Plus (Cat CatDigit).                (* \d+ *)
Definition alnum : regex :=                                      (* [a-zA-Z0-9] *)
  Set_ false [IRange (ch "a") (ch "z"); IRange (ch "A") (ch "Z");
              IRange (ch "0") (ch "9")].
Definition alpha : regex :=                                      (* [a-zA-Z] *)
  Set_ false [IRange (ch "a") (ch "z"); IRange (ch "A") (ch "Z")].
Definition spaces0 : regex := Star (Cat CatSpace).               (* \s* *)
Definition spaces1 : regex := Plus (Cat CatSpace).               (* \s+ *)
Definition not_rbrace : regex := Plus (Set_ true [IChar (ch "}")]).   (* [^}]+ *)
Definition not_rbracket : regex := Plus (Set_ true [IChar (ch "]")]). (* [^]]+ *)

Section WithTables.
Context (U : unicode_tables).

(** The three hyphen rules of [process_mathematical_text]. *)
Definition hyphen_digits_re : regex :=
  (* \b(\d+)\s*-\s*(\d+)\b *)
  Seqs [Bound; Group 1 digits; spaces0; Chr (ch "-"); spaces0;
        Group 2 digits; Bound].

Definition hyphen_letter_re : regex :=
  (* \b([a-zA-Z])\s*-\s*([a-zA-Z0-9])\b *)
  Seqs [Bound; Group 1 alpha; spaces0; Chr (ch "-"); spaces0;
        Group 2 alnum; Bound].

Definition hyphen_spaced_re : regex :=
  (* \s-\s *)
  Seqs [Cat CatSpace; Chr (ch "-"); Cat CatSpace].

Definition hyphen_digits (t : str) : str :=
  re_sub U hyphen_digits_re [TRef 1; TLit (u " minus "); TRef 2] t.

Definition hyphen_letter (t : str) : str :=
  re_sub U hyphen_letter_re [TRef 1; TLit (u " minus "); TRef 2] t.

Definition hyphen_spaced (t : str) : str :=
  re_sub U hyphen_spaced_re [TLit (u " minus ")] t.

Definition hyphen_rules (t : str) : str :=
  hyphen_spaced (hyphen_letter (hyphen_digits t)).

Definition symbol_map_no_hyphen : list (str * str) :=
  List.filter (fun kv => negb (str_eqb (fst kv) (u "-"))) SYMBOL_MAP.

Definition replace_symbols (t : str) : str :=
  fold_left (fun acc kv => replace (fst kv) (snd kv) acc)
            symbol_map_no_hyphen t.

Definition process_mathematical_text (text : str) : str :=
  let t := text in
  (* (\d+)/(\d+) *)
  let t := re_sub U (Seqs [Group 1 digits; Chr (ch "/"); Group 2 digits])
                  [TRef 1; TLit (u " over "); TRef 2] t in
  (* ([a-zA-Z0-9]+)\^([a-zA-Z0-9]+) *)
  let t := re_sub U (Seqs [Group 1 (Plus alnum); Chr (ch "^"); Group 2 (Plus alnum)])
                  [TRef 1; TLit (u " to the power of "); TRef 2] t in
  (* ([a-zA-Z0-9]+)_([a-zA-Z0-9]+) *)
  let t := re_sub U (Seqs [Group 1 (Plus alnum); Chr (ch "_"); Group 2 (Plus alnum)])
                  [TRef 1; TLit (u " subscript "); TRef 2] t in
  let t := replace (u "(") (u " open parenthesis ") t in
  let t := replace (u ")") (u " close parenthesis ") t in
  let t := replace (u "[") (u " open bracket ") t in
  let t := replace (u "]") (u " close bracket ") t in
  let t := replace (u "{") (u " open brace ") t in
  let t := replace (u "}") (u " close brace ") t in
  (* ([0-9.]+)[eE]([+-]?[0-9]+) *)
  let t := re_sub U
             (Seqs [Group 1 (Plus (Set_ false [IRange (ch "0") (ch "9"); IChar (ch ".")]));
                    Set_ false [IChar (ch "e"); IChar (ch "E")];
                    Group 2 (Seq (Opt (Set_ false [IChar (ch "+"); IChar (ch "-")]))
                                 (Plus (Set_ false [IRange (ch "0") (ch "9")])))])
             [TRef 1; TLit (u " times 10 to the power of "); TRef 2] t in
  let t := hyphen_rules t in
  let t := replace_symbols t in
  re_sub U spaces1 [TLit (u " ")] (strip U t).

Definition backslash : char := 92%N.

Definition process_latex_expressions (text : str) : str :=
  let t := text in
  (* \\frac\{([^}]+)\}\{([^}]+)\} *)
  let t := re_sub U (Seqs [Chr backslash; lit (u "frac{"); Group 1 not_rbrace;
                           lit (u "}{"); Group 2 not_rbrace; Chr (ch "}")])
                  [TRef 1; TLit (u " over "); TRef 2] t in
  (* \\sqrt\{([^}]+)\} *)
  let t := re_sub U (Seqs [Chr backslash; lit (u "sqrt{"); Group 1 not_rbrace;
                           Chr (ch "}")])
                  [TLit (u "square root of "); TRef 1] t in
  (* \\sqrt\[([^]]+)\]\{([^}]+)\} *)
  let t := re_sub U (Seqs [Chr backslash; lit (u "sqrt["); Group 1 not_rbracket;
                           lit (u "]{"); Group 2 not_rbrace; Chr (ch "}")])
                  [TRef 1; TLit (u "th root of "); TRef 2] t in
  (* ([a-zA-Z0-9]+)\^\{([^}]+)\} *)
  let t := re_sub U (Seqs [Group 1 (Plus alnum); lit (u "^{"); Group 2 not_rbrace;
                           Chr (ch "}")])
                  [TRef 1; TLit (u " to the power of "); TRef 2] t in
  (* ([a-zA-Z0-9]+)_\{([^}]+)\} *)
  let t := re_sub U (Seqs [Group 1 (Plus alnum); lit (u "_{"); Group 2 not_rbrace;
                           Chr (ch "}")])
                  [TRef 1; TLit (u " subscript "); TRef 2] t in
  (* \\sum_\{([^}]+)\}\^\{([^}]+)\} *)
  let t := re_sub U (Seqs [Chr backslash; lit (u "sum_{"); Group 1 not_rbrace;
                           lit (u "}^{"); Group 2 not_rbrace; Chr (ch "}")])
                  [TLit (u "sum from "); TRef 1; TLit (u " to "); TRef 2] t in
  (* \\int_\{([^}]+)\}\^\{([^}]+)\} *)
  let t := re_sub U (Seqs [Chr backslash; lit (u "int_{"); Group 1 not_rbrace;
                           lit (u "}^{"); Group 2 not_rbrace; Chr (ch "}")])
                  [TLit (u "integral from "); TRef 1; TLit (u " to "); TRef 2] t in
  (* \\lim_\{([^}]+)\\to\s*([^}]+)\} *)
  let t := re_sub U (Seqs [Chr backslash; lit (u "lim_{"); Group 1 not_rbrace;
                           Chr backslash; lit (u "to"); spaces0;
                           Group 2 not_rbrace; Chr (ch "}")])
                  [TLit (u "limit as "); TRef 1; TLit (u " approaches "); TRef 2] t in
  (* \\[a-zA-Z]+ *)
  let t := re_sub U (Seq (Chr backslash) (Plus alpha)) [] t in
  re_sub U spaces1 [TLit (u " ")] (strip U t).

End WithTables.
End MathNotationProcessor.

(** [TTSEngine._clean_text] *)
Definition _clean_text (U : unicode_tables) (text : str) : str :=
  let text := MathNotationProcessor.process_mathematical_text U text in
  let text := MathNotationProcessor.process_latex_expressions U text in
  re_sub U MathNotationProcessor.spaces1 [TLit (u " ")] (strip U text).

(** ** Session registry: [ConnectionManager] *)

(** One entry of [session_data]; the dict's four keys are its fields. *)
Record session := {
  text_buffer : str;
  full_text : str;
  is_active : bool;
  created_at : Qc
}.

(** A [WebSocket] object, known by its identity only. *)
Definition websocket := nat.

Record ConnectionManager := {
  active_connections : gmap str websocket;
  session_data : gmap str session
}.

Module Registry.

Definition init : ConnectionManager :=
  {| active_connections := ∅; session_data := ∅ |}.

(** [connect]: two dict stores.  [now] is the event loop's clock. *)
Definition connect (now : Qc) (ws : websocket) (session_id : str)
    (cm : ConnectionManager) : ConnectionManager :=
  {| active_connections := <[session_id := ws]> (active_connections cm);
     session_data :=
       <[session_id := {| text_buffer := []; full_text := [];
                          is_active := true; created_at := now |}]>
         (session_data cm) |}.

Definition disconnect (session_id : str) (cm : ConnectionManager)
    : ConnectionManager :=
  {| active_connections := delete session_id (active_connections cm);
     session_data := delete session_id (session_data cm) |}.

Definition initialize_session (session_id : str) (cm : ConnectionManager)
    : ConnectionManager :=
  match session_data cm !! session_id with
  | Some d =>
      {| active_connections := active_connections cm;
         session_data :=
           <[session_id := {| text_buffer := []; full_text := [];
                              is_active := true;
                              created_at := created_at d |}]>
             (session_data cm) |}
  | None => cm
  end.

Definition add_text_chunk (session_id : str) (text : str)
    (cm : ConnectionManager) : ConnectionManager :=
  match session_data cm !! session_id with
  | Some d =>
      {| active_connections := active_connections cm;
         session_data :=
           <[session_id := {| text_buffer := text_buffer d ++ text;
                              full_text := full_text d ++ text;
                              is_active := is_active d;
                              created_at := created_at d |}]>
             (session_data cm) |}
  | None => cm
  end.

Definition get_text_buffer (session_id : str) (cm : ConnectionManager) : str :=
  match session_data cm !! session_id with
  | Some d => text_buffer d
  | None => []
  end.

Definition clear_text_buffer (session_id : str) (cm : ConnectionManager)
    : ConnectionManager :=
  match session_data cm !! session_id with
  | Some d =>
      {| active_connections := active_connections cm;
         session_data :=
           <[session_id := {| text_buffer := []; full_text := full_text d;
                              is_active := is_active d;
                              created_at := created_at d |}]>
             (session_data cm) |}
  | None => cm
  end.

(** [cleanup_all_connections]: [disconnect] for every key of
    [active_connections], taken from a copy of the key list. *)
Definition cleanup_all_connections (cm : ConnectionManager) : ConnectionManager :=
  fold_left (fun acc session_id => disconnect session_id acc)
            (map_to_list (active_connections cm)).*1 cm.

End Registry.

(** ** Segmentation policy: [has_true_sentence_ending], [should_process_text] *)

Fixpoint Alts (rs : list regex) : regex :=
  match rs with
  | [] => Eps
  | [r] => r
  | r :: rs' => Alt r (Alts rs')
  end.

Module Segmentation.

(** The list [abbreviations]; every entry is [\b] and a literal. *)
Definition abbreviation_words : list string := [
  "Mr."; "Mrs."; "Ms."; "Dr."; "Prof."; "Rev."; "St."; "Mt.";
  "Jr."; "Sr."; "II."; "III.";
  "PhD."; "MD."; "LLD."; "BA."; "BS."; "MA."; "MS.";
  "etc."; "vs."; "e.g."; "i.e."; "Inc."; "Corp."; "Ltd."; "Co."; "LLC.";
  "U.S."; "U.K."; "N.Y."; "L.A."; "D.C.";
  "a.m."; "p.m."; "A.M."; "P.M.";
  "in."; "ft."; "lb."; "oz."; "gal."; "min."; "sec."; "max."
]%string.

Definition abbreviations : list regex :=
  List.map (fun w => Seq Bound (lit (u w))) abbreviation_words.

(** ['|'.join(abbreviations)], compiled with [re.IGNORECASE]. *)
Definition abbrev_pattern : regex := ignorecase (Alts abbreviations).

Definition sentence_endings : list str := [u "."; u "!"; u "?"].

Section WithTables.
Context (U : unicode_tables).

Definition text_without_abbrevs (text : str) : str :=
  re_sub U abbrev_pattern [TLit (u "ABBREV")] text.

Definition has_true_sentence_ending (text : str) : bool :=
  existsb (fun ending => contains ending (text_without_abbrevs text))
          sentence_endings.

(** [should_process_text] once the buffer is read. *)
Definition should_process_buffer (text_buffer : str) : bool :=
  let has_sentence_end := has_true_sentence_ending text_buffer in
  let buffer_too_long := Nat.ltb 100 (length (strip U text_buffer)) in
  has_sentence_end || buffer_too_long.

Definition should_process_text (cm : ConnectionManager) (session_id : str)
    : bool :=
  should_process_buffer (Registry.get_text_buffer session_id cm).

End WithTables.
End Segmentation.

(** ** Numbers *)

Definition of_nat (n : nat) : Qc := Q2Qc (inject_Z (Z.of_nat n)).
Definition of_Z (z : Z) : Qc := Q2Qc (inject_Z z).

(** [int(x)]: truncation towards zero. *)
Definition int_trunc (x : Qc) : Z := Z.quot (Qnum (this x)) (Zpos (Qden (this x))).


(** ** Floating point *)

Module Float.
Local Open Scope Q_scope.

(** Round to the nearest integer, ties to even. *)
Definition rne (x : Q) : Z :=
  let f := Qfloor x in
  match Qcompare (x - inject_Z f) (1#2) with
  | Lt => f
  | Gt => (f + 1)%Z
  | Eq => if Z.even f then f else (f + 1)%Z
  end.

(** [floor (log2 x)] of a positive rational. *)
Definition ilog2 (x : Q) : Z :=
  let e0 := (Z.log2 (Qnum x) - Z.log2 (Zpos (Qden x)))%Z in
  if Qle_bool (2 ^ e0) x then e0 else (e0 - 1)%Z.

(** The nearest number with a significand of [p] bits. *)
Definition round_pos (p : Z) (x : Q) : Q :=
  let s := (ilog2 x - (p - 1))%Z in
  inject_Z (rne (x * 2 ^ (- s))) * 2 ^ s.

Definition round (p : Z) (x : Q) : Q :=
  match Qcompare x 0 with
  | Eq => 0
  | Gt => round_pos p x
  | Lt => - round_pos p (- x)
  end.

End Float.

Definition rnd (p : Z) (x : Qc) : Qc := Q2Qc (Float.round p (this x)).

(** Python's [float] is binary64; kokoro's and the mock's audio arrays are
    [float32]. *)
Definition R64 : Qc -> Qc := rnd 53.
Definition R32 : Qc -> Qc := rnd 24.

(** [x * y], [x / y] and [x + y] on floats (an [int] operand is converted
    exactly). *)
Definition fmul (x y : Qc) : Qc := R64 (x * y)%Qc.
Definition fdiv (x y : Qc) : Qc := R64 (x / y)%Qc.
Definition fadd (x y : Qc) : Qc := R64 (x + y)%Qc.

(** ** Alignment synthesiser *)

(** One phoneme timing, the tuple [(phoneme, start_ms, end_ms)]. *)
Record timing := { phoneme : str; t_start_ms : Qc; t_end_ms : Qc }.

(** The alignment dicts [{"start_ms", "duration_ms"}], with ["word"] for
    the word kind. *)
Record char_alignment := { start_ms : Qc; duration_ms : Qc }.
Record word_alignment := { word : str; w_start_ms : Qc; w_duration_ms : Qc }.

Module Alignment.

(** [phoneme_timings[-1][2] if phoneme_timings else 0] *)
Definition total_duration (phoneme_timings : list timing) : Qc :=
  match last phoneme_timings with
  | Some t => t_end_ms t
  | None => of_Z 0
  end.

(** The body of [for i, char in enumerate(text)], from index [i];
    [times] is the product [i * char_duration]: of two [int]s in the
    fallback, of an [int] and a [float] otherwise. *)
Fixpoint char_loop (times : Qc -> Qc -> Qc) (char_duration : Qc) (i : nat)
    (text : str) : list char_alignment :=
  match text with
  | [] => []
  | _ :: text' =>
      {| start_ms := times (of_nat i) char_duration;
         duration_ms := char_duration |}
      :: char_loop times char_duration (S i) text'
  end.

Definition _generate_character_alignment (text : str)
    (phoneme_timings : list timing) : list char_alignment :=
  match phoneme_timings with
  | [] => char_loop Qcmult (of_Z 100) 0 text
  | _ :: _ =>
      let total := total_duration phoneme_timings in
      let char_duration :=
        if Nat.ltb 0 (length text) then fdiv total (of_nat (length text))
        else of_Z 0 in
      char_loop fmul char_duration 0 text
  end.

(** The body of [for word in words], with the running [current_time]. *)
Fixpoint word_loop (total_chars : nat) (total : Qc) (current_time : Qc)
    (words : list str) : list word_alignment :=
  match words with
  | [] => []
  | w :: words' =>
      let word_duration :=
        if Nat.ltb 0 total_chars
        then fmul (fdiv (of_nat (length w)) (of_nat total_chars)) total
        else of_Z 0 in
      {| word := w; w_start_ms := current_time; w_duration_ms := word_duration |}
      :: word_loop total_chars total (fadd current_time word_duration) words'
  end.

Definition sum_lengths (words : list str) : nat :=
  fold_right (fun w n => length w + n) 0 words.

Section WithTables.
Context (U : unicode_tables).

(** [re.findall(r'\S+', text)] *)
Definition split_words (text : str) : list str :=
  re_findall U (Plus (Cat CatNotSpace)) text.

Definition _generate_word_alignment (text : str)
    (phoneme_timings : list timing) : list word_alignment :=
  let words := split_words text in
  match phoneme_timings, words with
  | [], _ => []
  | _, [] => []
  | _ :: _, _ :: _ =>
      let total := total_duration phoneme_timings in
      let total_chars := sum_lengths words in
      word_loop total_chars total (of_Z 0) words
  end.

End WithTables.
End Alignment.

(** ** Audio encoder *)

Module Encoder.
Local Open Scope Z_scope.

Definition kokoro_sample_rate : Z := 24000.
Definition target_sample_rate : Z := 44100.

(** A C conversion to a 16-bit signed integer of a value that fits a wider
    one: the low 16 bits, two's complement. *)
Definition wrap16 (z : Z) : Z := (z + 32768) mod 65536 - 32768.

(** [x.astype(np.int16)] on one sample.  The fraction is dropped; C
    leaves the conversion of a value outside the target type undefined,
    and the model follows what x86-64 does: the value is converted to 32
    bits, where anything out of range gives [-2^31], and the low 16 bits
    are kept. *)
Definition astype_int16 (x : Qc) : Z :=
  let t := int_trunc x in
  if (- 2147483648 <=? t) && (t <? 2147483648) then wrap16 t
  else wrap16 (- 2147483648).

(** [(audio_data * 32767).astype(np.int16)]: the product is a [float32]
    array. *)
Definition to_int16 (audio_data : list Qc) : list Z :=
  List.map (fun x => astype_int16 (R32 (x * of_Z 32767)%Qc)) audio_data.

(** [tobytes()]: two bytes a sample, low byte first. *)
Definition tobytes (samples : list Z) : list Z :=
  List.concat
    (List.map (fun z => let w := z mod 65536 in [w mod 256; w / 256]) samples).

Definition b64_alphabet : str :=
  u "ABCDEFGHIJKLMNOPQRSTUVWXYZabcdefghijklmnopqrstuvwxyz0123456789+/".

Definition b64_digit (z : Z) : char := nth (Z.to_nat z) b64_alphabet 61%N.

(** [base64.b64encode]; [fuel] bounds the number of 3-byte groups. *)
Fixpoint b64_groups (fuel : nat) (bytes : list Z) : str :=
  match fuel with
  | O => []
  | S f =>
      match bytes with
      | [] => []
      | [a] =>
          [b64_digit (a / 4); b64_digit (a mod 4 * 16); 61%N; 61%N]
      | [a; b] =>
          [b64_digit (a / 4); b64_digit (a mod 4 * 16 + b / 16);
           b64_digit (b mod 16 * 4); 61%N]
      | a :: b :: c :: rest =>
          [b64_digit (a / 4); b64_digit (a mod 4 * 16 + b / 16);
           b64_digit (b mod 16 * 4 + c / 64); b64_digit (c mod 64)]
          ++ b64_groups f rest
      end
  end.

Definition b64encode (bytes : list Z) : str := b64_groups (S (length bytes)) bytes.

Section WithResampler.
(** [scipy.signal.resample(x, num)] on an array that is not empty. *)
Context (resample : list Qc -> nat -> list Qc).

(** [scipy.signal.resample]: its FFT refuses an empty array with a
    [ValueError] ([None]). *)
Definition signal_resample (x : list Qc) (num : nat) : option (list Qc) :=
  match x with
  | [] => None
  | _ :: _ => Some (resample x num)
  end.

(** [None]: an exception leaves the function. *)
Definition _audio_to_base64 (audio_data : list Qc) : option str :=
  let resampled :=
    if Z.eqb kokoro_sample_rate target_sample_rate then Some audio_data
    else
      let resampling_ratio := fdiv (of_Z target_sample_rate) (of_Z kokoro_sample_rate) in
      let target_length :=
        Z.to_nat (int_trunc (fmul (of_nat (length audio_data)) resampling_ratio)) in
      signal_resample audio_data target_length in
  match resampled with
  | Some audio_data => Some (b64encode (tobytes (to_int16 audio_data)))
  | None => None
  end.

End WithResampler.
End Encoder.

(** ** The engine: [TTSEngine] *)

(** What the kokoro generator yields: [(graphemes, phonemes, audio)]. *)
Record chunk := { graphemes : str; phonemes : str; audio : list Qc }.

(** The values [self.pipeline] takes.  A kokoro pipeline is the function
    from text to the chunks it yields, [None] when the call or the
    iteration raises. *)
Inductive pipeline_t :=
| NoPipeline
| MockPipeline
| KPipeline (run : str -> option (list chunk)).

Record TTSEngine := { pipeline : pipeline_t; ready : bool }.

(** The dict [generate_audio_with_alignment] returns. *)
Record tts_result := {
  r_audio : str;
  r_original_text : str;
  r_processed_text : str;
  r_chars : list str;
  r_char_start_times_ms : list Z;
  r_char_durations_ms : list Z;
  r_words : list str;
  r_word_start_times_ms : list Z;
  r_word_durations_ms : list Z;
  r_full_text : str
}.

Module Engine.
Section WithEnvironment.
Context (U : unicode_tables).
(** [scipy.signal.resample] on a non-empty array, and the mock's wave:
    [mock_sample d n i] is sample [i] of the [n] that numpy computes for
    the duration [d] (the sine at [t[i]], halved, with the fades). *)
Context (resample : list Qc -> nat -> list Qc).
Context (mock_sample : Qc -> nat -> nat -> Qc).

(** [for j, phoneme in enumerate(phonemes)] *)
Fixpoint phoneme_loop (current_time_ms phoneme_duration_ms : Qc) (j : nat)
    (ps : str) : list timing :=
  match ps with
  | [] => []
  | p :: ps' =>
      let start := fadd current_time_ms (fmul (of_nat j) phoneme_duration_ms) in
      {| phoneme := [p]; t_start_ms := start;
         t_end_ms := fadd start phoneme_duration_ms |}
      :: phoneme_loop current_time_ms phoneme_duration_ms (S j) ps'
  end.

(** [for i, (graphemes, phonemes, audio) in enumerate(generator)] *)
Fixpoint chunk_loop (current_time_ms : Qc) (chunks : list chunk)
    : list (list Qc) * list timing :=
  match chunks with
  | [] => ([], [])
  | c :: chunks' =>
      let chunk_duration_ms :=
        fmul (fdiv (of_nat (length (audio c))) (of_Z Encoder.kokoro_sample_rate))
             (of_Z 1000) in
      let here :=
        match phonemes c with
        | [] => [{| phoneme := []; t_start_ms := current_time_ms;
                    t_end_ms := fadd current_time_ms chunk_duration_ms |}]
        | _ :: _ =>
            phoneme_loop current_time_ms
              (fdiv chunk_duration_ms (of_nat (length (phonemes c))))
              0 (phonemes c)
        end in
      let '(audio_chunks, timings) :=
        chunk_loop (fadd current_time_ms chunk_duration_ms) chunks' in
      (audio c :: audio_chunks, here ++ timings)
  end.

(** [for i, char in enumerate(text)] of the mock. *)
Fixpoint mock_timing_loop (ms_per_char : Qc) (i : nat) (text : str)
    : list timing :=
  match text with
  | [] => []
  | c :: text' =>
      (if isalpha U c
       then [{| phoneme := u "/" ++ lower U c ++ u "/";
                t_start_ms := fmul (of_nat i) ms_per_char;
                t_end_ms := fmul (of_nat (S i)) ms_per_char |}]
       else [])
      ++ mock_timing_loop ms_per_char (S i) text'
  end.

(** [None]: the division by [len(text)] raises. *)
Definition _generate_mock_audio_with_timings (text : str)
    : option (list Qc * list timing) :=
  (* the literal [0.08] *)
  let duration_seconds :=
    fmul (of_nat (length text)) (R64 (of_Z 2 / of_Z 25)%Qc) in
  let samples :=
    Z.to_nat (int_trunc (fmul (of_Z Encoder.target_sample_rate) duration_seconds)) in
  let audio_data :=
    List.map (mock_sample duration_seconds samples) (seq 0 samples) in
  match length text with
  | O => None
  | S _ =>
      let ms_per_char :=
        fdiv (fmul duration_seconds (of_Z 1000)) (of_nat (length text)) in
      Some (audio_data, mock_timing_loop ms_per_char 0 text)
  end.

(** [try] the pipeline, [except] fall back to the mock. *)
Definition _generate_audio_with_phoneme_timings (self : TTSEngine)
    (text : str) : option (list Qc * list timing) :=
  match pipeline self with
  | MockPipeline => _generate_mock_audio_with_timings text
  | NoPipeline => _generate_mock_audio_with_timings text
  | KPipeline run =>
      match run text with
      | Some chunks =>
          let '(audio_chunks, phoneme_timings) := chunk_loop (of_Z 0) chunks in
          Some (List.concat audio_chunks, phoneme_timings)
      | None => _generate_mock_audio_with_timings text
      end
  end.

Definition is_blank (s : str) : bool :=
  match strip U s with [] => true | _ :: _ => false end.

(** [None] is both [return None] and the [except] arm, which returns
    [None] too: it is reached when the mock divides by zero and when the
    encoder's resampling raises. *)
Definition generate_audio_with_alignment (self : TTSEngine) (text : str)
    : option tts_result :=
  if negb (ready self) then None
  else
    let original_text := text in
    let processed_text := _clean_text U text in
    if is_blank processed_text then None
    else
      match _generate_audio_with_phoneme_timings self processed_text with
      | None => None
      | Some (audio_data, phoneme_timings) =>
          let word_alignments :=
            Alignment._generate_word_alignment U processed_text phoneme_timings in
          let char_alignments :=
            Alignment._generate_character_alignment processed_text phoneme_timings in
          match Encoder._audio_to_base64 resample audio_data with
          | None => None
          | Some audio_base64 =>
              Some {| r_audio := audio_base64;
                      r_original_text := original_text;
                      r_processed_text := processed_text;
                      r_chars := List.map (fun c => [c]) processed_text;
                      r_char_start_times_ms :=
                        List.map (fun a => int_trunc (start_ms a)) char_alignments;
                      r_char_durations_ms :=
                        List.map (fun a => int_trunc (duration_ms a)) char_alignments;
                      r_words := List.map word word_alignments;
                      r_word_start_times_ms :=
                        List.map (fun w => int_trunc (w_start_ms w)) word_alignments;
                      r_word_durations_ms :=
                        List.map (fun w => int_trunc (w_duration_ms w)) word_alignments;
                      r_full_text := processed_text |}
          end
      end.

End WithEnvironment.
End Engine.

(** ** Protocol handler: [main.py] *)

(** A decoded JSON value, as far as the handler looks into it: its type, a
    string's text, and whether it is truthy. *)
Inductive jval :=
| JNull
| JBool (b : bool)
| JNum (z : Z)
| JStr (s : str)
| JCompound (nonempty : bool).   (* a list or a dict *)

Definition truthy (v : option jval) : bool :=
  match v with
  | None | Some JNull => false
  | Some (JBool b) => b
  | Some (JNum z) => negb (Z.eqb z 0)
  | Some (JStr s) => match s with [] => false | _ :: _ => true end
  | Some (JCompound nonempty) => nonempty
  end.

(** What [json.loads(data)] makes of a frame. *)
Inductive frame :=
| FMalformed                       (* raises JSONDecodeError *)
| FObject (m : gmap str jval)      (* a dict *)
| FOther.                          (* any other JSON value *)

(** What [await websocket.receive_text()] does. *)
Inductive event :=
| Recv (f : frame)
| Disconnect.                      (* raises WebSocketDisconnect *)

(** The argument of [json.dumps] in a [send_text]. *)
Inductive outmsg :=
| OutResult (result : tts_result) (current_chunk_text : str)
| OutError (description : str).

Inductive exn := WebSocketDisconnect | JSONDecodeError | OtherException.

Inductive res (A : Type) :=
| Ok (a : A)
| Raise (e : exn).
Arguments Ok {A} a.
Arguments Raise {A} e.

(** The mutable world of one connection: the registry, what was sent, and
    whether a send still goes through. *)
Record world := {
  cm : ConnectionManager;
  sent : list outmsg;
  link_up : bool
}.

Definition M (A : Type) : Type := world -> res A * world.

Definition ret {A} (a : A) : M A := fun w => (Ok a, w).
Definition raise {A} (e : exn) : M A := fun w => (Raise e, w).
Definition bind {A B} (m : M A) (f : A -> M B) : M B :=
  fun w => match m w with
           | (Ok a, w') => f a w'
           | (Raise e, w') => (Raise e, w')
           end.
(** [try: m  except Exception: h]; what [m] changed before raising stays. *)
Definition try_except {A} (m : M A) (h : exn -> M A) : M A :=
  fun w => match m w with
           | (Ok a, w') => (Ok a, w')
           | (Raise e, w') => h e w'
           end.
Definition gets {A} (f : world -> A) : M A := fun w => (Ok (f w), w).
Definition update_cm (f : ConnectionManager -> ConnectionManager) : M unit :=
  fun w => (Ok tt, {| cm := f (cm w); sent := sent w; link_up := link_up w |}).

Notation "x <- m ;; k" := (bind m (fun x => k))
  (at level 100, m at next level, right associativity).
Notation "m ;;; k" := (bind m (fun _ => k))
  (at level 100, right associativity).

Definition send_text (msg : outmsg) : M unit :=
  fun w =>
    if link_up w
    then (Ok tt, {| cm := cm w; sent := sent w ++ [msg]; link_up := link_up w |})
    else (Raise OtherException, w).

Inductive loop_ctl := Continue | Break.

Module Handler.
Section WithEnvironment.
Context (U : unicode_tables).
Context (resample : list Qc -> nat -> list Qc).
Context (mock_sample : Qc -> nat -> nat -> Qc).
Context (tts_engine : TTSEngine).

Definition set_full_text (r : tts_result) (t : str) : tts_result :=
  {| r_audio := r_audio r; r_original_text := r_original_text r;
     r_processed_text := r_processed_text r; r_chars := r_chars r;
     r_char_start_times_ms := r_char_start_times_ms r;
     r_char_durations_ms := r_char_durations_ms r;
     r_words := r_words r;
     r_word_start_times_ms := r_word_start_times_ms r;
     r_word_durations_ms := r_word_durations_ms r;
     r_full_text := t |}.

Definition process_text_buffer (session_id : str) : M unit :=
  try_except
    (text_buffer <- gets (fun w => Registry.get_text_buffer session_id (cm w)) ;;
     if Engine.is_blank U text_buffer then ret tt
     else
       match Engine.generate_audio_with_alignment U resample mock_sample
               tts_engine text_buffer with
       | Some result =>
           full_accumulated_text <-
             gets (fun w => match session_data (cm w) !! session_id with
                            | Some d => full_text d
                            | None => text_buffer
                            end) ;;
           send_text (OutResult (set_full_text result full_accumulated_text)
                                (r_processed_text result)) ;;;
           update_cm (Registry.clear_text_buffer session_id)
       | None => ret tt
       end)
    (fun _ => send_text (OutError (u "TTS processing failed"))).

Definition process_remaining_text (session_id : str) : M unit :=
  try_except
    (text_buffer <- gets (fun w => Registry.get_text_buffer session_id (cm w)) ;;
     if Engine.is_blank U text_buffer then ret tt
     else process_text_buffer session_id)
    (fun _ => ret tt).

(** The [try] body of one round of the loop, for a decoded dict. *)
Definition dispatch (session_id : str) (message : gmap str jval)
    : M loop_ctl :=
  match message !! u "text" with
  | Some (JStr text) =>
      if str_eqb text (u " ") then
        update_cm (Registry.initialize_session session_id) ;;; ret Continue
      else if str_eqb text [] then
        process_remaining_text session_id ;;; ret Break
      else
        update_cm (Registry.add_text_chunk session_id text) ;;;
        go <- gets (fun w => Segmentation.should_process_text U (cm w) session_id) ;;
        if go then process_text_buffer session_id ;;; ret Continue
        else ret Continue
  | Some _ =>
      (* [text_buffer += text] with a text that is no string raises *)
      known <- gets (fun w => session_data (cm w) !! session_id) ;;
      match known with
      | Some _ => raise OtherException
      | None => ret Continue
      end
  | None =>
      if truthy (message !! u "flush") then
        process_text_buffer session_id ;;; ret Continue
      else if truthy (message !! u "reset") then
        update_cm (Registry.initialize_session session_id) ;;; ret Continue
      else ret Continue
  end.

Definition loop_body (session_id : str) (ev : event) : M loop_ctl :=
  match ev with
  | Disconnect => raise WebSocketDisconnect
  | Recv FMalformed => raise JSONDecodeError
  | Recv FOther => raise OtherException
  | Recv (FObject message) => dispatch session_id message
  end.

(** One round of [while True], with its three [except] arms. *)
Definition loop_round (session_id : str) (ev : event) : M loop_ctl :=
  try_except (loop_body session_id ev)
    (fun e =>
       match e with
       | JSONDecodeError =>
           try_except
             (send_text (OutError (u "Invalid JSON format")) ;;; ret Continue)
             (fun _ => ret Break)
       | WebSocketDisconnect => ret Break
       | OtherException =>
           try_except
             (send_text (OutError (u "Processing error")) ;;; ret Continue)
             (fun _ => ret Continue)
       end).

(** The loop over the frames that have arrived; [Continue] at the end
    means it is waiting in [receive_text]. *)
Fixpoint message_loop (session_id : str) (events : list event) : M loop_ctl :=
  match events with
  | [] => ret Continue
  | ev :: events' =>
      c <- loop_round session_id ev ;;
      match c with
      | Break => ret Break
      | Continue => message_loop session_id events'
      end
  end.

(** [websocket_endpoint]: register, run the loop, and once the loop is
    left, [finally] unregister. *)
Definition websocket_endpoint (now : Qc) (ws : websocket) (session_id : str)
    (events : list event) : M loop_ctl :=
  update_cm (Registry.connect now ws session_id) ;;;
  c <- message_loop session_id events ;;
  match c with
  | Break => update_cm (Registry.disconnect session_id) ;;; ret Break
  | Continue => ret Continue
  end.

End WithEnvironment.
End Handler.


(** * Properties *)

(** ** Strings and the matcher *)

Lemma contains_cons (needle : str) (c : char) (hay : str) :
  contains needle hay = true -> contains needle (c :: hay) = true.
Proof.
  intros H. cbn [contains]. rewrite H. apply orb_true_r.
Qed.

Lemma contains_app_r (needle pre hay : str) :
  contains needle hay = true -> contains needle (pre ++ hay) = true.
Proof.
  induction pre as [|c pre IH]; intros H; [exact H|].
  cbn [app]. apply contains_cons, IH, H.
Qed.

Lemma startswith_app (p s t : str) :
  startswith p s = true -> startswith p (s ++ t) = true.
Proof.
  revert s. induction p as [|x p IH]; intros [|y s] H; cbn in *;
    try reflexivity; try discriminate.
  apply andb_true_iff in H as [Hx H]. rewrite Hx. cbn. apply IH, H.
Qed.

Lemma contains_app_l (needle hay post : str) :
  contains needle hay = true -> contains needle (hay ++ post) = true.
Proof.
  induction hay as [|c hay IH]; intros H.
  - cbn in H. rewrite orb_false_r in H.
    destruct needle; [|discriminate]. destruct post; reflexivity.
  - cbn [contains] in H. apply orb_true_iff in H as [H|H].
    + change ((c :: hay) ++ post) with (c :: (hay ++ post)).
      cbn [contains]. apply orb_true_iff. left.
      apply (startswith_app needle (c :: hay) post H).
    + cbn [app]. apply contains_cons, IH, H.
Qed.

(** A replaced occurrence leaves the new text in the result. *)
Lemma replace_from_contains (needle old new s : str) :
  contains needle new = true ->
  contains old s = true ->
  old <> [] ->
  contains needle (replace_from old new s 0) = true.
Proof.
  intros Hnew Hs Hold. induction s as [|c s IH].
  - destruct old; [congruence|]. cbn in Hs. discriminate.
  - cbn [replace_from]. destruct (startswith old (c :: s)) eqn:Hst.
    + apply contains_app_l, Hnew.
    + apply contains_cons, IH. cbn [contains] in Hs. rewrite Hst in Hs. exact Hs.
Qed.

(** ** The normaliser on the specification's examples *)

(** C2. [_clean_text] runs [process_mathematical_text] first, which spells
    the braces of [\frac{1}{2}] out; the LaTeX pass then finds no
    [\frac{..}{..}], deletes [\frac], and the result is
    ["open brace 1 close brace open brace 2 close brace"], which does not
    contain ["1 over 2"].  The LaTeX pass on its own, braces intact, does
    give ["1 over 2"]. *)
Theorem frac_braces_spelled_before_latex (U : unicode_tables) :
  _clean_text U (u "\frac{1}{2}")
    = u "open brace 1 close brace open brace 2 close brace"
  /\ contains (u "1 over 2") (_clean_text U (u "\frac{1}{2}")) = false
  /\ MathNotationProcessor.process_latex_expressions U (u "\frac{1}{2}")
     = u "1 over 2".
Proof.
  repeat split; vm_compute; reflexivity.
Qed.

(** C10. The symbol table has the entry ['lim' -> ' limit '], the
    substitution step is [str.replace] with every entry in turn, so any text
    in which ["lim"] occurs comes out of that entry's replacement with
    ["limit"] in it, word or not; the normaliser turns ["climb"] into
    ["c limit b"]. *)
Theorem lim_replaced_inside_words (U : unicode_tables) :
  In (u "lim", u " limit ") MathNotationProcessor.symbol_map_no_hyphen
  /\ (forall t : str,
        MathNotationProcessor.replace_symbols t
        = fold_left (fun acc kv => replace (fst kv) (snd kv) acc)
                    MathNotationProcessor.symbol_map_no_hyphen t)
  /\ (forall s : str,
        contains (u "lim") s = true ->
        contains (u "limit") (replace (u "lim") (u " limit ") s) = true)
  /\ _clean_text U (u "climb") = u "c limit b"
  /\ contains (u "limit") (_clean_text U (u "climb")) = true.
Proof.
  split; [|split; [|split; [|split]]].
  - vm_compute. repeat (first [left; reflexivity | right]).
  - reflexivity.
  - intros s Hs.
    change (replace (u "lim") (u " limit ") s)
      with (replace_from (u "lim") (u " limit ") s 0).
    apply replace_from_contains; [reflexivity | exact Hs | discriminate].
  - vm_compute. reflexivity.
  - vm_compute. reflexivity.
Qed.

Lemma lim_replaced_inside_words_witness :
  contains (u "lim") (u "climb") = true
  /\ contains (u "limit") (replace (u "lim") (u " limit ") (u "climb")) = true.
Proof.
  split; [reflexivity|].
  apply (proj1 (proj2 (proj2 (lim_replaced_inside_words ascii_tables))) (u "climb")).
  reflexivity.
Defined.

(** ** Segmentation policy *)

Lemma contains_char (c : char) (s : str) :
  contains [c] s = true <-> In c s.
Proof.
  induction s as [|x s IH]; cbn [contains startswith In].
  - split; [discriminate | tauto].
  - rewrite orb_true_iff, IH. unfold char_eqb.
    destruct s; rewrite andb_true_r, N.eqb_eq; intuition congruence.
Qed.

(** The three sentence-ending characters. *)
Definition is_ending (c : char) : Prop := c = ch "." \/ c = ch "!" \/ c = ch "?".

Lemma has_true_sentence_ending_spec (U : unicode_tables) (text : str) :
  Segmentation.has_true_sentence_ending U text = true <->
  exists c, is_ending c /\ In c (Segmentation.text_without_abbrevs U text).
Proof.
  unfold Segmentation.has_true_sentence_ending, Segmentation.sentence_endings.
  cbn [existsb]. rewrite orb_false_r, !orb_true_iff.
  change (u ".") with [ch "."]. change (u "!") with [ch "!"].
  change (u "?") with [ch "?"]. rewrite !contains_char.
  unfold is_ending. split.
  - intros [H|[H|H]]; eauto.
  - intros (c & Hc & H). destruct Hc as [Hc|[Hc|Hc]]; subst c; auto.
Qed.

(** The trigger, unfolded once. *)
Lemma should_process_unfolded (U : unicode_tables) (buffer : str) :
  Segmentation.should_process_buffer U buffer = true <->
  (exists c, is_ending c /\ In c (Segmentation.text_without_abbrevs U buffer))
  \/ 100 < length (strip U buffer).
Proof.
  unfold Segmentation.should_process_buffer.
  rewrite orb_true_iff, has_true_sentence_ending_spec, Nat.ltb_lt. reflexivity.
Qed.

(** ** Session registry *)

Definition fresh_session (now : Qc) : session :=
  {| text_buffer := []; full_text := []; is_active := true; created_at := now |}.

(** C5, as the code has it.  [connect] stores a record with empty buffer,
    empty transcript and [is_active = True] under the identifier, and the
    socket beside it, whatever the registry held before: a record already
    there is replaced and nothing is raised.  Other sessions are not
    touched. *)
Theorem connect_creates_or_replaces (now : Qc) (ws : websocket)
    (session_id : str) (w : world) :
  let cm' := Registry.connect now ws session_id (cm w) in
  session_data cm' !! session_id = Some (fresh_session now)
  /\ active_connections cm' !! session_id = Some ws
  /\ delete session_id (session_data cm') = delete session_id (session_data (cm w))
  /\ delete session_id (active_connections cm')
     = delete session_id (active_connections (cm w))
  /\ update_cm (Registry.connect now ws session_id) w
     = (Ok tt, {| cm := cm'; sent := sent w; link_up := link_up w |}).
Proof.
  cbn. repeat split.
  - apply lookup_insert_eq.
  - apply lookup_insert_eq.
  - apply delete_insert_eq.
  - apply delete_insert_eq.
Qed.

(** C5, as stated, fails: a second [connect] with an identifier that is
    present, and whose session has text buffered, returns normally and the
    buffered text is gone. *)
Lemma connect_twice_overwrites :
  let sid := u "s1" in
  let cm1 := Registry.add_text_chunk sid (u "abc")
               (Registry.connect (of_Z 0) 1 sid Registry.init) in
  let w1 := {| cm := cm1; sent := []; link_up := true |} in
  session_data cm1 !! sid
    = Some {| text_buffer := u "abc"; full_text := u "abc"; is_active := true;
              created_at := of_Z 0 |}
  /\ fst (update_cm (Registry.connect (of_Z 5) 2 sid) w1) = Ok tt
  /\ session_data (cm (snd (update_cm (Registry.connect (of_Z 5) 2 sid) w1))) !! sid
     = Some (fresh_session (of_Z 5)).
Proof.
  cbn zeta. split; [|split].
  - unfold Registry.add_text_chunk, Registry.connect, Registry.init. cbn.
    rewrite lookup_insert_eq. cbn. rewrite lookup_insert_eq. reflexivity.
  - reflexivity.
  - cbn. apply lookup_insert_eq.
Qed.


(** ** Floating point *)

Import Float.

Section Rounding.
Local Open Scope Q_scope.

Lemma rne_bounds (x : Q) :
  inject_Z (rne x) - x <= 1#2 /\ x - inject_Z (rne x) <= 1#2.
Proof.
  unfold rne. pose proof (Qfloor_le x) as Hl. pose proof (Qlt_floor x) as Hu.
  rewrite inject_Z_plus in Hu. change (inject_Z 1) with 1 in Hu.
  destruct (Qcompare_spec (x - inject_Z (Qfloor x)) (1#2)) as [E|E|E].
  - destruct (Z.even (Qfloor x)); rewrite ?inject_Z_plus;
      change (inject_Z 1) with 1; lra.
  - lra.
  - rewrite inject_Z_plus. change (inject_Z 1) with 1. lra.
Qed.

Lemma rne_Z (z : Z) : rne (inject_Z z) = z.
Proof.
  unfold rne. rewrite Qfloor_Z.
  destruct (Qcompare_spec (inject_Z z - inject_Z z) (1#2)) as [E|E|E]; try lra.
  reflexivity.
Qed.

Lemma rne_comp (x y : Q) : x == y -> rne x = rne y.
Proof.
  intros E. unfold rne.
  rewrite (Qfloor_comp x y E).
  rewrite (Qcompare_comp (x - inject_Z (Qfloor y)) (y - inject_Z (Qfloor y))
             ltac:(rewrite E; reflexivity) (1#2) (1#2) ltac:(reflexivity)).
  reflexivity.
Qed.

Lemma rne_mono (x y : Q) : x <= y -> (rne x <= rne y)%Z.
Proof.
  intros Hxy. pose proof (Qfloor_resp_le x y Hxy) as Hf.
  destruct (Z.eq_dec (Qfloor x) (Qfloor y)) as [E|N].
  - unfold rne. rewrite <- E.
    destruct (Qcompare_spec (x - inject_Z (Qfloor x)) (1#2)) as [Ex|Ex|Ex];
    destruct (Qcompare_spec (y - inject_Z (Qfloor x)) (1#2)) as [Ey|Ey|Ey];
      try destruct (Z.even (Qfloor x)); try lia; lra.
  - assert (Hlt : (Qfloor x + 1 <= Qfloor y)%Z) by lia.
    assert (H1 : (rne x <= Qfloor x + 1)%Z).
    { unfold rne. destruct (Qcompare _ _); try destruct (Z.even _); lia. }
    assert (H2 : (Qfloor y <= rne y)%Z).
    { unfold rne. destruct (Qcompare _ _); try destruct (Z.even _); lia. }
    lia.
Qed.

Lemma pow2_pos (s : Z) : 0 < 2 ^ s.
Proof. apply Qpower_0_lt. reflexivity. Qed.

Lemma pow2_add (a b : Z) : 2 ^ (a + b) == 2 ^ a * 2 ^ b.
Proof. apply Qpower_plus. discriminate. Qed.

Lemma pow2_succ (a : Z) : 2 ^ (a + 1) == 2 * 2 ^ a.
Proof. rewrite pow2_add. change (2 ^ 1) with 2. ring. Qed.

Lemma pow2_pred (a : Z) : 2 * 2 ^ (a - 1) == 2 ^ a.
Proof.
  rewrite <- pow2_succ. replace (a - 1 + 1)%Z with a by ring. reflexivity.
Qed.

Lemma pow2_cancel (a : Z) : 2 ^ a * 2 ^ (- a) == 1.
Proof.
  rewrite <- pow2_add. replace (a + - a)%Z with 0%Z by ring. reflexivity.
Qed.

Lemma pow2_lt (a b : Z) : (a < b)%Z -> 2 ^ a < 2 ^ b.
Proof. intros H. apply Qpower_lt_compat_l; [exact H | reflexivity]. Qed.

Lemma pow2_le (a b : Z) : (a <= b)%Z -> 2 ^ a <= 2 ^ b.
Proof. intros H. apply Qpower_le_compat_l; [exact H | discriminate]. Qed.

Lemma pow2_lt_inv (a b : Z) : 2 ^ a < 2 ^ b -> (a < b)%Z.
Proof. intros H. apply (Qpower_lt_compat_l_inv 2); [exact H | reflexivity]. Qed.

Lemma pow2_Z (a : Z) : (0 <= a)%Z -> inject_Z (2 ^ a) == 2 ^ a.
Proof. intros H. apply (Zpower_Qpower 2 a H). Qed.

Lemma ilog2_spec (x : Q) :
  0 < x -> 2 ^ ilog2 x <= x /\ x < 2 ^ (ilog2 x + 1).
Proof.
  intros Hx. unfold ilog2.
  destruct x as [n d]. cbn [Qnum Qden].
  assert (Hn : (0 < n)%Z).
  { unfold Qlt in Hx. cbn in Hx. lia. }
  set (a := Z.log2 n). set (b := Z.log2 (Zpos d)).
  assert (Ha : (0 <= a)%Z) by apply Z.log2_nonneg.
  assert (Hb : (0 <= b)%Z) by apply Z.log2_nonneg.
  destruct (Z.log2_spec n Hn) as [Ha1 Ha2]. fold a in Ha1, Ha2.
  destruct (Z.log2_spec (Zpos d) eq_refl) as [Hb1 Hb2]. fold b in Hb1, Hb2.
  assert (Qa1 : 2 ^ a <= inject_Z n).
  { rewrite <- pow2_Z by exact Ha. rewrite <- Zle_Qle. exact Ha1. }
  assert (Qa2 : inject_Z n < 2 ^ (a + 1)).
  { rewrite <- pow2_Z by lia. rewrite <- Zlt_Qlt.
    replace (a + 1)%Z with (Z.succ a) by lia. exact Ha2. }
  assert (Qb1 : 2 ^ b <= inject_Z (Zpos d)).
  { rewrite <- pow2_Z by exact Hb. rewrite <- Zle_Qle. exact Hb1. }
  assert (Qb2 : inject_Z (Zpos d) < 2 ^ (b + 1)).
  { rewrite <- pow2_Z by lia. rewrite <- Zlt_Qlt.
    replace (b + 1)%Z with (Z.succ b) by lia. exact Hb2. }
  assert (Hxd : (n # d) * inject_Z (Zpos d) == inject_Z n).
  { rewrite (Qmake_Qdiv n d). field. discriminate. }
  revert Hxd Qa1 Qa2 Qb1 Qb2.
  generalize (n # d). generalize (inject_Z n). generalize (inject_Z (Zpos d)).
  intros D N x Hxd Qa1 Qa2 Qb1 Qb2.
  pose proof (pow2_pos (a - b)) as P0.
  pose proof (pow2_pos b) as Pb.
  assert (E1 : 2 ^ (a - b + 1) * 2 ^ b == 2 ^ (a + 1)).
  { rewrite <- pow2_add. replace (a - b + 1 + b)%Z with (a + 1)%Z by ring.
    reflexivity. }
  assert (E2 : 2 ^ (a - b - 1) * 2 ^ (b + 1) == 2 ^ a).
  { rewrite <- pow2_add. replace (a - b - 1 + (b + 1))%Z with a by ring.
    reflexivity. }
  pose proof (pow2_pos (a - b + 1)) as P1.
  pose proof (pow2_pos (a - b - 1)) as P2.
  pose proof (pow2_pos (b + 1)) as Pb1.
  assert (Hup : x < 2 ^ (a - b + 1)).
  { revert Hxd Qa2 Qb1 E1 P1 Pb.
    generalize (2 ^ (a - b + 1)) (2 ^ b) (2 ^ (a + 1)). intros A B C. intros. nra. }
  assert (Hlo : 2 ^ (a - b - 1) < x).
  { revert Hxd Qa1 Qb2 E2 P2 Pb1 Pb Qb1.
    generalize (2 ^ (a - b - 1)) (2 ^ (b + 1)) (2 ^ a) (2 ^ b). intros A B C B'.
    intros. nra. }
  destruct (Qle_bool (2 ^ (a - b)) x) eqn:E.
  - apply Qle_bool_iff in E. split; [exact E | exact Hup].
  - split; [apply Qlt_le_weak; exact Hlo|].
    replace (a - b - 1 + 1)%Z with (a - b)%Z by ring.
    apply Qnot_le_lt. intros H. apply Qle_bool_iff in H. congruence.
Qed.

Lemma ilog2_unique (x : Q) (e : Z) :
  2 ^ e <= x -> x < 2 ^ (e + 1) -> ilog2 x = e.
Proof.
  intros H1 H2.
  assert (Hx : 0 < x) by (pose proof (pow2_pos e); lra).
  destruct (ilog2_spec x Hx) as [G1 G2].
  assert (A : (e < ilog2 x + 1)%Z) by (apply pow2_lt_inv; lra).
  assert (B : (ilog2 x < e + 1)%Z) by (apply pow2_lt_inv; lra).
  lia.
Qed.

Lemma ilog2_eq (x y : Q) : 0 < x -> x == y -> ilog2 x = ilog2 y.
Proof.
  intros Hx E. destruct (ilog2_spec x Hx) as [G1 G2]. symmetry.
  apply ilog2_unique; rewrite <- E; assumption.
Qed.

Section Precision.
Variable p : Z.
Hypothesis p_pos : (1 <= p)%Z.

(** The scaled value of a positive [x] lies between [2^(p-1)] and [2^p],
    and so does its rounding. *)
Lemma scaled_bounds (x : Q) :
  0 < x ->
  let s := (ilog2 x - (p - 1))%Z in
  2 ^ (p - 1) <= x * 2 ^ (- s) /\ x * 2 ^ (- s) < 2 ^ p.
Proof.
  intros Hx s. destruct (ilog2_spec x Hx) as [G1 G2].
  assert (E1 : 2 ^ ilog2 x * 2 ^ (- s) == 2 ^ (p - 1)).
  { rewrite <- pow2_add. unfold s.
    replace (ilog2 x + - (ilog2 x - (p - 1)))%Z with (p - 1)%Z by ring.
    reflexivity. }
  assert (E2 : 2 ^ (ilog2 x + 1) * 2 ^ (- s) == 2 ^ p).
  { rewrite <- pow2_add. unfold s.
    replace (ilog2 x + 1 + - (ilog2 x - (p - 1)))%Z with p by ring.
    reflexivity. }
  pose proof (pow2_pos (- s)) as P.
  revert G1 G2 E1 E2 P.
  generalize (2 ^ ilog2 x) (2 ^ (ilog2 x + 1)) (2 ^ (- s)) (2 ^ (p - 1)) (2 ^ p).
  intros A B C D E. intros. split; nra.
Qed.

Lemma mantissa_bounds (x : Q) :
  0 < x ->
  let s := (ilog2 x - (p - 1))%Z in
  (2 ^ (p - 1) <= rne (x * 2 ^ (- s)) <= 2 ^ p)%Z.
Proof using p_pos.
  intros Hx s. destruct (scaled_bounds x Hx) as [H1 H2]. fold s in H1, H2.
  split.
  - rewrite <- (rne_Z (2 ^ (p - 1))). apply rne_mono.
    rewrite pow2_Z by lia. exact H1.
  - rewrite <- (rne_Z (2 ^ p)). apply rne_mono.
    rewrite pow2_Z by lia. apply Qlt_le_weak. exact H2.
Qed.

Lemma round_pos_bounds (x : Q) :
  0 < x -> 2 ^ ilog2 x <= round_pos p x /\ round_pos p x <= 2 ^ (ilog2 x + 1).
Proof using p_pos.
  intros Hx. unfold round_pos. set (s := (ilog2 x - (p - 1))%Z).
  destruct (mantissa_bounds x Hx) as [M1 M2]. fold s in M1, M2.
  rewrite Zle_Qle in M1, M2. rewrite pow2_Z in M1, M2 by lia.
  assert (E1 : 2 ^ (p - 1) * 2 ^ s == 2 ^ ilog2 x).
  { rewrite <- pow2_add. unfold s.
    replace (p - 1 + (ilog2 x - (p - 1)))%Z with (ilog2 x) by ring. reflexivity. }
  assert (E2 : 2 ^ p * 2 ^ s == 2 ^ (ilog2 x + 1)).
  { rewrite <- pow2_add. unfold s.
    replace (p + (ilog2 x - (p - 1)))%Z with (ilog2 x + 1)%Z by ring. reflexivity. }
  pose proof (pow2_pos s) as P.
  revert M1 M2 E1 E2 P.
  generalize (inject_Z (rne (x * 2 ^ (- s)))) (2 ^ (p - 1)) (2 ^ p) (2 ^ s)
             (2 ^ ilog2 x) (2 ^ (ilog2 x + 1)).
  intros. split; nra.
Qed.

Lemma round_pos_err (x : Q) :
  0 < x ->
  round_pos p x - x <= 2 ^ (- p) * x /\ x - round_pos p x <= 2 ^ (- p) * x.
Proof.
  intros Hx. unfold round_pos. set (s := (ilog2 x - (p - 1))%Z).
  destruct (rne_bounds (x * 2 ^ (- s))) as [R1 R2].
  destruct (ilog2_spec x Hx) as [G1 _].
  assert (E1 : 2 ^ (- s) * 2 ^ s == 1).
  { rewrite Qmult_comm. apply pow2_cancel. }
  assert (E2 : 2 ^ (- p) * 2 ^ ilog2 x == (1#2) * 2 ^ s).
  { rewrite <- pow2_add.
    replace (- p + ilog2 x)%Z with (s - 1)%Z by (unfold s; ring).
    pose proof (pow2_pred s) as H. lra. }
  pose proof (pow2_pos s) as P. pose proof (pow2_pos (- p)) as Pp.
  revert R1 R2 G1 E1 E2 P Pp.
  generalize (inject_Z (rne (x * 2 ^ (- s)))) (2 ^ (- s)) (2 ^ s) (2 ^ (- p))
             (2 ^ ilog2 x).
  intros m A B C D. intros. split; nra.
Qed.

Lemma round_pos_comp (x y : Q) :
  0 < x -> x == y -> round_pos p x == round_pos p y.
Proof.
  intros Hx E. unfold round_pos. rewrite <- (ilog2_eq x y Hx E).
  set (s := (ilog2 x - (p - 1))%Z).
  rewrite (rne_comp (x * 2 ^ (- s)) (y * 2 ^ (- s))); [reflexivity|].
  rewrite E. reflexivity.
Qed.

Lemma round_pos_mono (x y : Q) :
  0 < x -> x <= y -> round_pos p x <= round_pos p y.
Proof using p_pos.
  intros Hx Hxy. assert (Hy : 0 < y) by lra.
  destruct (ilog2_spec x Hx) as [X1 X2]. destruct (ilog2_spec y Hy) as [Y1 Y2].
  assert (He : (ilog2 x <= ilog2 y)%Z).
  { assert (ilog2 x < ilog2 y + 1)%Z by (apply pow2_lt_inv; lra). lia. }
  destruct (Z.eq_dec (ilog2 x) (ilog2 y)) as [E|N].
  - unfold round_pos. rewrite <- E. set (s := (ilog2 x - (p - 1))%Z).
    pose proof (pow2_pos s) as P. pose proof (pow2_pos (- s)) as P'.
    assert (H : (rne (x * 2 ^ (- s)) <= rne (y * 2 ^ (- s)))%Z).
    { apply rne_mono. nra. }
    rewrite Zle_Qle in H. nra.
  - destruct (round_pos_bounds x Hx) as [_ B1].
    destruct (round_pos_bounds y Hy) as [B2 _].
    assert (H : 2 ^ (ilog2 x + 1) <= 2 ^ ilog2 y) by (apply pow2_le; lia).
    lra.
Qed.

Lemma round_pos_idem (x : Q) :
  0 < x -> round_pos p (round_pos p x) == round_pos p x.
Proof using p_pos.
  intros Hx.
  destruct (round_pos_bounds x Hx) as [B1 B2].
  destruct (mantissa_bounds x Hx) as [M1 M2].
  pose proof (pow2_pos (ilog2 x)) as Pe.
  set (e := ilog2 x) in *. set (s := (e - (p - 1))%Z) in *.
  set (m := rne (x * 2 ^ (- s))) in *.
  assert (Er : round_pos p x == inject_Z m * 2 ^ s) by reflexivity.
  assert (E2 : 2 ^ p * 2 ^ s == 2 ^ (e + 1)).
  { rewrite <- pow2_add. unfold s.
    replace (p + (e - (p - 1)))%Z with (e + 1)%Z by ring. reflexivity. }
  pose proof (pow2_pos s) as Ps.
  destruct (Z.eq_dec m (2 ^ p)%Z) as [Em|Nm].
  - assert (Er' : round_pos p x == 2 ^ (e + 1)).
    { rewrite Er, Em, pow2_Z by lia. exact E2. }
    rewrite (round_pos_comp _ (2 ^ (e + 1))) by (try exact Er'; lra).
    rewrite Er'. unfold round_pos.
    assert (El : ilog2 (2 ^ (e + 1)) = (e + 1)%Z).
    { apply ilog2_unique; [apply Qle_refl | apply pow2_lt; lia]. }
    rewrite El.
    assert (Ey : 2 ^ (e + 1) * 2 ^ (- (e + 1 - (p - 1))) == inject_Z (2 ^ (p - 1))).
    { rewrite <- pow2_add, pow2_Z by lia.
      replace (e + 1 + - (e + 1 - (p - 1)))%Z with (p - 1)%Z by ring. reflexivity. }
    rewrite (rne_comp _ _ Ey), rne_Z, pow2_Z by lia.
    rewrite <- pow2_add. replace (p - 1 + (e + 1 - (p - 1)))%Z with (e + 1)%Z by ring.
    reflexivity.
  - assert (Hm : inject_Z m <= 2 ^ p - 1).
    { assert (H : (m <= 2 ^ p - 1)%Z) by lia. rewrite Zle_Qle in H.
      unfold Z.sub in H. rewrite inject_Z_plus, pow2_Z in H by lia. exact H. }
    assert (Hup : round_pos p x < 2 ^ (e + 1)) by (rewrite Er; nra).
    assert (El : ilog2 (round_pos p x) = e) by (apply ilog2_unique; assumption).
    unfold round_pos at 1. rewrite El. fold s.
    assert (Ey : round_pos p x * 2 ^ (- s) == inject_Z m).
    { rewrite Er, <- Qmult_assoc, pow2_cancel. ring. }
    rewrite (rne_comp _ _ Ey), rne_Z. symmetry. exact Er.
Qed.

End Precision.

(** Rounding of any rational. *)

Section Round.
Variable p : Z.
Hypothesis p_pos : (1 <= p)%Z.

Lemma round_0 : round p 0 == 0.
Proof. reflexivity. Qed.

Lemma round_pos_pos (x : Q) : 0 < x -> 0 < round_pos p x.
Proof using p_pos.
  intros Hx. destruct (round_pos_bounds p p_pos x Hx) as [B _].
  pose proof (pow2_pos (ilog2 x)). lra.
Qed.

Lemma round_of_pos (x : Q) : 0 < x -> round p x = round_pos p x.
Proof.
  intros Hx. unfold round.
  destruct (Qcompare_spec x 0) as [E|E|E]; try lra. reflexivity.
Qed.

Lemma round_of_neg (x : Q) : x < 0 -> round p x = - round_pos p (- x).
Proof.
  intros Hx. unfold round.
  destruct (Qcompare_spec x 0) as [E|E|E]; try lra. reflexivity.
Qed.

Lemma round_of_0 (x : Q) : x == 0 -> round p x = 0.
Proof.
  intros Hx. unfold round.
  destruct (Qcompare_spec x 0) as [E|E|E]; try lra. reflexivity.
Qed.

Lemma round_comp (x y : Q) : x == y -> round p x == round p y.
Proof.
  intros E.
  destruct (Q_dec x 0) as [[Hx|Hx]|Hx].
  - rewrite (round_of_neg x), (round_of_neg y) by lra.
    apply Qopp_comp. apply round_pos_comp; [lra | rewrite E; reflexivity].
  - rewrite (round_of_pos x), (round_of_pos y) by lra.
    apply round_pos_comp; assumption.
  - rewrite (round_of_0 x), (round_of_0 y) by lra. reflexivity.
Qed.

Lemma round_opp (x : Q) : round p (- x) == - round p x.
Proof.
  destruct (Q_dec x 0) as [[Hx|Hx]|Hx].
  - rewrite (round_of_neg x), (round_of_pos (- x)) by lra. ring.
  - rewrite (round_of_pos x), (round_of_neg (- x)) by lra.
    rewrite (round_pos_comp p (- - x) x) by (try lra; ring). reflexivity.
  - rewrite (round_of_0 x), (round_of_0 (- x)) by lra. reflexivity.
Qed.

Lemma round_sign (x : Q) :
  (0 <= x -> 0 <= round p x) /\ (x <= 0 -> round p x <= 0).
Proof using p_pos.
  destruct (Q_dec x 0) as [[Hx|Hx]|Hx].
  - rewrite (round_of_neg x) by lra.
    pose proof (round_pos_pos (- x) ltac:(lra)). split; intros; lra.
  - rewrite (round_of_pos x) by lra.
    pose proof (round_pos_pos x Hx). split; intros; lra.
  - rewrite (round_of_0 x) by lra. split; intros; lra.
Qed.

Lemma round_mono (x y : Q) : x <= y -> round p x <= round p y.
Proof using p_pos.
  intros Hxy.
  destruct (Q_dec x 0) as [[Hx|Hx]|Hx].
  - destruct (Qlt_le_dec y 0) as [Hy|Hy].
    + rewrite (round_of_neg x), (round_of_neg y) by lra.
      pose proof (round_pos_mono p p_pos (- y) (- x) ltac:(lra) ltac:(lra)). lra.
    + pose proof (proj2 (round_sign x) ltac:(lra)).
      pose proof (proj1 (round_sign y) Hy). lra.
  - rewrite (round_of_pos x), (round_of_pos y) by lra.
    apply round_pos_mono; assumption.
  - rewrite (round_of_0 x) by lra. apply round_sign. lra.
Qed.

Lemma round_idem (x : Q) : round p (round p x) == round p x.
Proof using p_pos.
  destruct (Q_dec x 0) as [[Hx|Hx]|Hx].
  - rewrite (round_of_neg x) by lra.
    rewrite round_opp.
    rewrite (round_of_pos (round_pos p (- x))) by (apply round_pos_pos; lra).
    rewrite round_pos_idem by (try exact p_pos; lra). reflexivity.
  - rewrite (round_of_pos x) by lra.
    rewrite (round_of_pos (round_pos p x)) by (apply round_pos_pos; lra).
    apply round_pos_idem; assumption.
  - rewrite (round_of_0 x) by lra. reflexivity.
Qed.

(** The relative error of one rounding is at most [2^-p]. *)
Lemma round_err (x : Q) : Qabs (round p x - x) <= 2 ^ (- p) * Qabs x.
Proof.
  pose proof (pow2_pos (- p)) as P.
  destruct (Q_dec x 0) as [[Hx|Hx]|Hx].
  - rewrite (round_of_neg x) by lra.
    destruct (round_pos_err p (- x) ltac:(lra)) as [E1 E2].
    rewrite (Qabs_neg x) by lra.
    apply Qabs_Qle_condition. split; lra.
  - rewrite (round_of_pos x) by lra.
    destruct (round_pos_err p x Hx) as [E1 E2].
    rewrite (Qabs_pos x) by lra.
    apply Qabs_Qle_condition. split; lra.
  - rewrite (round_of_0 x) by lra.
    apply Qabs_Qle_condition. rewrite (Qabs_pos x) by lra. split; nra.
Qed.

End Round.

End Rounding.

(** ** Rounded arithmetic on [Qc] *)

(** The unit roundoff of a significand of [p] bits. *)
Definition eps (p : Z) : Qc := Q2Qc (2 ^ (- p))%Q.

Lemma this_rnd (p : Z) (x : Qc) : (this (rnd p x) == round p (this x))%Q.
Proof. unfold rnd. cbn. apply Qred_correct. Qed.

Lemma this_eps (p : Z) : (this (eps p) == 2 ^ (- p))%Q.
Proof. unfold eps. cbn. apply Qred_correct. Qed.

Lemma this_plus (x y : Qc) : (this (x + y)%Qc == this x + this y)%Q.
Proof. cbn. apply Qred_correct. Qed.

Lemma this_mult (x y : Qc) : (this (x * y)%Qc == this x * this y)%Q.
Proof. cbn. apply Qred_correct. Qed.

Lemma this_minus (x y : Qc) : (this (x - y)%Qc == this x - this y)%Q.
Proof.
  unfold Qcminus. rewrite this_plus. cbn. rewrite Qred_correct. reflexivity.
Qed.

Lemma rnd_0 (p : Z) : rnd p 0%Qc = 0%Qc.
Proof. apply Qc_is_canon. reflexivity. Qed.

Lemma rnd_mono (p : Z) (x y : Qc) :
  (1 <= p)%Z -> (x <= y)%Qc -> (rnd p x <= rnd p y)%Qc.
Proof.
  intros Hp H. unfold Qcle. rewrite !this_rnd. apply round_mono; assumption.
Qed.

Lemma rnd_idem (p : Z) (x : Qc) : (1 <= p)%Z -> rnd p (rnd p x) = rnd p x.
Proof.
  intros Hp. apply Qc_is_canon. rewrite this_rnd.
  rewrite (round_comp p _ _ (this_rnd p x)), round_idem by exact Hp.
  symmetry. apply this_rnd.
Qed.

Lemma rnd_nonneg (p : Z) (x : Qc) :
  (1 <= p)%Z -> (0 <= x)%Qc -> (0 <= rnd p x)%Qc.
Proof.
  intros Hp H. rewrite <- (rnd_0 p). apply rnd_mono; assumption.
Qed.

Lemma this_opp (x : Qc) : (this (- x)%Qc == - this x)%Q.
Proof. cbn. apply Qred_correct. Qed.

Lemma rnd_opp (p : Z) (x : Qc) : rnd p (- x)%Qc = (- rnd p x)%Qc.
Proof.
  apply Qc_is_canon. rewrite this_rnd.
  rewrite (round_comp p _ _ (this_opp x)), round_opp, this_opp, this_rnd.
  reflexivity.
Qed.

(** One rounding of a value that is not negative moves it by at most its
    [eps]-th part. *)
Lemma rnd_err (p : Z) (x : Qc) :
  (0 <= x)%Qc ->
  ((1 - eps p) * x <= rnd p x)%Qc /\ (rnd p x <= (1 + eps p) * x)%Qc.
Proof.
  intros Hx. unfold Qcle in *.
  rewrite !this_mult, this_minus, this_plus, this_rnd, this_eps.
  change (this 0%Qc) with 0%Q in Hx. change (this 1%Qc) with 1%Q.
  pose proof (round_err p (this x)) as H.
  rewrite (Qabs_pos (this x)) in H by exact Hx.
  apply Qabs_Qle_condition in H. revert H.
  generalize (round p (this x)) (2 ^ (- p))%Q (this x). intros r e t [H1 H2].
  split; lra.
Qed.

(** Adding what is not negative to a float never gives less. *)
Lemma rnd_add_ge (p : Z) (x d : Qc) :
  (1 <= p)%Z -> rnd p x = x -> (0 <= d)%Qc -> (x <= rnd p (x + d))%Qc.
Proof.
  intros Hp Hx Hd. rewrite <- Hx at 1. apply rnd_mono; [exact Hp|].
  unfold Qcle in *. rewrite this_plus. change (this 0%Qc) with 0%Q in Hd. lra.
Qed.

(** ** Audio encoder *)

(** Clipping to unit amplitude, which the specification asks for before
    scaling: [np.clip(x, -1, 1)]. *)
Definition clip_unit (x : Qc) : Qc :=
  if Qclt_le_dec x (of_Z (-1)) then of_Z (-1)
  else if Qclt_le_dec (of_Z 1) x then of_Z 1
  else x.

(** The quantiser of the specification: clip, scale (a [float32]
    product), drop the fraction. *)
Definition quantize_clipped (x : Qc) : Z :=
  int_trunc (R32 (clip_unit x * of_Z 32767)%Qc).

Lemma int_trunc_bounds (y : Qc) (b : Z) :
  (of_Z (- b) <= y)%Qc -> (y <= of_Z b)%Qc ->
  (- b <= int_trunc y <= b)%Z.
Proof.
  unfold Qcle, int_trunc, of_Z. cbn [this Q2Qc]. rewrite !Qred_correct.
  destruct y as [[n d] Hy]. unfold Qle. cbn. intros Hlo Hhi.
  rewrite ?Z.mul_1_r in *.
  assert (Hd : (0 < Z.pos d)%Z) by lia.
  split.
  - rewrite <- (Z.quot_mul (- b) (Z.pos d)) by lia.
    apply Z.quot_le_mono; lia.
  - rewrite <- (Z.quot_mul b (Z.pos d)) by lia.
    apply Z.quot_le_mono; lia.
Qed.

Lemma wrap16_id (z : Z) :
  (-32768 <= z <= 32767)%Z -> Encoder.wrap16 z = z.
Proof.
  intros H. unfold Encoder.wrap16.
  rewrite Z.mod_small by lia. lia.
Qed.

Lemma R32_int16_max : R32 (of_Z 32767) = of_Z 32767 /\ R32 (of_Z (- 32767)) = of_Z (- 32767).
Proof. split; apply Qc_is_canon; vm_compute; reflexivity. Qed.

(** The rounded product of a sample within unit amplitude stays within
    the 16-bit range: rounding is monotone and 32767 is a [float32]. *)
Lemma scaled_unit_bounds (x : Qc) :
  (of_Z (-1) <= x)%Qc -> (x <= of_Z 1)%Qc ->
  (of_Z (- 32767) <= R32 (x * of_Z 32767))%Qc
  /\ (R32 (x * of_Z 32767) <= of_Z 32767)%Qc.
Proof.
  intros Hlo Hhi.
  assert (H0 : (0 <= of_Z 32767)%Qc) by (vm_compute; discriminate).
  destruct R32_int16_max as [Emax Emin].
  split.
  - rewrite <- Emin. apply rnd_mono; [lia|].
    replace (of_Z (- 32767)) with (of_Z (-1) * of_Z 32767)%Qc
      by (apply Qc_is_canon; reflexivity).
    apply Qcmult_le_compat_r; assumption.
  - rewrite <- Emax at 2. apply rnd_mono; [lia|].
    replace (of_Z 32767) with (of_Z 1 * of_Z 32767)%Qc at 2
      by (apply Qc_is_canon; reflexivity).
    apply Qcmult_le_compat_r; assumption.
Qed.

Lemma clip_unit_id (x : Qc) :
  (of_Z (-1) <= x)%Qc -> (x <= of_Z 1)%Qc -> clip_unit x = x.
Proof.
  intros Hlo Hhi. unfold clip_unit.
  destruct (Qclt_le_dec x (of_Z (-1))) as [H|_].
  - exfalso. apply (Qclt_not_le _ _ H Hlo).
  - destruct (Qclt_le_dec (of_Z 1) x) as [H|_]; [|reflexivity].
    exfalso. apply (Qclt_not_le _ _ H Hhi).
Qed.

(** A sample within unit amplitude. *)
Definition unit_amplitude (x : Qc) : Prop :=
  (of_Z (-1) <= x)%Qc /\ (x <= of_Z 1)%Qc.

(** C6, as the code has it.  The encoder scales every sample by 32767, a
    [float32] product, and converts it to 16 bits with no clipping.  For
    samples within unit amplitude the conversion does not wrap: the value
    is the truncated product, lies within [-32767, 32767], and is what
    clipping first would have given. *)
Theorem to_int16_within_unit (audio_data : list Qc) :
  Forall unit_amplitude audio_data ->
  Encoder.to_int16 audio_data
    = List.map (fun x => int_trunc (R32 (x * of_Z 32767)%Qc)) audio_data
  /\ Encoder.to_int16 audio_data = List.map quantize_clipped audio_data
  /\ Forall (fun z => (-32767 <= z <= 32767)%Z) (Encoder.to_int16 audio_data).
Proof.
  induction 1 as [|x audio [Hlo Hhi] _ (IH1 & IH2 & IH3)]; cbn.
  - repeat split; constructor.
  - destruct (scaled_unit_bounds x Hlo Hhi) as [Hl Hh].
    pose proof (int_trunc_bounds _ 32767 Hl Hh) as Hb.
    assert (E : Encoder.astype_int16 (R32 (x * of_Z 32767)%Qc)
                = int_trunc (R32 (x * of_Z 32767)%Qc)).
    { unfold Encoder.astype_int16. cbv zeta.
      replace (-2147483648 <=? int_trunc (R32 (x * of_Z 32767)))%Z with true
        by (symmetry; apply Z.leb_le; lia).
      replace (int_trunc (R32 (x * of_Z 32767)) <? 2147483648)%Z with true
        by (symmetry; apply Z.ltb_lt; lia).
      apply wrap16_id. lia. }
    unfold Encoder.to_int16 in *. rewrite E.
    repeat split.
    + f_equal. exact IH1.
    + unfold quantize_clipped at 1. rewrite clip_unit_id by assumption.
      f_equal. exact IH2.
    + constructor; [lia | exact IH3].
Qed.

(** At full scale, and at the [float32] nearest to 0.897, whose product
    with 32767 rounds up to 29392. *)
Lemma to_int16_within_unit_witness :
  Forall unit_amplitude [of_Z 1; R32 (of_Z 897 / of_Z 1000)%Qc]
  /\ Encoder.to_int16 [of_Z 1; R32 (of_Z 897 / of_Z 1000)%Qc]
     = [32767; 29392]%Z.
Proof.
  assert (H : Forall unit_amplitude [of_Z 1; R32 (of_Z 897 / of_Z 1000)%Qc]).
  { repeat constructor; vm_compute; discriminate. }
  split; [exact H|].
  rewrite (proj1 (to_int16_within_unit _ H)). vm_compute. reflexivity.
Defined.

(** C6, as stated, fails: the sample 2 is not clipped; its product 65534
    is narrowed to 16 bits and comes out as -2, where clipping first gives
    32767. *)
Lemma to_int16_wraps_beyond_unit :
  Encoder.to_int16 [of_Z 2] = [(-2)%Z]
  /\ quantize_clipped (of_Z 2) = 32767%Z.
Proof.
  split; vm_compute; reflexivity.
Qed.

(** Beyond 32 bits the conversion gives 0: the sample 100000. *)
Lemma to_int16_beyond_32_bits :
  Encoder.to_int16 [of_Z 100000] = [0%Z].
Proof. vm_compute. reflexivity. Qed.

(** ** Rational arithmetic *)

Lemma of_nat_add (a b : nat) : of_nat (a + b) = (of_nat a + of_nat b)%Qc.
Proof.
  apply Qc_is_canon. unfold of_nat. cbn [this Q2Qc Qcplus].
  rewrite !Qred_correct, Nat2Z.inj_add, inject_Z_plus. reflexivity.
Qed.

Lemma of_nat_S (n : nat) : of_nat (S n) = (of_nat n + 1)%Qc.
Proof.
  replace (S n) with (n + 1) by lia. rewrite of_nat_add.
  f_equal.
Qed.

Lemma of_nat_nonneg (n : nat) : (0 <= of_nat n)%Qc.
Proof.
  unfold Qcle, of_nat. cbn [this Q2Qc]. rewrite !Qred_correct.
  unfold Qle. cbn. lia.
Qed.

Lemma of_nat_nonzero (n : nat) : 0 < n -> of_nat n <> 0%Qc.
Proof.
  intros Hn E. apply (f_equal this) in E. unfold of_nat in E.
  cbn [this Q2Qc] in E.
  assert (H : (inject_Z (Z.of_nat n) == 0)%Q).
  { rewrite <- (Qred_correct (inject_Z (Z.of_nat n))), E. reflexivity. }
  unfold Qeq in H. cbn in H. lia.
Qed.

Lemma Qc_div_nonneg (a b : Qc) : (0 <= a)%Qc -> (0 <= b)%Qc -> (0 <= a / b)%Qc.
Proof.
  intros Ha Hb. destruct (Qc_eq_dec b 0%Qc) as [->|Hb0].
  - unfold Qcdiv. replace (/ 0)%Qc with 0%Qc by (apply Qc_is_canon; reflexivity).
    rewrite Qcmult_0_r. apply Qcle_refl.
  - assert (Hpos : (0 < b)%Qc).
    { destruct (Qcle_lt_or_eq _ _ Hb) as [H|H]; [exact H | congruence]. }
    unfold Qcdiv.
    assert (Hinv : (0 < / b)%Qc).
    { unfold Qclt in *. cbn [this Qcinv Q2Qc].
      rewrite (Qred_correct (/ this b)).
      apply Qinv_lt_0_compat. exact Hpos. }
    replace 0%Qc with (0 * / b)%Qc by ring.
    apply Qcmult_le_compat_r; [exact Ha | apply Qclt_le_weak, Hinv].
Qed.

(** ** Matches of a repeated character class *)

Definition accept : cont := fun p s c => Some (p, s, c).

Lemma star_loop_accept_some
    (body : option char -> str -> captures -> cont -> option mstate)
    (fuel : nat) (prev : option char) (s : str) (caps : captures) :
  exists r, star_loop body fuel prev s caps accept = Some r.
Proof.
  destruct fuel as [|f]; cbn [star_loop].
  - unfold accept. eauto.
  - match goal with |- context [match ?x with _ => _ end] => destruct x end;
      unfold accept; eauto.
Qed.

Ltac inv_accept :=
  unfold accept;
  let E := fresh "E" in intros E; inversion E; subst; clear E.

Lemma star_loop_cat_length (U : unicode_tables) (k : category) (fuel : nat)
    (prev : option char) (s : str) (caps : captures)
    (p' : option char) (rest : str) (c' : captures) :
  star_loop (rmatch U (Cat k)) fuel prev s caps accept = Some (p', rest, c') ->
  length rest <= length s.
Proof.
  revert prev s caps p' rest c'.
  induction fuel as [|f IH]; intros prev s caps p' rest c'; cbn [star_loop].
  - inv_accept. lia.
  - change (rmatch U (Cat k) prev s caps)
      with (one_char (cat_match U k) s caps).
    destruct s as [|x s']; cbn [one_char]; [inv_accept; lia|].
    destruct (cat_match U k x); [|inv_accept; lia].
    cbn [length]. replace (length s' <? S (length s')) with true
      by (symmetry; apply Nat.ltb_lt; lia).
    destruct (star_loop (rmatch U (Cat k)) f (Some x) s' caps accept)
      as [[[q r] c]|] eqn:E.
    + intros E0; inversion E0; subst. apply IH in E. lia.
    + inv_accept. cbn [length]. lia.
Qed.

Lemma match_here_plus_cat_eq (U : unicode_tables) (k : category)
    (prev : option char) (s : str) :
  match_here U (Plus (Cat k)) prev s
  = match s with
    | [] => None
    | x :: s' =>
        if cat_match U k x
        then match star_loop (rmatch U (Cat k)) (S (length s')) (Some x) s' []
                     accept with
             | Some (_, r, c) => Some (r, c)
             | None => None
             end
        else None
    end.
Proof.
  destruct s as [|x s']; [reflexivity|].
  unfold match_here. cbn [rmatch one_char].
  destruct (cat_match U k x); reflexivity.
Qed.

(** A match of [k+] at a position consumes at least one character. *)
Lemma match_here_plus_cat_shorter (U : unicode_tables) (k : category)
    (prev : option char) (s rest : str) (caps : captures) :
  match_here U (Plus (Cat k)) prev s = Some (rest, caps) ->
  length rest < length s.
Proof.
  rewrite match_here_plus_cat_eq.
  destruct s as [|x s']; [discriminate|].
  destruct (cat_match U k x); [|discriminate].
  destruct (star_loop (rmatch U (Cat k)) (S (length s')) (Some x) s' [] accept)
    as [[[q r] c]|] eqn:E; [|discriminate].
  intros E0; inversion E0; subst. apply star_loop_cat_length in E.
  cbn [length]. lia.
Qed.

(** [k+] matches wherever the next character is in the class. *)
Lemma match_here_plus_cat_some (U : unicode_tables) (k : category)
    (prev : option char) (x : char) (s : str) :
  cat_match U k x = true ->
  exists r, match_here U (Plus (Cat k)) prev (x :: s) = Some r.
Proof.
  intros Hx. rewrite match_here_plus_cat_eq, Hx.
  destruct (star_loop_accept_some (rmatch U (Cat k)) (S (length s)) (Some x) s [])
    as [[[q r] c] ->].
  eauto.
Qed.

Lemma match_here_plus_cat_none (U : unicode_tables) (k : category)
    (prev : option char) (x : char) (s : str) :
  cat_match U k x = false ->
  match_here U (Plus (Cat k)) prev (x :: s) = None.
Proof.
  intros Hx. rewrite match_here_plus_cat_eq, Hx. reflexivity.
Qed.

(** Every token [re.findall] returns for [k+] is non-empty. *)
Lemma findall_plus_cat_nonempty (U : unicode_tables) (k : category) (s : str) :
  forall (prev : option char) (skip : nat),
    Forall (fun w => w <> []) (findall_from U (Plus (Cat k)) prev s skip).
Proof.
  induction s as [|x s IH]; intros prev skip.
  - destruct skip; cbn; [|constructor].
    destruct (match_here U (Plus (Cat k)) prev []) as [[rest caps]|] eqn:E;
      [|constructor].
    apply match_here_plus_cat_shorter in E. cbn in E. lia.
  - destruct skip as [|n]; cbn [findall_from]; [|apply IH].
    destruct (match_here U (Plus (Cat k)) prev (x :: s)) as [[rest caps]|] eqn:E;
      [|apply IH].
    constructor; [|apply IH].
    apply match_here_plus_cat_shorter in E. unfold consumed.
    destruct (length (x :: s) - length rest) eqn:El; [lia|]. cbn. discriminate.
Qed.

(** A text with a character of the class has a token. *)
Lemma findall_plus_cat_finds (U : unicode_tables) (k : category) (s : str) :
  (exists c, In c s /\ cat_match U k c = true) ->
  forall prev, findall_from U (Plus (Cat k)) prev s 0 <> [].
Proof.
  induction s as [|x s IH]; intros (c & Hin & Hc) prev; [destruct Hin|].
  cbn [findall_from].
  destruct (cat_match U k x) eqn:Hx.
  - destruct (match_here_plus_cat_some U k prev x s Hx) as [[rest caps] ->].
    discriminate.
  - rewrite (match_here_plus_cat_none U k prev x s Hx).
    apply IH. destruct Hin as [->|Hin]; [congruence|]. eauto.
Qed.


(** ** From [Qc] to [Q] *)

Lemma this_of_Z (z : Z) : (this (of_Z z) == inject_Z z)%Q.
Proof. unfold of_Z. cbn. apply Qred_correct. Qed.

Lemma this_of_nat (n : nat) : (this (of_nat n) == inject_Z (Z.of_nat n))%Q.
Proof. unfold of_nat. cbn. apply Qred_correct. Qed.

Lemma this_div (x y : Qc) : (this (x / y)%Qc == this x / this y)%Q.
Proof.
  unfold Qcdiv. rewrite this_mult. cbn [this Qcinv Q2Qc].
  rewrite (Qred_correct (/ this y)). reflexivity.
Qed.

Lemma of_nat_pos (n : nat) : 0 < n -> (1 <= this (of_nat n))%Q.
Proof.
  intros H. rewrite this_of_nat. change 1%Q with (inject_Z 1).
  rewrite <- Zle_Qle. lia.
Qed.

(** [int] of a float that is not negative is its floor. *)
Lemma int_trunc_floor (x : Qc) : (0 <= x)%Qc -> int_trunc x = Qfloor (this x).
Proof.
  unfold Qcle, int_trunc. change (this 0%Qc) with 0%Q.
  destruct x as [[n d] Hx]. cbn [this Qnum Qden Qfloor].
  intros H. unfold Qle in H. cbn in H.
  assert (Hn : (0 <= n)%Z) by lia.
  apply Z.quot_div_nonneg; [exact Hn | reflexivity].
Qed.

Lemma int_trunc_mono (x y : Qc) :
  (0 <= x)%Qc -> (x <= y)%Qc -> (int_trunc x <= int_trunc y)%Z.
Proof.
  intros Hx Hxy. rewrite !int_trunc_floor.
  - apply Qfloor_resp_le. exact Hxy.
  - eapply Qcle_trans; eassumption.
  - exact Hx.
Qed.

Lemma int_trunc_of_Z (z : Z) : int_trunc (of_Z z) = z.
Proof.
  unfold int_trunc, of_Z. cbn [this Q2Qc].
  assert (H : Qred (inject_Z z) = inject_Z z).
  { unfold inject_Z. unfold Qred.
    pose proof (Z.ggcd_gcd z 1) as G. pose proof (Z.ggcd_correct_divisors z 1) as D.
    destruct (Z.ggcd z 1) as [g [aa bb]]. cbn in G, D.
    rewrite Z.gcd_1_r in G. subst g. destruct D as [D1 D2].
    rewrite Z.mul_1_l in D1, D2. subst. reflexivity. }
  rewrite H. cbn. apply Z.quot_1_r.
Qed.

(** Truncation takes less than one off a value that is not negative. *)
Lemma int_trunc_close (x : Qc) :
  (0 <= x)%Qc ->
  (of_Z (int_trunc x) <= x)%Qc /\ (x < of_Z (int_trunc x) + 1)%Qc.
Proof.
  intros Hx. rewrite (int_trunc_floor x Hx). unfold Qcle, Qclt.
  rewrite this_plus, this_of_Z. change (this 1%Qc) with 1%Q.
  pose proof (Qfloor_le (this x)) as H1. pose proof (Qlt_floor (this x)) as H2.
  rewrite inject_Z_plus in H2. change (inject_Z 1) with 1%Q in H2.
  split; lra.
Qed.

(** ** The backend's audio *)

(** [0.08], and the samples of one mocked character: [int(44100 * 0.08)]
    as floats compute it. *)
Definition mock_seconds_per_char : Qc := R64 (of_Z 2 / of_Z 25)%Qc.

Lemma mock_char_samples :
  (of_Z 1 <= fmul (of_Z Encoder.target_sample_rate) mock_seconds_per_char)%Qc.
Proof. vm_compute. discriminate. Qed.

(** The mock's sample count for a text that is not empty is positive. *)
Lemma mock_samples_pos (n : nat) :
  0 < n ->
  (1 <= int_trunc (fmul (of_Z Encoder.target_sample_rate)
                        (fmul (of_nat n) mock_seconds_per_char)))%Z.
Proof.
  intros Hn.
  set (c := mock_seconds_per_char).
  assert (Hc0 : (0 <= c)%Qc) by (vm_compute; discriminate).
  assert (Hcc : R64 c = c) by (apply rnd_idem; lia).
  assert (Hd : (c <= fmul (of_nat n) c)%Qc).
  { rewrite <- Hcc at 1. apply rnd_mono; [lia|].
    pose proof (of_nat_pos n Hn) as H1. unfold Qcle in *.
    rewrite this_mult. change (this 0%Qc) with 0%Q in Hc0. nra. }
  assert (Hk : (fmul (of_Z Encoder.target_sample_rate) c
                <= fmul (of_Z Encoder.target_sample_rate) (fmul (of_nat n) c))%Qc).
  { apply rnd_mono; [lia|].
    assert (Hr : (0 <= of_Z Encoder.target_sample_rate)%Qc)
      by (vm_compute; discriminate).
    unfold Qcle in *. rewrite !this_mult.
    change (this 0%Qc) with 0%Q in Hr. nra. }
  rewrite <- (int_trunc_of_Z 1). apply int_trunc_mono.
  - vm_compute. discriminate.
  - eapply Qcle_trans; [apply mock_char_samples | exact Hk].
Qed.

(** So the mock always has audio: [None] only for the empty text. *)
Lemma mock_audio_nonempty (U : unicode_tables)
    (mock_sample : Qc -> nat -> nat -> Qc) (text : str) :
  text <> [] ->
  exists audio timings,
    Engine._generate_mock_audio_with_timings U mock_sample text
    = Some (audio, timings)
    /\ audio <> [].
Proof.
  intros Hne. unfold Engine._generate_mock_audio_with_timings.
  assert (Hlen : 0 < length text) by (destruct text; [congruence | cbn; lia]).
  pose proof (mock_samples_pos (length text) Hlen) as Hs.
  fold mock_seconds_per_char.
  destruct (length text) as [|n] eqn:E; [lia|]. rewrite <- E in *.
  eexists _, _. split; [reflexivity|].
  destruct (Z.to_nat _) as [|k] eqn:Ek; [lia|]. discriminate.
Qed.

(** The backend gives usable output for a text: the pipeline, or the mock
    that stands in for it, returns at least one sample. *)
Definition yields_audio (U : unicode_tables)
    (mock_sample : Qc -> nat -> nat -> Qc) (self : TTSEngine) (text : str)
    : Prop :=
  exists audio timings,
    Engine._generate_audio_with_phoneme_timings U mock_sample self text
    = Some (audio, timings)
    /\ audio <> [].

(** The pipeline ran and gave chunks. *)
Definition pipeline_chunks (self : TTSEngine) (text : str)
    : option (list chunk) :=
  match pipeline self with
  | KPipeline run => run text
  | _ => None
  end.

(** Without chunks of a pipeline it is the mock that answers: in mock
    mode, without a pipeline, and when the pipeline raises. *)
Lemma mock_stands_in (U : unicode_tables)
    (mock_sample : Qc -> nat -> nat -> Qc) (self : TTSEngine) (text : str) :
  pipeline_chunks self text = None ->
  Engine._generate_audio_with_phoneme_timings U mock_sample self text
  = Engine._generate_mock_audio_with_timings U mock_sample text.
Proof.
  unfold pipeline_chunks, Engine._generate_audio_with_phoneme_timings.
  destruct (pipeline self) as [| |run]; try reflexivity.
  intros ->. reflexivity.
Qed.

Lemma mock_yields_audio (U : unicode_tables)
    (mock_sample : Qc -> nat -> nat -> Qc) (self : TTSEngine) (text : str) :
  pipeline_chunks self text = None -> text <> [] ->
  yields_audio U mock_sample self text.
Proof.
  intros Hp Hne. unfold yields_audio. rewrite (mock_stands_in _ _ _ _ Hp).
  apply mock_audio_nonempty, Hne.
Qed.

(** The audio of the chunks a pipeline gave. *)
Lemma chunk_loop_audio (chunks : list chunk) :
  forall cur, fst (Engine.chunk_loop cur chunks) = List.map audio chunks.
Proof.
  induction chunks as [|c chunks IH]; intros cur; cbn [Engine.chunk_loop List.map].
  - reflexivity.
  - specialize (IH (fadd cur
                      (fmul (fdiv (of_nat (length (audio c)))
                                  (of_Z Encoder.kokoro_sample_rate)) (of_Z 1000)))).
    destruct (Engine.chunk_loop _ chunks) as [a t]. cbn [fst] in *.
    rewrite IH. reflexivity.
Qed.

Lemma pipeline_audio (U : unicode_tables)
    (mock_sample : Qc -> nat -> nat -> Qc) (self : TTSEngine) (text : str)
    (chunks : list chunk) :
  pipeline_chunks self text = Some chunks ->
  exists timings,
    Engine._generate_audio_with_phoneme_timings U mock_sample self text
    = Some (List.concat (List.map audio chunks), timings).
Proof.
  unfold pipeline_chunks, Engine._generate_audio_with_phoneme_timings.
  destruct (pipeline self) as [| |run]; try discriminate.
  intros ->. pose proof (chunk_loop_audio chunks (of_Z 0)) as H.
  destruct (Engine.chunk_loop (of_Z 0) chunks) as [a t]. cbn [fst] in H.
  subst a. eauto.
Qed.

(** The encoder raises exactly on empty audio. *)
Lemma audio_to_base64_none (resample : list Qc -> nat -> list Qc)
    (audio_data : list Qc) :
  Encoder._audio_to_base64 resample audio_data = None <-> audio_data = [].
Proof.
  unfold Encoder._audio_to_base64, Encoder.signal_resample.
  change (Z.eqb Encoder.kokoro_sample_rate Encoder.target_sample_rate) with false.
  cbv iota zeta.
  destruct audio_data; split; try discriminate; try reflexivity; congruence.
Qed.

(** ** Synthesis passes *)

(** Without a result [process_text_buffer] takes neither arm of
    [if result:] and no [except]: nothing is sent, the buffer stays, and
    the world is as it was. *)
Lemma silent_when_no_result
    (U : unicode_tables) (resample : list Qc -> nat -> list Qc)
    (mock_sample : Qc -> nat -> nat -> Qc) (tts_engine : TTSEngine)
    (session_id : str) (w : world) :
  Engine.is_blank U (Registry.get_text_buffer session_id (cm w)) = false ->
  Engine.generate_audio_with_alignment U resample mock_sample tts_engine
    (Registry.get_text_buffer session_id (cm w)) = None ->
  Handler.process_text_buffer U resample mock_sample tts_engine session_id w
  = (Ok tt, w).
Proof.
  intros Hblank Hnone.
  unfold Handler.process_text_buffer, try_except, bind, gets. cbn.
  rewrite Hblank, Hnone. reflexivity.
Qed.

(** C1.  A backend call that returns no usable output: the engine is
    ready, the buffer is not blank and neither is its normalised text, and
    the pipeline comes back with chunks that hold no sample.  Then the
    encoder's resampling raises inside [generate_audio_with_alignment],
    whose [except] arm turns that into [None], and [process_text_buffer]
    does nothing: no message is sent, the buffer stays, the world is as it
    was.  The specification asks for one error message there. *)
Theorem process_text_buffer_silent_on_None
    (U : unicode_tables) (resample : list Qc -> nat -> list Qc)
    (mock_sample : Qc -> nat -> nat -> Qc) (tts_engine : TTSEngine)
    (session_id : str) (w : world) (chunks : list chunk) :
  let buffer := Registry.get_text_buffer session_id (cm w) in
  ready tts_engine = true ->
  Engine.is_blank U buffer = false ->
  Engine.is_blank U (_clean_text U buffer) = false ->
  pipeline_chunks tts_engine (_clean_text U buffer) = Some chunks ->
  List.concat (List.map audio chunks) = [] ->
  Engine.generate_audio_with_alignment U resample mock_sample tts_engine buffer
  = None
  /\ Handler.process_text_buffer U resample mock_sample tts_engine session_id w
     = (Ok tt, w).
Proof.
  intros buffer Hready Hblank Hclean Hchunks Hempty.
  assert (Hnone : Engine.generate_audio_with_alignment U resample mock_sample
                    tts_engine buffer = None).
  { unfold Engine.generate_audio_with_alignment.
    rewrite Hready. cbn [negb]. rewrite Hclean.
    destruct (pipeline_audio U mock_sample tts_engine _ chunks Hchunks)
      as [timings ->].
    rewrite Hempty.
    rewrite (proj2 (audio_to_base64_none resample []) eq_refl). reflexivity. }
  split; [exact Hnone|].
  apply silent_when_no_result; assumption.
Qed.

(** A world in which session ["s1"] has buffered [text]. *)
Definition world_with_buffer (text : str) : world :=
  {| cm := Registry.add_text_chunk (u "s1") text
             (Registry.connect (of_Z 0) 1 (u "s1") Registry.init);
     sent := [];
     link_up := true |}.

Definition ready_mock_engine : TTSEngine :=
  {| pipeline := MockPipeline; ready := true |}.

(** An engine whose pipeline yields nothing. *)
Definition silent_engine : TTSEngine :=
  {| pipeline := KPipeline (fun _ => Some []); ready := true |}.

Lemma process_text_buffer_silent_on_None_witness :
  let w := world_with_buffer (u "Hi.") in
  let resample := fun (x : list Qc) (_ : nat) => x in
  let mock_sample := fun (_ : Qc) (_ _ : nat) => of_Z 0 in
  Registry.get_text_buffer (u "s1") (cm w) = u "Hi."
  /\ _clean_text ascii_tables (u "Hi.") = u "Hi."
  /\ Handler.process_text_buffer ascii_tables resample mock_sample
       silent_engine (u "s1") w = (Ok tt, w)
  /\ sent w = [].
Proof.
  cbv zeta.
  assert (Hbuf : Registry.get_text_buffer (u "s1")
                   (cm (world_with_buffer (u "Hi."))) = u "Hi.")
    by (vm_compute; reflexivity).
  assert (Hclean : _clean_text ascii_tables (u "Hi.") = u "Hi.")
    by (vm_compute; reflexivity).
  split; [exact Hbuf|]. split; [exact Hclean|]. split; [|reflexivity].
  apply (process_text_buffer_silent_on_None ascii_tables (fun x _ => x)
           (fun _ _ _ => of_Z 0) silent_engine (u "s1")
           (world_with_buffer (u "Hi.")) []).
  - reflexivity.
  - rewrite Hbuf. reflexivity.
  - rewrite Hbuf, Hclean. reflexivity.
  - reflexivity.
  - reflexivity.
Defined.

Lemma is_blank_nil (U : unicode_tables) : Engine.is_blank U [] = true.
Proof. reflexivity. Qed.

(** The audio step returns for every non-empty text, from the pipeline or
    from the mock it falls back to. *)
Lemma audio_step_returns (U : unicode_tables) (mock_sample : Qc -> nat -> nat -> Qc)
    (self : TTSEngine) (text : str) :
  text <> [] ->
  exists r, Engine._generate_audio_with_phoneme_timings U mock_sample self text
            = Some r.
Proof.
  intros Hne.
  assert (Hmock : exists r,
             Engine._generate_mock_audio_with_timings U mock_sample text = Some r).
  { unfold Engine._generate_mock_audio_with_timings.
    destruct text as [|c text]; [congruence|]. cbn [length]. eauto. }
  unfold Engine._generate_audio_with_phoneme_timings.
  destruct (pipeline self) as [| |run]; try exact Hmock.
  destruct (run text) as [chunks|]; [|exact Hmock].
  destruct (Engine.chunk_loop (of_Z 0) chunks) as [a t]. eauto.
Qed.

(** The engine speaks: ready, with a normalised text that is not blank
    and audio from the backend, it returns a result. *)
Lemma engine_speaks (U : unicode_tables) (resample : list Qc -> nat -> list Qc)
    (mock_sample : Qc -> nat -> nat -> Qc) (self : TTSEngine) (text : str) :
  ready self = true ->
  Engine.is_blank U (_clean_text U text) = false ->
  yields_audio U mock_sample self (_clean_text U text) ->
  exists result,
    Engine.generate_audio_with_alignment U resample mock_sample self text
    = Some result
    /\ r_processed_text result = _clean_text U text
    /\ r_original_text result = text
    /\ r_full_text result = _clean_text U text.
Proof.
  intros Hready Hclean (a & t & Ha & Hne).
  unfold Engine.generate_audio_with_alignment.
  rewrite Hready. cbn [negb]. rewrite Hclean, Ha.
  destruct (Encoder._audio_to_base64 resample a) as [b64|] eqn:E.
  - eexists. split; [reflexivity|]. repeat split.
  - apply audio_to_base64_none in E. contradiction.
Qed.

(** A synthesis pass that goes through: with the engine ready, a buffer
    whose normalised text is not blank, audio from the backend and a link
    that is up, exactly one result is sent, carrying the normalised buffer
    as [processed_text] and the session's transcript as [full_text]; then
    the buffer is cleared. *)
Lemma process_text_buffer_sends_result
    (U : unicode_tables) (resample : list Qc -> nat -> list Qc)
    (mock_sample : Qc -> nat -> nat -> Qc) (tts_engine : TTSEngine)
    (session_id : str) (w : world) (d : session) :
  ready tts_engine = true ->
  link_up w = true ->
  session_data (cm w) !! session_id = Some d ->
  Engine.is_blank U (text_buffer d) = false ->
  Engine.is_blank U (_clean_text U (text_buffer d)) = false ->
  yields_audio U mock_sample tts_engine (_clean_text U (text_buffer d)) ->
  exists result,
    r_processed_text result = _clean_text U (text_buffer d)
    /\ r_original_text result = text_buffer d
    /\ r_full_text result = full_text d
    /\ Handler.process_text_buffer U resample mock_sample tts_engine session_id w
       = (Ok tt,
          {| cm := Registry.clear_text_buffer session_id (cm w);
             sent := sent w ++ [OutResult result (_clean_text U (text_buffer d))];
             link_up := true |}).
Proof.
  intros Hready Hlink Hd Hbuf Hclean Haudio.
  destruct (engine_speaks U resample mock_sample tts_engine (text_buffer d)
              Hready Hclean Haudio) as (r & Hr & Hp & Ho & _).
  unfold Handler.process_text_buffer, try_except, bind, gets, send_text, update_cm.
  unfold Registry.get_text_buffer. rewrite Hd, Hbuf, Hr.
  cbn [cm sent link_up]. rewrite Hd, Hlink.
  exists (Handler.set_full_text r (full_text d)).
  cbn [Handler.set_full_text r_processed_text r_original_text r_full_text].
  rewrite Hp. repeat split; assumption.
Qed.

(** The frame [{"text": t}]. *)
Definition text_frame (t : str) : event :=
  Recv (FObject {[ u "text" := JStr t ]}).

(** The frame [{"flush": true}]. *)
Definition flush_frame : event :=
  Recv (FObject {[ u "flush" := JBool true ]}).

Lemma loop_round_init (U : unicode_tables) (resample : list Qc -> nat -> list Qc)
    (mock_sample : Qc -> nat -> nat -> Qc) (tts_engine : TTSEngine)
    (session_id : str) (w : world) :
  Handler.loop_round U resample mock_sample tts_engine session_id
    (text_frame (u " ")) w
  = (Ok Continue,
     {| cm := Registry.initialize_session session_id (cm w);
        sent := sent w; link_up := link_up w |}).
Proof.
  unfold Handler.loop_round, try_except, text_frame, Handler.loop_body,
    Handler.dispatch.
  rewrite lookup_singleton_eq. reflexivity.
Qed.

(** A round with a text chunk that is neither the init marker nor empty. *)
Lemma loop_round_chunk (U : unicode_tables) (resample : list Qc -> nat -> list Qc)
    (mock_sample : Qc -> nat -> nat -> Qc) (tts_engine : TTSEngine)
    (session_id : str) (text : str) (w w2 : world) :
  str_eqb text (u " ") = false ->
  str_eqb text [] = false ->
  let w1 := {| cm := Registry.add_text_chunk session_id text (cm w);
               sent := sent w; link_up := link_up w |} in
  Segmentation.should_process_text U (cm w1) session_id = true ->
  Handler.process_text_buffer U resample mock_sample tts_engine session_id w1
    = (Ok tt, w2) ->
  Handler.loop_round U resample mock_sample tts_engine session_id
    (text_frame text) w
  = (Ok Continue, w2).
Proof.
  intros Hmark Hempty w1 Hgo Hpass.
  unfold Handler.loop_round, try_except, text_frame, Handler.loop_body,
    Handler.dispatch.
  rewrite lookup_singleton_eq, Hmark, Hempty.
  unfold bind, update_cm, gets. fold w1. cbn [cm]. rewrite Hgo, Hpass.
  reflexivity.
Qed.

(** C9.  On a fresh connection, with the engine ready, a backend that
    gives audio for the text (the mock always does) and the link up, the
    frames [{"text": " "}] and [{"text": "Hello Dr. Smith."}] make the
    handler send exactly one message, a result whose [processed_text] and
    [full_text] are both ["Hello Dr. Smith."]; afterwards the loop waits
    for the next frame, the session's buffer is empty and its transcript
    still holds the text. *)
Theorem hello_dr_smith_one_result
    (U : unicode_tables) (resample : list Qc -> nat -> list Qc)
    (mock_sample : Qc -> nat -> nat -> Qc) (tts_engine : TTSEngine)
    (now : Qc) (ws : websocket) (session_id : str) (cm0 : ConnectionManager) :
  ready tts_engine = true ->
  yields_audio U mock_sample tts_engine (u "Hello Dr. Smith.") ->
  exists (result : tts_result) (w' : world),
    Handler.websocket_endpoint U resample mock_sample tts_engine now ws session_id
      [text_frame (u " "); text_frame (u "Hello Dr. Smith.")]
      {| cm := cm0; sent := []; link_up := true |}
    = (Ok Continue, w')
    /\ sent w' = [OutResult result (u "Hello Dr. Smith.")]
    /\ r_processed_text result = u "Hello Dr. Smith."
    /\ r_full_text result = u "Hello Dr. Smith."
    /\ session_data (cm w') !! session_id
       = Some {| text_buffer := []; full_text := u "Hello Dr. Smith.";
                 is_active := true; created_at := now |}.
Proof.
  intros Hready Haudio.
  set (hello := u "Hello Dr. Smith.") in *.
  set (w1 := {| cm := Registry.initialize_session session_id
                        (Registry.connect now ws session_id cm0);
                sent := []; link_up := true |}).
  set (w2 := {| cm := Registry.add_text_chunk session_id hello (cm w1);
                sent := []; link_up := true |}).
  set (d := {| text_buffer := hello; full_text := hello; is_active := true;
               created_at := now |}).
  assert (Hd : session_data (cm w2) !! session_id = Some d).
  { unfold w2, w1, Registry.add_text_chunk, Registry.initialize_session,
      Registry.connect. cbn [cm session_data].
    rewrite lookup_insert_eq. cbn [cm session_data created_at].
    rewrite lookup_insert_eq. cbn.
    rewrite lookup_insert_eq. reflexivity. }
  assert (Hclean : _clean_text U hello = hello) by (vm_compute; reflexivity).
  destruct (process_text_buffer_sends_result U resample mock_sample tts_engine
              session_id w2 d Hready eq_refl Hd)
    as (result & Hproc & _ & Hfull & Hpass).
  { vm_compute. reflexivity. }
  { cbn [text_buffer d]. rewrite Hclean. vm_compute. reflexivity. }
  { cbn [text_buffer d]. rewrite Hclean. exact Haudio. }
  cbn [text_buffer full_text d] in Hproc, Hfull, Hpass.
  rewrite Hclean in Hproc, Hpass.
  eexists result, _. split; [|split; [|split; [|split]]].
  - unfold Handler.websocket_endpoint, bind at 1, update_cm at 1.
    cbn [cm sent link_up]. unfold bind at 1.
    cbn [Handler.message_loop]. unfold bind at 1.
    rewrite loop_round_init. cbn [cm sent link_up]. fold w1. unfold bind at 1.
    erewrite (loop_round_chunk U resample mock_sample tts_engine session_id hello
                w1);
      [reflexivity | reflexivity | reflexivity | | exact Hpass].
    unfold Segmentation.should_process_text, Registry.get_text_buffer.
    fold w2 in Hd |- *. cbn [cm w2] in Hd |- *. rewrite Hd.
    vm_compute. reflexivity.
  - reflexivity.
  - exact Hproc.
  - exact Hfull.
  - cbn [cm]. unfold Registry.clear_text_buffer. rewrite Hd. cbn [session_data].
    rewrite lookup_insert_eq. reflexivity.
Qed.

Lemma hello_dr_smith_one_result_witness :
  ready ready_mock_engine = true
  /\ yields_audio ascii_tables (fun _ _ _ => of_Z 0) ready_mock_engine
       (u "Hello Dr. Smith.")
  /\ exists (result : tts_result) (w' : world),
       Handler.websocket_endpoint ascii_tables (fun x _ => x)
         (fun _ _ _ => of_Z 0) ready_mock_engine (of_Z 0) 1 (u "s1")
         [text_frame (u " "); text_frame (u "Hello Dr. Smith.")]
         {| cm := Registry.init; sent := []; link_up := true |}
       = (Ok Continue, w')
       /\ sent w' = [OutResult result (u "Hello Dr. Smith.")]
       /\ r_processed_text result = u "Hello Dr. Smith."
       /\ r_full_text result = u "Hello Dr. Smith."
       /\ session_data (cm w') !! u "s1"
          = Some {| text_buffer := []; full_text := u "Hello Dr. Smith.";
                    is_active := true; created_at := of_Z 0 |}.
Proof.
  assert (Ha : yields_audio ascii_tables (fun _ _ _ => of_Z 0) ready_mock_engine
                 (u "Hello Dr. Smith.")).
  { apply mock_yields_audio; [reflexivity | discriminate]. }
  split; [reflexivity|]. split; [exact Ha|].
  apply (hello_dr_smith_one_result ascii_tables (fun x _ => x)
           (fun _ _ _ => of_Z 0) ready_mock_engine (of_Z 0) 1 (u "s1")
           Registry.init eq_refl Ha).
Defined.

(** ** Alignment *)


(** *** Float operations at and around zero *)

Lemma R64_idem (x : Qc) : R64 (R64 x) = R64 x.
Proof. apply rnd_idem. lia. Qed.

Lemma R64_mono (x y : Qc) : (x <= y)%Qc -> (R64 x <= R64 y)%Qc.
Proof. apply rnd_mono. lia. Qed.

Lemma R64_nonneg (x : Qc) : (0 <= x)%Qc -> (0 <= R64 x)%Qc.
Proof. apply rnd_nonneg. lia. Qed.

Lemma fmul_0_r (x : Qc) : fmul x 0%Qc = 0%Qc.
Proof. unfold fmul. rewrite Qcmult_0_r. apply rnd_0. Qed.

Lemma fdiv_0_l (y : Qc) : fdiv 0%Qc y = 0%Qc.
Proof. unfold fdiv, Qcdiv. rewrite Qcmult_0_l. apply rnd_0. Qed.

Lemma fadd_0_0 : fadd 0%Qc 0%Qc = 0%Qc.
Proof. apply Qc_is_canon. reflexivity. Qed.

Lemma fmul_nonneg (x y : Qc) : (0 <= x)%Qc -> (0 <= y)%Qc -> (0 <= fmul x y)%Qc.
Proof.
  intros Hx Hy. apply R64_nonneg. unfold Qcle in *. rewrite this_mult.
  change (this 0%Qc) with 0%Q in *. nra.
Qed.

Lemma fdiv_nonneg (x y : Qc) : (0 <= x)%Qc -> (0 <= y)%Qc -> (0 <= fdiv x y)%Qc.
Proof. intros Hx Hy. apply R64_nonneg, Qc_div_nonneg; assumption. Qed.

(** *** The loops *)

Lemma char_loop_length (times : Qc -> Qc -> Qc) (cd : Qc) (text : str) :
  forall i, length (Alignment.char_loop times cd i text) = length text.
Proof.
  induction text as [|c text IH]; intros i; cbn; [reflexivity|].
  f_equal. apply IH.
Qed.

Lemma char_loop_durations (times : Qc -> Qc -> Qc) (cd : Qc) (text : str) :
  forall i, List.map duration_ms (Alignment.char_loop times cd i text)
            = repeat cd (length text).
Proof.
  induction text as [|c text IH]; intros i; cbn; [reflexivity|].
  f_equal. apply IH.
Qed.

Lemma char_loop_starts (times : Qc -> Qc -> Qc) (cd : Qc) (text : str) :
  forall i, List.map start_ms (Alignment.char_loop times cd i text)
            = List.map (fun j => times (of_nat j) cd) (seq i (length text)).
Proof.
  induction text as [|c text IH]; intros i; cbn; [reflexivity|].
  f_equal. apply IH.
Qed.



Lemma word_loop_words (tc : nat) (total : Qc) (words : list str) :
  forall t0, List.map word (Alignment.word_loop tc total t0 words) = words.
Proof.
  induction words as [|w words IH]; intros t0; cbn; [reflexivity|].
  f_equal. apply IH.
Qed.

(** What [word_loop] gives one word. *)
Definition word_duration (tc : nat) (total : Qc) (w : str) : Qc :=
  if 0 <? tc then fmul (fdiv (of_nat (length w)) (of_nat tc)) total else of_Z 0.


Lemma word_duration_nonneg (tc : nat) (total : Qc) (w : str) :
  (0 <= total)%Qc -> (0 <= word_duration tc total w)%Qc.
Proof.
  intros Ht. unfold word_duration. destruct (0 <? tc); [|apply Qcle_refl].
  apply fmul_nonneg; [|exact Ht].
  apply fdiv_nonneg; apply of_nat_nonneg.
Qed.


(** *** How far rounding moves the sums *)

(** The unit roundoff of a Python float, [2^-53]. *)
Definition eps64 : Qc := eps 53.


Lemma R64_err (x : Qc) :
  (0 <= x)%Qc ->
  ((1 - this eps64) * this x <= this (R64 x))%Q
  /\ (this (R64 x) <= (1 + this eps64) * this x)%Q.
Proof.
  intros Hx. destruct (rnd_err 53 x Hx) as [H1 H2]. unfold Qcle in H1, H2.
  rewrite this_mult, ?this_minus, ?this_plus in H1, H2.
  change (this 1%Qc) with 1%Q in *. split; assumption.
Qed.





Lemma sum_lengths_pos (words : list str) :
  words <> [] -> Forall (fun w => w <> []) words ->
  0 < Alignment.sum_lengths words.
Proof.
  intros Hne Hall. destruct words as [|w words]; [congruence|].
  inversion Hall as [|? ? Hw _]; subst. cbn.
  destruct w; [congruence|]. cbn. lia.
Qed.

(** The text has a character that is not whitespace, as every non-empty
    normalised text has. *)
Definition has_token (U : unicode_tables) (text : str) : Prop :=
  exists c, In c text /\ isspace U c = false.

Lemma split_words_tokens (U : unicode_tables) (text : str) :
  has_token U text ->
  Alignment.split_words U text <> []
  /\ 0 < Alignment.sum_lengths (Alignment.split_words U text).
Proof.
  intros (c & Hin & Hc).
  assert (Hne : Alignment.split_words U text <> []).
  { apply findall_plus_cat_finds. exists c. split; [exact Hin|].
    cbn. rewrite Hc. reflexivity. }
  split; [exact Hne|].
  apply sum_lengths_pos; [exact Hne | apply findall_plus_cat_nonempty].
Qed.

(** A bound that is not negative. *)
Definition within (tol a b : Qc) : Prop :=
  (a - tol <= b)%Qc /\ (b <= a + tol)%Qc.


Definition one_silence (end_ms : Z) : list timing :=
  [{| phoneme := []; t_start_ms := of_Z 0; t_end_ms := of_Z end_ms |}].


(** The floats of that example: the second word gets 479.99999999999994 ms
    and the sum misses the total by [2^-43] ms. *)
Lemma word_alignment_hello_world :
  List.map (fun r => this (w_duration_ms r))
    (Alignment._generate_word_alignment ascii_tables (u "Hello world.")
       (one_silence 880))
  = [(400 # 1)%Q; (8444249301319679 # 17592186044416)%Q].
Proof. vm_compute. reflexivity. Qed.

(** A text of whitespace alone, which the engine never aligns, has no
    word record. *)
Lemma word_alignment_of_blank_text :
  Alignment._generate_word_alignment ascii_tables (u " ") (one_silence 500) = [].
Proof. vm_compute. reflexivity. Qed.

Lemma dropwhile_head (p : char -> bool) (s : str) (c : char) (rest : str) :
  dropwhile p s = c :: rest -> In c s /\ p c = false.
Proof.
  induction s as [|x s IH]; cbn; [discriminate|].
  destruct (p x) eqn:Hx.
  - intros H. destruct (IH H). auto.
  - intros [= -> _]. auto.
Qed.

(** The texts the engine aligns are never blank, so they have a token. *)
Lemma not_blank_has_token (U : unicode_tables) (text : str) :
  Engine.is_blank U text = false -> has_token U text.
Proof.
  unfold Engine.is_blank, strip, rstrip, lstrip.
  destruct (dropwhile (isspace U) text) as [|c rest] eqn:E.
  - cbn. discriminate.
  - intros _. exists c. eapply dropwhile_head, E.
Qed.

Lemma word_loop_zero (tc : nat) (words : list str) :
  Forall (fun r => w_start_ms r = 0%Qc /\ w_duration_ms r = 0%Qc)
         (Alignment.word_loop tc 0%Qc 0%Qc words).
Proof.
  assert (Hd : forall w : str,
             (if 0 <? tc then fmul (fdiv (of_nat (length w)) (of_nat tc)) 0
              else of_Z 0)%Qc = 0%Qc).
  { intros w. destruct (0 <? tc); [apply fmul_0_r | reflexivity]. }
  induction words as [|w words IH]; cbn [Alignment.word_loop]; constructor.
  - cbn [w_start_ms w_duration_ms]. split; [reflexivity | apply Hd].
  - rewrite Hd, fadd_0_0. exact IH.
Qed.

Lemma char_loop_zero (text : str) :
  forall i, Forall (fun r => start_ms r = 0%Qc /\ duration_ms r = 0%Qc)
                   (Alignment.char_loop fmul 0%Qc i text).
Proof.
  induction text as [|c text IH]; intros i; cbn [Alignment.char_loop];
    constructor; [|apply IH].
  cbn [start_ms duration_ms]. split; [apply fmul_0_r | reflexivity].
Qed.

(** C7, as the code has it.  Empty text gives two empty alignments.  With
    no timings, every character gets 100 ms, starting at 100 ms times its
    index, and the word alignment is empty, whatever the text.  With
    timings whose total duration is 0, every character record and every
    word record has start 0 and duration 0, and there is one word record
    for each whitespace-delimited token. *)
Theorem degenerate_alignments (U : unicode_tables) :
  (forall ts : list timing,
     Alignment._generate_character_alignment [] ts = []
     /\ Alignment._generate_word_alignment U [] ts = [])
  /\ (forall text : str,
        let chars := Alignment._generate_character_alignment text [] in
        length chars = length text
        /\ List.map duration_ms chars = repeat (of_Z 100) (length text)
        /\ List.map start_ms chars
           = List.map (fun i => (of_nat i * of_Z 100)%Qc) (seq 0 (length text)))
  /\ (forall text : str, Alignment._generate_word_alignment U text [] = [])
  /\ (forall (text : str) (ts : list timing),
        ts <> [] ->
        Alignment.total_duration ts = 0%Qc ->
        let chars := Alignment._generate_character_alignment text ts in
        let words := Alignment._generate_word_alignment U text ts in
        length chars = length text
        /\ Forall (fun r => start_ms r = 0%Qc /\ duration_ms r = 0%Qc) chars
        /\ List.map word words = Alignment.split_words U text
        /\ Forall (fun r => w_start_ms r = 0%Qc /\ w_duration_ms r = 0%Qc) words).
Proof.
  split; [|split; [|split]].
  - intros ts. split.
    + destruct ts; reflexivity.
    + unfold Alignment._generate_word_alignment.
      change (Alignment.split_words U []) with (@nil str).
      destruct ts; reflexivity.
  - intros text. cbn zeta. unfold Alignment._generate_character_alignment.
    split; [apply char_loop_length|].
    split; [apply char_loop_durations | apply char_loop_starts].
  - intros text. reflexivity.
  - intros text ts Hts Htotal. cbn zeta.
    unfold Alignment._generate_character_alignment,
      Alignment._generate_word_alignment.
    destruct ts as [|t ts]; [congruence|]. rewrite Htotal.
    assert (Hcd : (if 0 <? length text then fdiv 0 (of_nat (length text))
                   else of_Z 0)%Qc = 0%Qc).
    { destruct (0 <? length text); [apply fdiv_0_l | reflexivity]. }
    rewrite Hcd.
    split; [apply char_loop_length|]. split; [apply char_loop_zero|].
    destruct (Alignment.split_words U text) as [|w ws]; [split; constructor|].
    split; [apply word_loop_words | apply word_loop_zero].
Qed.

Lemma degenerate_alignments_witness :
  one_silence 0 <> []
  /\ Alignment.total_duration (one_silence 0) = 0%Qc
  /\ List.map word
       (Alignment._generate_word_alignment ascii_tables (u "hi you") (one_silence 0))
     = Alignment.split_words ascii_tables (u "hi you").
Proof.
  assert (H1 : one_silence 0 <> []) by discriminate.
  assert (H2 : Alignment.total_duration (one_silence 0) = 0%Qc)
    by (apply Qc_is_canon; reflexivity).
  split; [exact H1 | split; [exact H2 | ]].
  apply (proj2 (proj2 (proj2 (degenerate_alignments ascii_tables)))
           (u "hi you") (one_silence 0) H1 H2).
Defined.

(** C7, as stated, fails: with an empty timing sequence the word
    alignment of ["hi you"] has no record, where the text has two
    tokens. *)
Lemma word_alignment_without_timings :
  Alignment.split_words ascii_tables (u "hi you") = [u "hi"; u "you"]
  /\ Alignment.total_duration [] = of_Z 0
  /\ Alignment._generate_word_alignment ascii_tables (u "hi you") [] = [].
Proof.
  repeat split.
Qed.


(** ** Hyphens *)

(** Where a pattern matches nowhere, [re.sub] returns the text. *)
Lemma sub_from_no_match (U : unicode_tables) (r : regex) (repl : list tpart)
    (s : str) :
  forall prev, search_from U r prev s = false -> sub_from U r repl prev s 0 = s.
Proof.
  induction s as [|c s IH]; intros prev; cbn [search_from sub_from];
    destruct (match_here U r prev _) as [[rest caps]|]; try discriminate.
  - reflexivity.
  - intros H. f_equal. apply IH, H.
Qed.

Lemma re_sub_no_match (U : unicode_tables) (r : regex) (repl : list tpart)
    (s : str) :
  re_search U r s = false -> re_sub U r repl s = s.
Proof. apply sub_from_no_match. Qed.








Lemma hyphen_not_decimal (U : unicode_tables) : isdecimal U (ch "-") = false.
Proof. reflexivity. Qed.

Import MathNotationProcessor.


















(** ** Failing backends, end to end *)

(** A pipeline call that raises is answered from the mock: the pass then
    sends a result, not an error. *)
Lemma pipeline_failure_uses_mock (U : unicode_tables)
    (mock_sample : Qc -> nat -> nat -> Qc) (run : str -> option (list chunk))
    (text : str) :
  run text = None ->
  Engine._generate_audio_with_phoneme_timings U mock_sample
    {| pipeline := KPipeline run; ready := true |} text
  = Engine._generate_mock_audio_with_timings U mock_sample text.
Proof.
  intros H. unfold Engine._generate_audio_with_phoneme_timings. cbn [pipeline].
  rewrite H. reflexivity.
Qed.

(** The frames [{"text": "\alpha"}] and [{"flush": true}] on a fresh
    connection: the flush runs a pass on a buffer that is not blank, the
    engine returns [None], and the client is sent nothing; the loop goes
    on and the buffer is kept. *)
Lemma flush_of_unspeakable_buffer_is_silent :
  let w0 := {| cm := Registry.init; sent := []; link_up := true |} in
  let run := Handler.websocket_endpoint ascii_tables (fun x _ => x)
               (fun _ _ _ => of_Z 0) ready_mock_engine
               (of_Z 0) 1 (u "s1")
               [text_frame (u "\alpha"); flush_frame] w0 in
  fst run = Ok Continue
  /\ sent (snd run) = []
  /\ Registry.get_text_buffer (u "s1") (cm (snd run)) = u "\alpha".
Proof.
  vm_compute. repeat split.
Qed.


(** The frame [{"text": "Hi."}] on a fresh connection to an engine whose
    pipeline yields no sample: the sentence triggers a pass, the encoder
    raises on the empty audio, the engine returns [None], and the client
    is sent nothing, no error either; the loop goes on and the buffer is
    kept. *)
Lemma empty_audio_is_silent :
  let w0 := {| cm := Registry.init; sent := []; link_up := true |} in
  let run := Handler.websocket_endpoint ascii_tables (fun x _ => x)
               (fun _ _ _ => of_Z 0) silent_engine
               (of_Z 0) 1 (u "s1") [text_frame (u "Hi.")] w0 in
  fst run = Ok Continue
  /\ sent (snd run) = []
  /\ Registry.get_text_buffer (u "s1") (cm (snd run)) = u "Hi.".
Proof.
  vm_compute. repeat split.
Qed.

(** * Further properties of the registry *)

(** X1.  [disconnect] leaves no entry for the identifier, and a second
    [disconnect] changes nothing. *)
Theorem disconnect_removes_and_is_idempotent (session_id : str)
    (cm : ConnectionManager) :
  session_data (Registry.disconnect session_id cm) !! session_id = None
  /\ active_connections (Registry.disconnect session_id cm) !! session_id = None
  /\ Registry.disconnect session_id (Registry.disconnect session_id cm)
     = Registry.disconnect session_id cm
  /\ Registry.get_text_buffer session_id (Registry.disconnect session_id cm) = [].
Proof.
  unfold Registry.disconnect, Registry.get_text_buffer. cbn.
  rewrite !lookup_delete_eq. repeat split.
  f_equal; apply delete_delete_eq.
Qed.

(** X2.  On an identifier the registry does not know, [disconnect],
    [initialize_session], [add_text_chunk] and [clear_text_buffer] change
    nothing and [get_text_buffer] is the empty string. *)
Theorem unknown_session_is_noop (session_id text : str) (cm : ConnectionManager) :
  session_data cm !! session_id = None ->
  active_connections cm !! session_id = None ->
  Registry.disconnect session_id cm = cm
  /\ Registry.initialize_session session_id cm = cm
  /\ Registry.add_text_chunk session_id text cm = cm
  /\ Registry.clear_text_buffer session_id cm = cm
  /\ Registry.get_text_buffer session_id cm = [].
Proof.
  intros Hs Ha.
  unfold Registry.disconnect, Registry.initialize_session,
    Registry.add_text_chunk, Registry.clear_text_buffer, Registry.get_text_buffer.
  rewrite Hs. repeat split.
  destruct cm as [ac sd]. cbn in *. f_equal; apply delete_id; assumption.
Qed.

Lemma unknown_session_is_noop_witness :
  session_data Registry.init !! u "s1" = None
  /\ active_connections Registry.init !! u "s1" = None
  /\ Registry.add_text_chunk (u "s1") (u "abc") Registry.init = Registry.init.
Proof.
  assert (H1 : session_data Registry.init !! u "s1" = None) by reflexivity.
  assert (H2 : active_connections Registry.init !! u "s1" = None) by reflexivity.
  split; [exact H1 | split; [exact H2 | ]].
  apply (unknown_session_is_noop (u "s1") (u "abc") Registry.init H1 H2).
Defined.

(** X3.  No operation on one session touches the record of another. *)
Theorem registry_operations_are_local (now : Qc) (ws : websocket)
    (session_id other text : str) (cm : ConnectionManager) :
  other <> session_id ->
  session_data (Registry.connect now ws session_id cm) !! other
    = session_data cm !! other
  /\ session_data (Registry.disconnect session_id cm) !! other
     = session_data cm !! other
  /\ session_data (Registry.initialize_session session_id cm) !! other
     = session_data cm !! other
  /\ session_data (Registry.add_text_chunk session_id text cm) !! other
     = session_data cm !! other
  /\ session_data (Registry.clear_text_buffer session_id cm) !! other
     = session_data cm !! other.
Proof.
  intros Hne.
  unfold Registry.connect, Registry.disconnect, Registry.initialize_session,
    Registry.add_text_chunk, Registry.clear_text_buffer.
  destruct (session_data cm !! session_id) as [d|]; cbn;
    rewrite ?lookup_insert_ne, ?lookup_delete_ne by congruence; repeat split.
Qed.

Lemma registry_operations_are_local_witness :
  u "s2" <> u "s1"
  /\ session_data
       (Registry.add_text_chunk (u "s1") (u "abc")
          (Registry.connect (of_Z 0) 1 (u "s1")
             (Registry.connect (of_Z 0) 2 (u "s2") Registry.init))) !! u "s2"
     = session_data
         (Registry.connect (of_Z 0) 1 (u "s1")
            (Registry.connect (of_Z 0) 2 (u "s2") Registry.init)) !! u "s2".
Proof.
  assert (H : u "s2" <> u "s1") by discriminate.
  split; [exact H|].
  apply (registry_operations_are_local (of_Z 0) 1 (u "s1") (u "s2") (u "abc") _ H).
Defined.

(** The buffer of a session is the tail of its transcript. *)
Definition buffer_is_suffix (d : session) : Prop :=
  exists pre, full_text d = pre ++ text_buffer d.

Definition registry_wf (cm : ConnectionManager) : Prop :=
  forall session_id d,
    session_data cm !! session_id = Some d -> buffer_is_suffix d.

(** X4.  The registry starts with, and every operation keeps, the invariant
    that each session's buffer is a suffix of its transcript. *)
Theorem registry_keeps_buffer_suffix (now : Qc) (ws : websocket)
    (session_id text : str) (cm : ConnectionManager) :
  registry_wf cm ->
  registry_wf Registry.init
  /\ registry_wf (Registry.connect now ws session_id cm)
  /\ registry_wf (Registry.disconnect session_id cm)
  /\ registry_wf (Registry.initialize_session session_id cm)
  /\ registry_wf (Registry.add_text_chunk session_id text cm)
  /\ registry_wf (Registry.clear_text_buffer session_id cm).
Proof.
  intros Hwf. unfold registry_wf in *.
  split; [intros k d; cbn; rewrite lookup_empty; discriminate|].
  unfold Registry.connect, Registry.disconnect, Registry.initialize_session,
    Registry.add_text_chunk, Registry.clear_text_buffer.
  destruct (session_data cm !! session_id) as [d0|] eqn:E0; cbn;
    repeat split; intros k d;
    try (destruct (decide (k = session_id)) as [->|Hne];
         [rewrite ?lookup_insert_eq, ?lookup_delete_eq
         |rewrite ?lookup_insert_ne, ?lookup_delete_ne by congruence; apply Hwf]);
    try apply Hwf; try discriminate;
    intros [= <-]; cbn.
  all: try (exists []; reflexivity).
  - destruct (Hwf _ _ E0) as [pre Hpre]. exists pre.
    rewrite Hpre, <- app_assoc. reflexivity.
  - exists (full_text d0). symmetry. apply app_nil_r.
Qed.

Lemma registry_keeps_buffer_suffix_witness :
  registry_wf Registry.init
  /\ registry_wf (Registry.add_text_chunk (u "s1") (u "abc") Registry.init).
Proof.
  assert (H : registry_wf Registry.init).
  { intros k d. cbn. rewrite lookup_empty. discriminate. }
  split; [exact H|].
  apply (registry_keeps_buffer_suffix (of_Z 0) 1 (u "s1") (u "abc") Registry.init H).
Defined.

Lemma disconnect_all_lookup (l : list str) :
  forall (cm : ConnectionManager) (k : str),
    let cm' := fold_left (fun acc sid => Registry.disconnect sid acc) l cm in
    active_connections cm' !! k
      = (if decide (k ∈ l) then None else active_connections cm !! k)
    /\ session_data cm' !! k
       = (if decide (k ∈ l) then None else session_data cm !! k).
Proof.
  induction l as [|x l IH]; intros cm k; cbn zeta; cbn [fold_left].
  - destruct (decide (k ∈ [])) as [H|_]; [inversion H | split; reflexivity].
  - destruct (IH (Registry.disconnect x cm) k) as [Ha Hs]. rewrite Ha, Hs.
    unfold Registry.disconnect. cbn [active_connections session_data].
    destruct (decide (k ∈ l)) as [Hin|Hnin].
    + rewrite !decide_True by (apply elem_of_cons; right; exact Hin).
      split; reflexivity.
    + destruct (decide (k = x)) as [->|Hne].
      * rewrite !decide_True by (apply elem_of_cons; left; reflexivity).
        rewrite !lookup_delete_eq. split; reflexivity.
      * rewrite !decide_False by (rewrite elem_of_cons; intros [?|?]; tauto).
        rewrite !lookup_delete_ne by congruence. split; reflexivity.
Qed.

(** X5.  [cleanup_all_connections] leaves no active connection, removes the
    session record of every connection that was active, and keeps the
    others. *)
Theorem cleanup_all_connections_empties (cm : ConnectionManager) :
  active_connections (Registry.cleanup_all_connections cm) = ∅
  /\ forall k : str,
       session_data (Registry.cleanup_all_connections cm) !! k
       = match active_connections cm !! k with
         | Some _ => None
         | None => session_data cm !! k
         end.
Proof.
  unfold Registry.cleanup_all_connections.
  set (keys := (map_to_list (active_connections cm)).*1).
  assert (Hkeys : forall k, k ∈ keys <-> is_Some (active_connections cm !! k)).
  { intros k. unfold keys. rewrite list_elem_of_fmap. split.
    - intros ([k' v] & -> & Hin). apply elem_of_map_to_list in Hin.
      cbn. eauto.
    - intros [v Hv]. exists (k, v). split; [reflexivity|].
      apply elem_of_map_to_list. exact Hv. }
  split.
  - apply map_eq. intros k. rewrite lookup_empty.
    destruct (disconnect_all_lookup keys cm k) as [Ha _]. cbn zeta in Ha.
    rewrite Ha. destruct (decide (k ∈ keys)) as [_|Hnin]; [reflexivity|].
    destruct (active_connections cm !! k) eqn:E; [|reflexivity].
    exfalso. apply Hnin, Hkeys. eauto.
  - intros k. destruct (disconnect_all_lookup keys cm k) as [_ Hs].
    cbn zeta in Hs. rewrite Hs.
    destruct (decide (k ∈ keys)) as [Hin|Hnin].
    + apply Hkeys in Hin as [v ->]. reflexivity.
    + destruct (active_connections cm !! k) eqn:E; [|reflexivity].
      exfalso. apply Hnin, Hkeys. eauto.
Qed.


(** * Further properties of the alignment *)

(** Records given as (start, duration) follow on: each record but the
    first starts where the one before ends, up to [k] roundings. *)
Fixpoint follow_on (k : Z) (l : list (Qc * Qc)) : Prop :=
  match l with
  | (s1, d1) :: (((s2, _) :: _) as l') =>
      within (of_Z k * eps64 * (s1 + d1))%Qc (s1 + d1)%Qc s2 /\ follow_on k l'
  | _ => True
  end.

Definition first_start (l : list (Qc * Qc)) : option Qc :=
  match l with
  | [] => None
  | (s, _) :: _ => Some s
  end.

Definition char_spans (l : list char_alignment) : list (Qc * Qc) :=
  List.map (fun r => (start_ms r, duration_ms r)) l.

Definition word_spans (l : list word_alignment) : list (Qc * Qc) :=
  List.map (fun r => (w_start_ms r, w_duration_ms r)) l.

Lemma this_of_nat_S (n : nat) : (this (of_nat (S n)) == this (of_nat n) + 1)%Q.
Proof.
  rewrite of_nat_S, this_plus. change (this 1%Qc) with 1%Q. reflexivity.
Qed.

Lemma char_loop_follow_on (cd : Qc) (text : str) :
  (0 <= cd)%Qc ->
  forall i, follow_on 3 (char_spans (Alignment.char_loop fmul cd i text)).
Proof.
  intros Hcd. induction text as [|c text IH]; intros i; [exact I|].
  destruct text as [|c' text]; [exact I|].
  split; [|apply (IH (S i))].
  cbn [start_ms duration_ms].
  pose proof (of_nat_nonneg i) as Hi.
  assert (H1 : (0 <= of_nat i * cd)%Qc).
  { unfold Qcle in *. rewrite this_mult. change (this 0%Qc) with 0%Q in *. nra. }
  assert (H2 : (0 <= of_nat (S i) * cd)%Qc).
  { pose proof (of_nat_nonneg (S i)) as Hi'.
    unfold Qcle in *. rewrite this_mult. change (this 0%Qc) with 0%Q in *. nra. }
  pose proof (R64_err _ H1) as [L1 U1]. pose proof (R64_err _ H2) as [L2 U2].
  fold (fmul (of_nat i) cd) in L1, U1. fold (fmul (of_nat (S i)) cd) in L2, U2.
  rewrite this_mult in L1, U1. rewrite this_mult, this_of_nat_S in L2, U2.
  unfold within, Qcle in *. rewrite this_mult in H1.
  change (this 0%Qc) with 0%Q in *.
  change (this eps64) with (1 # 9007199254740992)%Q in *.
  assert (E : ((this (of_nat i) + 1) * this cd
               == this (of_nat i) * this cd + this cd)%Q) by ring.
  rewrite E in L2, U2. clear E H2 IH.
  split;
    repeat first [rewrite this_plus | rewrite this_minus | rewrite this_mult
                 | rewrite this_of_Z];
    change (inject_Z 3) with 3%Q;
    change (this eps64) with (1 # 9007199254740992)%Q;
    generalize dependent (this (fmul (of_nat i) cd));
    generalize dependent (this (fmul (of_nat (S i)) cd));
    generalize dependent (this (of_nat i) * this cd)%Q;
    generalize dependent (this cd); intros; lra.
Qed.

Lemma word_loop_follow_on (tc : nat) (total : Qc) (words : list str) :
  (0 <= total)%Qc ->
  forall t0,
    (0 <= t0)%Qc ->
    follow_on 1 (word_spans (Alignment.word_loop tc total t0 words)).
Proof.
  intros Ht. induction words as [|w words IH]; intros t0 Ht0; [exact I|].
  destruct words as [|w' words]; [exact I|].
  cbn [Alignment.word_loop word_spans List.map follow_on w_start_ms w_duration_ms].
  fold (word_duration tc total w). fold (word_duration tc total w').
  pose proof (word_duration_nonneg tc total w Ht) as Hd.
  assert (Hs : (0 <= t0 + word_duration tc total w)%Qc).
  { unfold Qcle in *. rewrite this_plus. change (this 0%Qc) with 0%Q in *. lra. }
  split.
  - pose proof (R64_err _ Hs) as [L U].
    fold (fadd t0 (word_duration tc total w)) in L, U.
    rewrite this_plus in L, U.
    unfold within, Qcle in *. rewrite this_plus in Hs.
    change (this 0%Qc) with 0%Q in *.
    change (this eps64) with (1 # 9007199254740992)%Q in *.
    split;
      repeat first [rewrite this_plus | rewrite this_minus | rewrite this_mult
                   | rewrite this_of_Z];
      change (inject_Z 1) with 1%Q;
      change (this eps64) with (1 # 9007199254740992)%Q;
      generalize dependent (this (fadd t0 (word_duration tc total w)));
      generalize dependent (this (word_duration tc total w));
      generalize dependent (this t0); intros; lra.
  - apply (IH (fadd t0 (word_duration tc total w))).
    apply R64_nonneg, Hs.
Qed.

(** X6.  With timings whose total is not negative, the character records
    and the word records of a text that has a token follow on from 0 in
    float arithmetic: the first record starts at 0; every word starts at
    the float sum of the start and the duration of the word before it, so
    within one rounding of where that word ends; every character starts
    within three roundings of where the character before it ends (its
    start is the rounded product of its index and the duration). *)
Theorem alignments_follow_on (U : unicode_tables) (text : str)
    (phoneme_timings : list timing) :
  has_token U text ->
  phoneme_timings <> [] ->
  (0 <= Alignment.total_duration phoneme_timings)%Qc ->
  let chars := Alignment._generate_character_alignment text phoneme_timings in
  let words := Alignment._generate_word_alignment U text phoneme_timings in
  first_start (char_spans chars) = Some 0%Qc
  /\ follow_on 3 (char_spans chars)
  /\ first_start (word_spans words) = Some 0%Qc
  /\ follow_on 1 (word_spans words).
Proof.
  intros Htok Hts Htot.
  destruct (split_words_tokens U text Htok) as [Hwords Hlen].
  assert (Htext : 0 < length text).
  { destruct Htok as (c & Hin & _). destruct text; [destruct Hin | cbn; lia]. }
  cbv zeta.
  unfold Alignment._generate_character_alignment,
    Alignment._generate_word_alignment.
  destruct phoneme_timings as [|t ts]; [congruence|].
  set (total := Alignment.total_duration (t :: ts)) in *.
  replace (0 <? length text) with true by (symmetry; apply Nat.ltb_lt; exact Htext).
  destruct (Alignment.split_words U text) as [|w ws] eqn:Ew; [congruence|].
  assert (Hcd : (0 <= fdiv total (of_nat (length text)))%Qc)
    by (apply fdiv_nonneg; [exact Htot | apply of_nat_nonneg]).
  split; [|split; [|split]].
  - destruct text as [|c text]; [cbn in Htext; lia|].
    cbn [Alignment.char_loop char_spans List.map first_start start_ms].
    f_equal; change (of_nat 0) with 0%Qc; unfold fmul;
      rewrite Qcmult_0_l; apply rnd_0.
  - apply char_loop_follow_on, Hcd.
  - reflexivity.
  - apply word_loop_follow_on; [exact Htot | apply Qcle_refl].
Qed.

Lemma alignments_follow_on_witness :
  has_token ascii_tables (u "Hello world.")
  /\ one_silence 880 <> []
  /\ follow_on 1
       (word_spans (Alignment._generate_word_alignment ascii_tables
                      (u "Hello world.") (one_silence 880)))
  /\ follow_on 3
       (char_spans (Alignment._generate_character_alignment
                      (u "Hello world.") (one_silence 880))).
Proof.
  assert (H1 : has_token ascii_tables (u "Hello world.")).
  { exists (ch "H"). split; [left; reflexivity | reflexivity]. }
  assert (H2 : one_silence 880 <> []) by discriminate.
  assert (H3 : (0 <= Alignment.total_duration (one_silence 880))%Qc)
    by (vm_compute; discriminate).
  destruct (alignments_follow_on ascii_tables (u "Hello world.") (one_silence 880)
              H1 H2 H3) as (_ & Hc & _ & Hw).
  split; [exact H1 | split; [exact H2 | split; [exact Hw | exact Hc]]].
Defined.

(** * Further properties of the engine *)

(** A timing is well formed: it starts at 0 or later and does not end
    before it starts. *)
Definition timing_wf (t : timing) : Prop :=
  (0 <= t_start_ms t)%Qc /\ (t_start_ms t <= t_end_ms t)%Qc.

Lemma fadd_float (x y : Qc) : R64 (fadd x y) = fadd x y.
Proof. apply R64_idem. Qed.

Lemma fadd_nonneg (x y : Qc) : (0 <= x)%Qc -> (0 <= y)%Qc -> (0 <= fadd x y)%Qc.
Proof.
  intros Hx Hy. apply R64_nonneg. unfold Qcle in *. rewrite this_plus.
  change (this 0%Qc) with 0%Q in *. lra.
Qed.

Lemma fadd_ge (x y : Qc) : R64 x = x -> (0 <= y)%Qc -> (x <= fadd x y)%Qc.
Proof. intros Hx Hy. apply rnd_add_ge; [lia | exact Hx | exact Hy]. Qed.

Lemma phoneme_loop_wf (cur pd : Qc) (ps : str) :
  (0 <= cur)%Qc -> (0 <= pd)%Qc ->
  forall j, Forall timing_wf (Engine.phoneme_loop cur pd j ps).
Proof.
  intros Hc Hp. induction ps as [|p ps IH]; intros j; cbn [Engine.phoneme_loop];
    constructor; [|apply IH].
  unfold timing_wf. cbn [t_start_ms t_end_ms]. split.
  - apply fadd_nonneg; [exact Hc | apply fmul_nonneg; [apply of_nat_nonneg | exact Hp]].
  - apply fadd_ge; [apply fadd_float | exact Hp].
Qed.

Lemma chunk_loop_wf (chunks : list chunk) :
  forall cur,
    R64 cur = cur -> (0 <= cur)%Qc ->
    Forall timing_wf (snd (Engine.chunk_loop cur chunks))
    /\ (chunks <> [] -> snd (Engine.chunk_loop cur chunks) <> []).
Proof.
  induction chunks as [|c chunks IH]; intros cur Hf Hc.
  - cbn. split; [constructor | congruence].
  - cbn [Engine.chunk_loop].
    set (cd := fmul (fdiv (of_nat (length (audio c)))
                          (of_Z Encoder.kokoro_sample_rate)) (of_Z 1000)).
    assert (Hcd : (0 <= cd)%Qc).
    { apply fmul_nonneg; [|vm_compute; discriminate].
      apply fdiv_nonneg; [apply of_nat_nonneg | vm_compute; discriminate]. }
    destruct (IH (fadd cur cd) (fadd_float cur cd) (fadd_nonneg cur cd Hc Hcd))
      as [Hwf _].
    destruct (Engine.chunk_loop (fadd cur cd) chunks) as [audio_chunks timings].
    cbn [snd] in *. split.
    + apply Forall_app. split; [|exact Hwf].
      destruct (phonemes c) as [|p ps] eqn:Ep.
      * constructor; [|constructor]. unfold timing_wf. cbn [t_start_ms t_end_ms].
        split; [exact Hc | apply fadd_ge; assumption].
      * apply phoneme_loop_wf; [exact Hc|].
        apply fdiv_nonneg; [exact Hcd | apply of_nat_nonneg].
    + intros _. destruct (phonemes c); cbn; discriminate.
Qed.

Lemma mock_timing_loop_wf (U : unicode_tables) (ms : Qc) (text : str) :
  (0 <= ms)%Qc ->
  forall i, Forall timing_wf (Engine.mock_timing_loop U ms i text).
Proof.
  intros Hms. induction text as [|c text IH]; intros i;
    cbn [Engine.mock_timing_loop]; [constructor|].
  apply Forall_app. split; [|apply IH].
  destruct (isalpha U c); constructor; [|constructor].
  unfold timing_wf. cbn [t_start_ms t_end_ms]. split.
  - apply fmul_nonneg; [apply of_nat_nonneg | exact Hms].
  - apply R64_mono. rewrite of_nat_S. unfold Qcle in *.
    rewrite !this_mult, this_plus. change (this 0%Qc) with 0%Q in Hms.
    change (this 1%Qc) with 1%Q. nra.
Qed.

Lemma total_duration_nonneg (l : list timing) :
  Forall timing_wf l -> (0 <= Alignment.total_duration l)%Qc.
Proof.
  unfold Alignment.total_duration. intros H.
  destruct (last l) as [t|] eqn:E; [|apply Qcle_refl].
  apply last_Some_elem_of in E. rewrite Forall_forall in H.
  destruct (H t E) as [H1 H2]. eapply Qcle_trans; eassumption.
Qed.

(** X7.  Whatever the backend, the timings that reach the alignment
    functions are well formed: each starts at 0 or later and ends no
    earlier than it starts, in float arithmetic; so their total duration,
    the end of the last one, is not negative.  A pipeline that gave chunks
    has a timing for each. *)
Theorem engine_timings_well_formed (U : unicode_tables)
    (mock_sample : Qc -> nat -> nat -> Qc) (self : TTSEngine) (text : str)
    (audio_data : list Qc) (timings : list timing) :
  Engine._generate_audio_with_phoneme_timings U mock_sample self text
  = Some (audio_data, timings) ->
  Forall timing_wf timings
  /\ (0 <= Alignment.total_duration timings)%Qc
  /\ (forall chunks, pipeline_chunks self text = Some chunks ->
                     chunks <> [] -> timings <> []).
Proof.
  intros E.
  assert (Hmock : forall a t,
             Engine._generate_mock_audio_with_timings U mock_sample text
             = Some (a, t) -> Forall timing_wf t).
  { unfold Engine._generate_mock_audio_with_timings. intros a t.
    destruct (length text) eqn:El; [discriminate|]. intros [= _ <-].
    apply mock_timing_loop_wf. apply fdiv_nonneg; [|apply of_nat_nonneg].
    apply fmul_nonneg; [|vm_compute; discriminate].
    apply fmul_nonneg; [apply of_nat_nonneg | vm_compute; discriminate]. }
  assert (Hwf : Forall timing_wf timings
                /\ (forall chunks, pipeline_chunks self text = Some chunks ->
                                   chunks <> [] -> timings <> [])).
  { revert E. unfold Engine._generate_audio_with_phoneme_timings, pipeline_chunks.
    destruct (pipeline self) as [| |run].
    - intros E. split; [eapply Hmock, E | discriminate].
    - intros E. split; [eapply Hmock, E | discriminate].
    - destruct (run text) as [chunks|].
      + destruct (chunk_loop_wf chunks (of_Z 0)) as [Hwf Hne];
          [apply Qc_is_canon; reflexivity | apply Qcle_refl|].
        destruct (Engine.chunk_loop (of_Z 0) chunks) as [a t]. cbn [snd] in *.
        intros [= _ <-]. split; [exact Hwf|].
        intros chunks' [= <-]. exact Hne.
      + intros E. split; [eapply Hmock, E | discriminate]. }
  destruct Hwf as [Hwf Hne].
  split; [exact Hwf|]. split; [apply total_duration_nonneg, Hwf | exact Hne].
Qed.

Lemma engine_timings_well_formed_witness :
  let chunks := [{| graphemes := u "hi"; phonemes := u "hI";
                    audio := repeat (of_Z 0) 48 |}] in
  let self := {| pipeline := KPipeline (fun _ => Some chunks); ready := true |} in
  exists audio_data timings,
    Engine._generate_audio_with_phoneme_timings ascii_tables
      (fun _ _ _ => of_Z 0) self (u "hi") = Some (audio_data, timings)
    /\ length timings = 2
    /\ Forall timing_wf timings.
Proof.
  cbv zeta.
  destruct (Engine._generate_audio_with_phoneme_timings ascii_tables
              (fun _ _ _ => of_Z 0)
              {| pipeline :=
                   KPipeline (fun _ => Some [{| graphemes := u "hi";
                                                phonemes := u "hI";
                                                audio := repeat (of_Z 0) 48 |}]);
                 ready := true |} (u "hi")) as [[a t]|] eqn:E.
  - exists a, t. split; [reflexivity|]. split.
    + vm_compute in E. injection E as _ <-. reflexivity.
    + exact (proj1 (engine_timings_well_formed _ _ _ _ _ _ E)).
  - vm_compute in E. discriminate.
Defined.

(** X9.  The engine returns nothing in three cases only: it is not ready;
    the normalised text is blank; or the pipeline ran and its chunks hold
    no sample, on which the encoder's resampling raises.  A pipeline that
    raises is no reason, the mock answers for it, and the mock always has
    samples. *)
Theorem generate_returns_none_iff (U : unicode_tables)
    (resample : list Qc -> nat -> list Qc) (mock_sample : Qc -> nat -> nat -> Qc)
    (self : TTSEngine) (text : str) :
  Engine.generate_audio_with_alignment U resample mock_sample self text = None
  <-> ready self = false
      \/ Engine.is_blank U (_clean_text U text) = true
      \/ exists chunks,
           pipeline_chunks self (_clean_text U text) = Some chunks
           /\ List.concat (List.map audio chunks) = [].
Proof.
  unfold Engine.generate_audio_with_alignment.
  destruct (ready self); cbn [negb]; [|split; auto].
  destruct (Engine.is_blank U (_clean_text U text)) eqn:Hb; [split; auto|].
  assert (Hne : _clean_text U text <> []).
  { intros E. rewrite E in Hb. discriminate. }
  destruct (pipeline_chunks self (_clean_text U text)) as [chunks|] eqn:Ep.
  - destruct (pipeline_audio U mock_sample self _ chunks Ep) as [t ->].
    destruct (Encoder._audio_to_base64 resample
                (List.concat (List.map audio chunks))) as [b|] eqn:Eb.
    + split; [discriminate|].
      intros [H|[H|(chunks' & [= <-] & H)]]; try discriminate.
      apply (audio_to_base64_none resample) in H. congruence.
    + apply audio_to_base64_none in Eb. split; [|reflexivity].
      intros _. right. right. exists chunks. auto.
  - destruct (mock_yields_audio U mock_sample self _ Ep Hne) as (a & t & -> & Ha).
    destruct (Encoder._audio_to_base64 resample a) as [b|] eqn:Eb.
    + split; [discriminate|].
      intros [H|[H|(chunks' & H & _)]]; discriminate.
    + apply audio_to_base64_none in Eb. contradiction.
Qed.

(** X10.  What a result holds: the input as [original_text], its normalisation,
    never blank, as [processed_text] and [full_text], one character entry,
    start and duration per character of the processed text, and word lists
    of one length. *)
Theorem generate_result_shape (U : unicode_tables)
    (resample : list Qc -> nat -> list Qc) (mock_sample : Qc -> nat -> nat -> Qc)
    (self : TTSEngine) (text : str) (r : tts_result) :
  Engine.generate_audio_with_alignment U resample mock_sample self text = Some r ->
  r_original_text r = text
  /\ r_processed_text r = _clean_text U text
  /\ r_full_text r = _clean_text U text
  /\ Engine.is_blank U (r_processed_text r) = false
  /\ List.concat (r_chars r) = r_processed_text r
  /\ length (r_chars r) = length (r_processed_text r)
  /\ length (r_char_start_times_ms r) = length (r_processed_text r)
  /\ length (r_char_durations_ms r) = length (r_processed_text r)
  /\ length (r_word_start_times_ms r) = length (r_words r)
  /\ length (r_word_durations_ms r) = length (r_words r).
Proof.
  unfold Engine.generate_audio_with_alignment.
  destruct (ready self); cbn [negb]; [|discriminate].
  destruct (Engine.is_blank U (_clean_text U text)) eqn:Hb; [discriminate|].
  destruct (Engine._generate_audio_with_phoneme_timings U mock_sample self
              (_clean_text U text)) as [[a t]|]; [|discriminate].
  destruct (Encoder._audio_to_base64 resample a) as [b64|]; [|discriminate].
  assert (Hchars : length (Alignment._generate_character_alignment
                             (_clean_text U text) t)
                   = length (_clean_text U text)).
  { unfold Alignment._generate_character_alignment.
    destruct t; apply char_loop_length. }
  revert Hchars.
  generalize (Alignment._generate_character_alignment (_clean_text U text) t).
  generalize (Alignment._generate_word_alignment U (_clean_text U text) t).
  revert Hb. generalize (_clean_text U text).
  intros p Hb wa ca Hchars E.
  assert (Hr : r = {| r_audio := b64; r_original_text := text;
                      r_processed_text := p;
                      r_chars := List.map (fun c => [c]) p;
                      r_char_start_times_ms :=
                        List.map (fun a => int_trunc (start_ms a)) ca;
                      r_char_durations_ms :=
                        List.map (fun a => int_trunc (duration_ms a)) ca;
                      r_words := List.map word wa;
                      r_word_start_times_ms :=
                        List.map (fun w => int_trunc (w_start_ms w)) wa;
                      r_word_durations_ms :=
                        List.map (fun w => int_trunc (w_duration_ms w)) wa;
                      r_full_text := p |}) by congruence.
  clear E. subst r.
  cbn [r_original_text r_processed_text r_full_text r_chars
       r_char_start_times_ms r_char_durations_ms r_words
       r_word_start_times_ms r_word_durations_ms].
  rewrite !length_map, Hchars.
  split; [reflexivity|]. split; [reflexivity|]. split; [reflexivity|].
  split; [exact Hb|].
  split; [|repeat split].
  clear. induction p as [|c s IH]; cbn [List.map List.concat app]; [reflexivity|].
  f_equal. exact IH.
Qed.

Lemma generate_result_shape_witness :
  match Engine.generate_audio_with_alignment ascii_tables (fun x _ => x)
          (fun _ _ _ => of_Z 0) ready_mock_engine (u "x^2") with
  | Some r =>
      r_processed_text r = u "x to the power of 2"
      /\ length (r_char_durations_ms r) = length (r_processed_text r)
  | None => False
  end.
Proof.
  assert (Hclean : _clean_text ascii_tables (u "x^2") = u "x to the power of 2")
    by (vm_compute; reflexivity).
  destruct (Engine.generate_audio_with_alignment ascii_tables (fun x _ => x)
              (fun _ _ _ => of_Z 0) ready_mock_engine (u "x^2")) as [r|] eqn:E.
  - pose proof (generate_result_shape _ _ _ _ _ _ E) as (_ & Hp & _ & _ & _ & _ & _ & Hl & _).
    split; [rewrite Hp; exact Hclean | exact Hl].
  - destruct (engine_speaks ascii_tables (fun x _ => x) (fun _ _ _ => of_Z 0)
                ready_mock_engine (u "x^2")) as (r & Hr & _).
    + reflexivity.
    + rewrite Hclean. reflexivity.
    + apply mock_yields_audio; [reflexivity | rewrite Hclean; discriminate].
    + congruence.
Defined.

(** * Further properties of the handler *)

(** Two registries agree on every session but one. *)
Definition same_others (session_id : str) (c c' : ConnectionManager) : Prop :=
  forall other, other <> session_id ->
    session_data c' !! other = session_data c !! other
    /\ active_connections c' !! other = active_connections c !! other.

(** What the handler of one session may do to the registry: other
    sessions are untouched, the session's socket stays, and its record is
    not dropped. *)
Definition cm_ok (session_id : str) (c c' : ConnectionManager) : Prop :=
  same_others session_id c c'
  /\ active_connections c' !! session_id = active_connections c !! session_id
  /\ (is_Some (session_data c !! session_id) ->
      is_Some (session_data c' !! session_id)).

(** What one round of the loop may do to the world: the link is as it
    was, at most one message has been appended to what was sent, and the
    registry has changed within [cm_ok]. *)
Definition round_ok (session_id : str) (w w' : world) : Prop :=
  link_up w' = link_up w
  /\ (sent w' = sent w \/ exists m, sent w' = sent w ++ [m])
  /\ cm_ok session_id (cm w) (cm w').

Lemma cm_ok_refl (session_id : str) (c : ConnectionManager) :
  cm_ok session_id c c.
Proof.
  split; [|split]; auto. intros other _. split; reflexivity.
Qed.

Lemma cm_ok_trans (session_id : str) (c1 c2 c3 : ConnectionManager) :
  cm_ok session_id c1 c2 -> cm_ok session_id c2 c3 -> cm_ok session_id c1 c3.
Proof.
  intros (Ho1 & Ha1 & Hp1) (Ho2 & Ha2 & Hp2). split; [|split].
  - intros other Hne. destruct (Ho1 other Hne) as [E1 E1'].
    destruct (Ho2 other Hne) as [E2 E2']. split; congruence.
  - congruence.
  - auto.
Qed.

Lemma round_ok_refl (session_id : str) (w : world) : round_ok session_id w w.
Proof.
  split; [|split]; auto. apply cm_ok_refl.
Qed.

(** The three in-place updates of the registry. *)
Lemma registry_update_ok (session_id text : str) (c : ConnectionManager) :
  cm_ok session_id c (Registry.initialize_session session_id c)
  /\ cm_ok session_id c (Registry.add_text_chunk session_id text c)
  /\ cm_ok session_id c (Registry.clear_text_buffer session_id c).
Proof.
  unfold Registry.initialize_session, Registry.add_text_chunk,
    Registry.clear_text_buffer, cm_ok, same_others.
  destruct (session_data c !! session_id) as [d|] eqn:E;
    cbn [session_data active_connections];
    repeat split; intros; rewrite ?lookup_insert_ne by congruence;
    rewrite ?lookup_insert_eq; rewrite ?E; eauto.
Qed.

Section HandlerProperties.
Context (U : unicode_tables).
Context (resample : list Qc -> nat -> list Qc).
Context (mock_sample : Qc -> nat -> nat -> Qc).
Context (tts_engine : TTSEngine).

Local Abbreviation process_text_buffer :=
  (Handler.process_text_buffer U resample mock_sample tts_engine).
Local Abbreviation dispatch := (Handler.dispatch U resample mock_sample tts_engine).
Local Abbreviation loop_body := (Handler.loop_body U resample mock_sample tts_engine).
Local Abbreviation loop_round := (Handler.loop_round U resample mock_sample tts_engine).
Local Abbreviation message_loop :=
  (Handler.message_loop U resample mock_sample tts_engine).
Local Abbreviation websocket_endpoint :=
  (Handler.websocket_endpoint U resample mock_sample tts_engine).

(** The three ways a synthesis pass ends: nothing happens; one result is
    sent and the buffer cleared; or the link is down, both sends raise and
    nothing has changed. *)
Lemma process_text_buffer_cases (session_id : str) (w : world) :
  process_text_buffer session_id w = (Ok tt, w)
  \/ (exists result chunk_text,
        link_up w = true
        /\ process_text_buffer session_id w
           = (Ok tt,
              {| cm := Registry.clear_text_buffer session_id (cm w);
                 sent := sent w ++ [OutResult result chunk_text];
                 link_up := link_up w |}))
  \/ (link_up w = false
      /\ process_text_buffer session_id w = (Raise OtherException, w)).
Proof.
  unfold Handler.process_text_buffer, try_except, bind, gets, send_text, update_cm.
  destruct (Engine.is_blank U (Registry.get_text_buffer session_id (cm w)));
    [left; reflexivity|].
  destruct (Engine.generate_audio_with_alignment U resample mock_sample tts_engine
              (Registry.get_text_buffer session_id (cm w))) as [result|];
    [|left; reflexivity].
  cbn [cm sent link_up].
  destruct (link_up w) eqn:Hl.
  - right. left. eexists _, _. split; [reflexivity|]. cbn [cm sent link_up].
    reflexivity.
  - right. right. split; [reflexivity|]. rewrite Hl. reflexivity.
Qed.


Lemma process_text_buffer_ok (session_id : str) (w : world) :
  round_ok session_id w (snd (process_text_buffer session_id w))
  /\ (forall e, fst (process_text_buffer session_id w) = Raise e ->
                snd (process_text_buffer session_id w) = w).
Proof.
  destruct (process_text_buffer_cases session_id w)
    as [E | [(result & chunk_text & Hl & E) | [Hl E]]]; rewrite E; cbn [fst snd].
  - split; [apply round_ok_refl | reflexivity].
  - split; [|discriminate]. split; [reflexivity|]. split; [right; eauto|].
    cbn [cm]. apply (registry_update_ok session_id []).
  - split; [apply round_ok_refl | reflexivity].
Qed.

End HandlerProperties.

Section HandlerRounds.
Context (U : unicode_tables).
Context (resample : list Qc -> nat -> list Qc).
Context (mock_sample : Qc -> nat -> nat -> Qc).
Context (tts_engine : TTSEngine).

Local Abbreviation process_text_buffer :=
  (Handler.process_text_buffer U resample mock_sample tts_engine).
Local Abbreviation process_remaining_text :=
  (Handler.process_remaining_text U resample mock_sample tts_engine).
Local Abbreviation dispatch := (Handler.dispatch U resample mock_sample tts_engine).
Local Abbreviation loop_body := (Handler.loop_body U resample mock_sample tts_engine).
Local Abbreviation loop_round := (Handler.loop_round U resample mock_sample tts_engine).
Local Abbreviation message_loop :=
  (Handler.message_loop U resample mock_sample tts_engine).
Local Abbreviation websocket_endpoint :=
  (Handler.websocket_endpoint U resample mock_sample tts_engine).

Ltac no_raise := let H := fresh "Hraise" in intros ? H; discriminate H.

(** A registry update before a round keeps the round within [round_ok]. *)
Lemma round_ok_after_update (session_id : str) (w w' : world)
    (c1 : ConnectionManager) :
  cm_ok session_id (cm w) c1 ->
  round_ok session_id {| cm := c1; sent := sent w; link_up := link_up w |} w' ->
  round_ok session_id w w'.
Proof.
  intros Hc (Hl & Hs & Hc'). cbn [cm sent link_up] in *.
  split; [exact Hl|]. split; [exact Hs|]. eapply cm_ok_trans; eassumption.
Qed.

Lemma update_ok (session_id : str) (w : world) (c1 : ConnectionManager) :
  cm_ok session_id (cm w) c1 ->
  round_ok session_id w {| cm := c1; sent := sent w; link_up := link_up w |}.
Proof.
  intros Hc. split; [reflexivity|]. split; [left; reflexivity | exact Hc].
Qed.

(** [process_remaining_text] never raises. *)
Lemma process_remaining_text_ok (session_id : str) (w : world) :
  fst (process_remaining_text session_id w) = Ok tt
  /\ (snd (process_remaining_text session_id w) = w
      \/ snd (process_remaining_text session_id w)
         = snd (process_text_buffer session_id w)).
Proof.
  unfold Handler.process_remaining_text, try_except, bind, gets.
  destruct (Engine.is_blank U (Registry.get_text_buffer session_id (cm w)));
    [split; [reflexivity | left; reflexivity]|].
  destruct (process_text_buffer_ok U resample mock_sample tts_engine session_id w)
    as [_ Hraise].
  destruct (process_text_buffer session_id w) as [[[]|e] w1] eqn:E; cbn [fst snd] in *.
  - split; [reflexivity | right; reflexivity].
  - split; [reflexivity | right; reflexivity].
Qed.

(** The body of a round: within [round_ok], and if it raises, nothing has
    been sent in it. *)
Lemma loop_body_ok (session_id : str) (ev : event) (w : world) :
  round_ok session_id w (snd (loop_body session_id ev w))
  /\ (forall e, fst (loop_body session_id ev w) = Raise e ->
                sent (snd (loop_body session_id ev w)) = sent w).
Proof.
  destruct ev as [[| message |]|]; cbn [Handler.loop_body raise fst snd];
    try (split; [apply round_ok_refl | reflexivity]).
  unfold Handler.dispatch.
  destruct (registry_update_ok session_id [] (cm w)) as (Hinit & _ & _).
  destruct (message !! u "text") as [[| | |text|]|].
  1-3, 5: unfold bind, gets, raise, ret;
    destruct (session_data (cm w) !! session_id); cbn [fst snd];
    (split; [apply round_ok_refl | reflexivity]).
  - destruct (str_eqb text (u " ")).
    { unfold bind, update_cm, ret. cbn [fst snd].
      split; [apply update_ok, Hinit | no_raise]. }
    destruct (str_eqb text []).
    { unfold bind.
      destruct (process_remaining_text_ok session_id w) as [Hf Hs].
      destruct (process_text_buffer_ok U resample mock_sample tts_engine session_id w)
        as [Hok _].
      destruct (process_remaining_text session_id w) as [[[]|e] w1];
        cbn [fst snd] in *; [|discriminate].
      unfold ret. cbn [fst snd]. split; [|no_raise].
      destruct Hs as [->| ->]; [apply round_ok_refl | exact Hok]. }
    destruct (registry_update_ok session_id text (cm w)) as (_ & Hadd & _).
    set (w1 := {| cm := Registry.add_text_chunk session_id text (cm w);
                  sent := sent w; link_up := link_up w |}).
    assert (Hw1 : round_ok session_id w w1) by (apply update_ok, Hadd).
    change ((update_cm (Registry.add_text_chunk session_id text);;;
             go <- gets (fun w0 => Segmentation.should_process_text U (cm w0)
                                     session_id);;
             (if go then process_text_buffer session_id;;; ret Continue
              else ret Continue)) w)
      with ((if Segmentation.should_process_text U (cm w1) session_id
             then process_text_buffer session_id;;; ret Continue
             else ret Continue) w1).
    destruct (Segmentation.should_process_text U (cm w1) session_id).
    + unfold bind.
      destruct (process_text_buffer_ok U resample mock_sample tts_engine session_id w1)
        as [Hok Hraise].
      destruct (process_text_buffer session_id w1) as [[[]|e] w2];
        cbn [fst snd] in *; unfold ret; cbn [fst snd].
      * split; [|no_raise]. eapply round_ok_after_update; eassumption.
      * split; [eapply round_ok_after_update; eassumption|].
        intros _ _. rewrite (Hraise e eq_refl). reflexivity.
    + unfold ret. cbn [fst snd]. split; [exact Hw1 | no_raise].
  - destruct (truthy (message !! u "flush")).
    { unfold bind.
      destruct (process_text_buffer_ok U resample mock_sample tts_engine session_id w)
        as [Hok Hraise].
      destruct (process_text_buffer session_id w) as [[[]|e] w2];
        cbn [fst snd] in *; unfold ret; cbn [fst snd].
      - split; [exact Hok | no_raise].
      - split; [exact Hok|]. intros _ _. rewrite (Hraise e eq_refl). reflexivity. }
    destruct (truthy (message !! u "reset")).
    { unfold bind, update_cm, ret. cbn [fst snd].
      split; [apply update_ok, Hinit | no_raise]. }
    unfold ret. cbn [fst snd]. split; [apply round_ok_refl | no_raise].
Qed.

(** A round never raises and stays within [round_ok]. *)
Lemma loop_round_ok (session_id : str) (ev : event) (w : world) :
  (exists c, fst (loop_round session_id ev w) = Ok c)
  /\ round_ok session_id w (snd (loop_round session_id ev w)).
Proof.
  unfold Handler.loop_round, try_except.
  destruct (loop_body_ok session_id ev w) as [Hok Hraise].
  destruct (loop_body session_id ev w) as [[c|e] w1]; cbn [fst snd] in *.
  - split; [eauto | exact Hok].
  - specialize (Hraise e eq_refl). destruct Hok as (Hl & _ & Hc).
    assert (Hsame : round_ok session_id w w1).
    { split; [exact Hl|]. split; [left; exact Hraise | exact Hc]. }
    assert (Hsend : forall msg,
               round_ok session_id w (snd (send_text msg w1))
               /\ (fst (send_text msg w1) = Ok tt
                   \/ snd (send_text msg w1) = w1)).
    { intros msg. unfold send_text. destruct (link_up w1) eqn:Hl1; cbn [fst snd].
      - split; [|left; reflexivity]. split; [cbn; congruence|].
        split; [right; exists msg; cbn; congruence | exact Hc].
      - split; [exact Hsame | right; reflexivity]. }
    destruct e; unfold bind, ret.
    + split; [eauto | exact Hsame].
    + destruct (Hsend (OutError (u "Invalid JSON format"))) as [H1 H2].
      destruct (send_text (OutError (u "Invalid JSON format")) w1) as [[[]|e'] w2];
        cbn [fst snd] in *; split; eauto.
    + destruct (Hsend (OutError (u "Processing error"))) as [H1 H2].
      destruct (send_text (OutError (u "Processing error")) w1) as [[[]|e'] w2];
        cbn [fst snd] in *; split; eauto.
Qed.

(** What a run of the loop may do: as [round_ok], with at most one
    message for each frame. *)
Definition run_ok (session_id : str) (n : nat) (w w' : world) : Prop :=
  link_up w' = link_up w
  /\ (exists out, sent w' = sent w ++ out /\ length out <= n)
  /\ cm_ok session_id (cm w) (cm w').

Lemma message_loop_ok (session_id : str) (events : list event) :
  forall w,
    (exists c, fst (message_loop session_id events w) = Ok c)
    /\ run_ok session_id (length events) w
         (snd (message_loop session_id events w)).
Proof.
  induction events as [|ev events IH]; intros w; cbn [Handler.message_loop length].
  - unfold ret. cbn [fst snd]. split; [eauto|].
    split; [reflexivity|]. split; [|apply cm_ok_refl].
    exists []. rewrite app_nil_r. split; [reflexivity | cbn; lia].
  - unfold bind.
    destruct (loop_round_ok session_id ev w) as [[c Hc] (Hl & Hs & Hcm)].
    destruct (loop_round session_id ev w) as [r w1]. cbn [fst snd] in *.
    subst r.
    assert (Hstep : exists out, sent w1 = sent w ++ out /\ length out <= 1).
    { destruct Hs as [Hs|[m Hs]]; rewrite Hs.
      - exists []. rewrite app_nil_r. split; [reflexivity | cbn; lia].
      - exists [m]. split; [reflexivity | cbn; lia]. }
    destruct c.
    + destruct (IH w1) as [Hres (Hl' & (out' & Hs' & Hn') & Hcm')].
      split; [exact Hres|].
      destruct Hstep as (out & Hout & Hn).
      split; [congruence|]. split; [|eapply cm_ok_trans; eassumption].
      exists (out ++ out'). rewrite Hs', Hout, app_assoc, length_app.
      split; [reflexivity | lia].
    + unfold ret. cbn [fst snd]. split; [eauto|].
      destruct Hstep as (out & Hout & Hn).
      split; [exact Hl|]. split; [|exact Hcm].
      exists out. split; [exact Hout | lia].
Qed.

Lemma websocket_endpoint_eq (now : Qc) (ws : websocket) (session_id : str)
    (events : list event) (w : world) :
  websocket_endpoint now ws session_id events w
  = match message_loop session_id events
            {| cm := Registry.connect now ws session_id (cm w);
               sent := sent w; link_up := link_up w |} with
    | (Ok Continue, w1) => (Ok Continue, w1)
    | (Ok Break, w1) =>
        (Ok Break, {| cm := Registry.disconnect session_id (cm w1);
                      sent := sent w1; link_up := link_up w1 |})
    | (Raise e, w1) => (Raise e, w1)
    end.
Proof.
  unfold Handler.websocket_endpoint, bind, update_cm, ret.
  destruct (message_loop session_id events _) as [[[|]|e] w1]; reflexivity.
Qed.

(** X18.  Whatever the frames, the endpoint of one session returns normally,
    sends at most one message for each frame, and leaves every other
    session's record and socket as they were. *)
Theorem endpoint_is_bounded_and_local (now : Qc) (ws : websocket)
    (session_id : str) (events : list event) (w : world) :
  let r := websocket_endpoint now ws session_id events w in
  (exists c, fst r = Ok c)
  /\ link_up (snd r) = link_up w
  /\ (exists out, sent (snd r) = sent w ++ out /\ length out <= length events)
  /\ same_others session_id (cm w) (cm (snd r)).
Proof.
  cbn zeta. rewrite websocket_endpoint_eq.
  set (w0 := {| cm := Registry.connect now ws session_id (cm w);
                sent := sent w; link_up := link_up w |}).
  assert (Hconn : same_others session_id (cm w) (cm w0)).
  { intros other Hne. cbn. rewrite !lookup_insert_ne by congruence.
    split; reflexivity. }
  destruct (message_loop_ok session_id events w0) as [[c Hc] (Hl & Hs & Hcm)].
  destruct (message_loop session_id events w0) as [r w1]. cbn [fst snd] in *.
  subst r. destruct Hcm as (Ho & _ & _).
  assert (Htrans : same_others session_id (cm w) (cm w1)).
  { intros other Hne. destruct (Hconn other Hne), (Ho other Hne).
    split; congruence. }
  destruct c; cbn [fst snd cm sent link_up].
  - split; [eauto|]. split; [exact Hl|]. split; [exact Hs | exact Htrans].
  - split; [eauto|]. split; [exact Hl|]. split; [exact Hs|].
    intros other Hne. destruct (Htrans other Hne).
    unfold Registry.disconnect. cbn.
    rewrite !lookup_delete_ne by congruence. split; assumption.
Qed.

(** X19.  While the loop waits for a frame the session is registered with its
    socket; once the loop is left the session is gone from the registry. *)
Theorem endpoint_registers_until_it_ends (now : Qc) (ws : websocket)
    (session_id : str) (events : list event) (w : world) :
  let r := websocket_endpoint now ws session_id events w in
  match fst r with
  | Ok Continue =>
      is_Some (session_data (cm (snd r)) !! session_id)
      /\ active_connections (cm (snd r)) !! session_id = Some ws
  | Ok Break =>
      session_data (cm (snd r)) !! session_id = None
      /\ active_connections (cm (snd r)) !! session_id = None
  | Raise _ => False
  end.
Proof.
  cbn zeta. rewrite websocket_endpoint_eq.
  set (w0 := {| cm := Registry.connect now ws session_id (cm w);
                sent := sent w; link_up := link_up w |}).
  destruct (message_loop_ok session_id events w0) as [[c Hc] (_ & _ & Hcm)].
  destruct (message_loop session_id events w0) as [r w1]. cbn [fst snd] in *.
  subst r. destruct Hcm as (_ & Ha & Hp).
  destruct c; cbn [fst snd cm sent link_up].
  - split.
    + apply Hp. cbn. rewrite lookup_insert_eq. eauto.
    + rewrite Ha. cbn. apply lookup_insert_eq.
  - unfold Registry.disconnect. cbn. rewrite !lookup_delete_eq. split; reflexivity.
Qed.

(** A text that is neither the init marker nor the close marker. *)
Definition is_chunk (text : str) : Prop :=
  str_eqb text (u " ") = false /\ str_eqb text [] = false.

(** A round with a chunk: the loop goes on, and the registry is the one
    with the chunk appended, its buffer cleared or not. *)
Lemma loop_round_chunk_cm (session_id text : str) (w : world) :
  is_chunk text ->
  fst (loop_round session_id (text_frame text) w) = Ok Continue
  /\ (cm (snd (loop_round session_id (text_frame text) w))
       = Registry.add_text_chunk session_id text (cm w)
      \/ cm (snd (loop_round session_id (text_frame text) w))
         = Registry.clear_text_buffer session_id
             (Registry.add_text_chunk session_id text (cm w))).
Proof.
  intros [Hmark Hempty].
  unfold Handler.loop_round, try_except, text_frame, Handler.loop_body,
    Handler.dispatch.
  rewrite lookup_singleton_eq, Hmark, Hempty.
  set (w1 := {| cm := Registry.add_text_chunk session_id text (cm w);
                sent := sent w; link_up := link_up w |}).
  change ((update_cm (Registry.add_text_chunk session_id text);;;
           go <- gets (fun w0 => Segmentation.should_process_text U (cm w0)
                                   session_id);;
           (if go then process_text_buffer session_id;;; ret Continue
            else ret Continue)) w)
    with ((if Segmentation.should_process_text U (cm w1) session_id
           then process_text_buffer session_id;;; ret Continue
           else ret Continue) w1).
  destruct (Segmentation.should_process_text U (cm w1) session_id);
    [|split; [reflexivity | left; reflexivity]].
  unfold bind.
  destruct (process_text_buffer_cases U resample mock_sample tts_engine session_id w1)
    as [E | [(result & chunk_text & Hl & E) | [Hl E]]]; rewrite E;
    cbn [fst snd cm].
  - split; [reflexivity | left; reflexivity].
  - split; [reflexivity | right; reflexivity].
  - unfold send_text, ret. rewrite Hl. cbn [fst snd cm].
    split; [reflexivity | left; reflexivity].
Qed.

Lemma full_text_after_chunk (session_id text : str) (c c' : ConnectionManager)
    (d : session) :
  session_data c !! session_id = Some d ->
  c' = Registry.add_text_chunk session_id text c
  \/ c' = Registry.clear_text_buffer session_id
            (Registry.add_text_chunk session_id text c) ->
  exists d', session_data c' !! session_id = Some d'
             /\ full_text d' = full_text d ++ text.
Proof.
  intros Hd [-> | ->]; unfold Registry.clear_text_buffer, Registry.add_text_chunk;
    rewrite Hd; cbn [session_data]; rewrite ?lookup_insert_eq;
    cbn [session_data]; rewrite ?lookup_insert_eq; eauto.
Qed.

(** X20.  The transcript is everything that was appended, in arrival order: after
    any run of chunk frames, whether passes were triggered, went through or
    failed, [full_text] is what it was followed by the chunks. *)
Theorem transcript_accumulates (session_id : str) (texts : list str) :
  forall (w : world) (d : session),
    session_data (cm w) !! session_id = Some d ->
    Forall is_chunk texts ->
    fst (message_loop session_id (List.map text_frame texts) w) = Ok Continue
    /\ exists d',
         session_data (cm (snd (message_loop session_id
                                  (List.map text_frame texts) w))) !! session_id
         = Some d'
         /\ full_text d' = full_text d ++ List.concat texts.
Proof.
  induction texts as [|text texts IH]; intros w d Hd Hall;
    cbn [List.map Handler.message_loop List.concat].
  - unfold ret. cbn [fst snd]. split; [reflexivity|].
    exists d. rewrite app_nil_r. auto.
  - inversion Hall as [|? ? Hchunk Hrest]; subst.
    destruct (loop_round_chunk_cm session_id text w Hchunk) as [Hc Hcm].
    unfold bind.
    destruct (loop_round session_id (text_frame text) w) as [r w1].
    cbn [fst snd] in *. subst r.
    destruct (full_text_after_chunk session_id text (cm w) (cm w1) d Hd Hcm)
      as (d1 & Hd1 & Hf1).
    destruct (IH w1 d1 Hd1 Hrest) as [Hres (d' & Hd' & Hf')].
    split; [exact Hres|]. exists d'. split; [exact Hd'|].
    rewrite Hf', Hf1, <- app_assoc. reflexivity.
Qed.

(** X21.  A frame that is not JSON is answered with one error message and the
    loop goes on; a JSON value that is not an object is answered with
    ["Processing error"]; a lost connection ends the loop.  None of them
    touches the registry, and with the link down nothing is sent. *)
Theorem frame_errors (session_id : str) (w : world) :
  let reply msg :=
    {| cm := cm w; sent := sent w ++ [OutError msg]; link_up := link_up w |} in
  loop_round session_id (Recv FMalformed) w
    = (if link_up w then (Ok Continue, reply (u "Invalid JSON format"))
       else (Ok Break, w))
  /\ loop_round session_id (Recv FOther) w
     = (if link_up w then (Ok Continue, reply (u "Processing error"))
        else (Ok Continue, w))
  /\ loop_round session_id Disconnect w = (Ok Break, w).
Proof.
  cbn zeta. unfold Handler.loop_round, try_except, Handler.loop_body, raise, bind,
    send_text, ret.
  destruct (link_up w); repeat split.
Qed.

(** An object with none of the keys [text], [flush] and [reset], or with
    falsy [flush] and [reset], is ignored: nothing is sent and nothing
    changes. *)
Theorem unrecognised_object_is_ignored (session_id : str)
    (message : gmap str jval) (w : world) :
  message !! u "text" = None ->
  truthy (message !! u "flush") = false ->
  truthy (message !! u "reset") = false ->
  loop_round session_id (Recv (FObject message)) w = (Ok Continue, w).
Proof.
  intros Ht Hf Hr.
  unfold Handler.loop_round, try_except, Handler.loop_body, Handler.dispatch.
  rewrite Ht, Hf, Hr. reflexivity.
Qed.

(** Closing at once: on a fresh connection the frame [{"text": ""}] sends
    nothing, ends the loop and removes the session, whatever the registry
    held before. *)
Theorem immediate_close_is_silent (now : Qc) (ws : websocket)
    (session_id : str) (w : world) :
  websocket_endpoint now ws session_id [text_frame []] w
  = (Ok Break,
     {| cm := Registry.disconnect session_id
                (Registry.connect now ws session_id (cm w));
        sent := sent w; link_up := link_up w |}).
Proof.
  rewrite websocket_endpoint_eq. cbn [Handler.message_loop].
  unfold bind, Handler.loop_round, try_except, text_frame, Handler.loop_body,
    Handler.dispatch.
  rewrite lookup_singleton_eq.
  change (str_eqb [] (u " ")) with false. change (str_eqb [] []) with true.
  cbn iota. unfold bind, Handler.process_remaining_text, try_except, bind, gets.
  cbn [cm]. unfold Registry.get_text_buffer at 1, Registry.connect at 1.
  cbn [session_data]. rewrite lookup_insert_eq. cbn [text_buffer].
  rewrite is_blank_nil. reflexivity.
Qed.

End HandlerRounds.

Lemma transcript_accumulates_witness :
  let w := world_with_buffer [] in
  exists d d',
    session_data (cm w) !! u "s1" = Some d
    /\ Forall is_chunk [u "Hello "; u "there"]
    /\ session_data
         (cm (snd (Handler.message_loop ascii_tables (fun x _ => x)
                     (fun _ _ _ => of_Z 0) ready_mock_engine (u "s1")
                     (List.map text_frame [u "Hello "; u "there"]) w))) !! u "s1"
       = Some d'
    /\ full_text d' = full_text d ++ List.concat [u "Hello "; u "there"].
Proof.
  cbv zeta.
  assert (Hd : session_data (cm (world_with_buffer [])) !! u "s1"
               = Some (fresh_session (of_Z 0))) by (vm_compute; reflexivity).
  assert (Hall : Forall is_chunk [u "Hello "; u "there"])
    by (repeat constructor).
  destruct (transcript_accumulates ascii_tables (fun x _ => x) (fun _ _ _ => of_Z 0)
              ready_mock_engine (u "s1") [u "Hello "; u "there"]
              (world_with_buffer []) _ Hd Hall) as [_ (d' & Hd' & Hf)].
  exists (fresh_session (of_Z 0)), d'. auto.
Defined.

Lemma unrecognised_object_is_ignored_witness :
  let message : gmap str jval := {[ u "ping" := JNum 1 ]} in
  message !! u "text" = None
  /\ Handler.loop_round ascii_tables (fun x _ => x) (fun _ _ _ => of_Z 0)
       ready_mock_engine (u "s1") (Recv (FObject message)) (world_with_buffer [])
     = (Ok Continue, world_with_buffer []).
Proof.
  cbv zeta.
  assert (H1 : ({[ u "ping" := JNum 1 ]} : gmap str jval) !! u "text" = None)
    by (vm_compute; reflexivity).
  assert (H2 : truthy (({[ u "ping" := JNum 1 ]} : gmap str jval) !! u "flush")
               = false) by (vm_compute; reflexivity).
  assert (H3 : truthy (({[ u "ping" := JNum 1 ]} : gmap str jval) !! u "reset")
               = false) by (vm_compute; reflexivity).
  split; [exact H1|].
  apply (unrecognised_object_is_ignored ascii_tables (fun x _ => x)
           (fun _ _ _ => of_Z 0) ready_mock_engine (u "s1") _ _ H1 H2 H3).
Defined.


(** * Further properties of the matcher *)

(** Whether a pattern can consume the character at all. *)
Fixpoint accepts (U : unicode_tables) (r : regex) (c : char) : bool :=
  match r with
  | Eps | Bound => false
  | Chr x => char_eqb x c
  | ChrI x => caseless_eqb U x c
  | Set_ neg items => set_match neg items c
  | Cat k => cat_match U k c
  | Seq a b | Alt a b => accepts U a c || accepts U b c
  | Star a | Plus a | Opt a | Group _ a => accepts U a c
  end.

(** Whether every match of the pattern has the character in it. *)
Fixpoint requires (r : regex) (c : char) : bool :=
  match r with
  | Chr x => char_eqb x c
  | Seq a b => requires a c || requires b c
  | Alt a b => requires a c && requires b c
  | Plus a | Group _ a => requires a c
  | _ => false
  end.

(** Every captured group is made of characters with property [P]. *)
Definition caps_in (P : char -> Prop) (caps : captures) : Prop :=
  forall n v, In (n, v) caps -> Forall P v.

Section MatcherInvariant.
Context (U : unicode_tables) (P : char -> Prop).

(** What a successful run of a matcher on [s] with continuation [k] comes
    to: [k] was called at the end of a prefix of [s] made of characters
    the pattern accepts, with groups still within [P]. *)
Definition run_inv (A M : char -> bool) (s : str) (caps : captures) (k : cont)
    (res : mstate) : Prop :=
  exists p' pre s' caps',
    s = pre ++ s'
    /\ Forall (fun c => A c = true) pre
    /\ (forall c, M c = true -> In c pre)
    /\ (caps_in P caps -> Forall P s -> caps_in P caps')
    /\ k p' s' caps' = Some res.

Lemma run_inv_weaken (A B M N : char -> bool) (s : str) (caps : captures)
    (k : cont) (res : mstate) :
  (forall c, A c = true -> B c = true) ->
  (forall c, N c = true -> M c = true) ->
  run_inv A M s caps k res -> run_inv B N s caps k res.
Proof.
  intros HAB HNM (p' & pre & s' & caps' & Hs & Hpre & Hm & Hc & Hk).
  exists p', pre, s', caps'. repeat split; try assumption.
  - eapply Forall_impl; [exact Hpre | exact HAB].
  - intros c Hc'. apply Hm, HNM, Hc'.
Qed.

Lemma run_inv_here (A : char -> bool) (prev : option char) (s : str)
    (caps : captures) (k : cont) (res : mstate) :
  k prev s caps = Some res -> run_inv A (fun _ => false) s caps k res.
Proof.
  intros Hk. exists prev, [], s, caps. repeat split; auto. discriminate.
Qed.

Lemma one_char_inv (p : char -> bool) (s : str) (caps : captures) (k : cont)
    (res : mstate) :
  one_char p s caps k = Some res -> run_inv p (fun _ => false) s caps k res.
Proof.
  unfold one_char. destruct s as [|c s]; [discriminate|].
  destruct (p c) eqn:Hc; [|discriminate]. intros Hk.
  exists (Some c), [c], s, caps. repeat split; auto. discriminate.
Qed.

Lemma literal_inv (x : char) (s : str) (caps : captures) (k : cont)
    (res : mstate) :
  one_char (char_eqb x) s caps k = Some res ->
  run_inv (char_eqb x) (char_eqb x) s caps k res.
Proof.
  unfold one_char. destruct s as [|c s]; [discriminate|].
  destruct (char_eqb x c) eqn:Hc; [|discriminate]. intros Hk.
  exists (Some c), [c], s, caps. repeat split; auto.
  intros c' Hc'. unfold char_eqb in *. apply N.eqb_eq in Hc, Hc'.
  left. congruence.
Qed.

(** Two runs one after the other. *)
Lemma run_inv_seq (A B M N : char -> bool) (s : str) (caps : captures)
    (kb : option char -> str -> captures -> cont -> option mstate)
    (k : cont) (res : mstate) :
  (forall p1 s1 c1 res', kb p1 s1 c1 k = Some res' -> run_inv B N s1 c1 k res') ->
  run_inv A M s caps (fun p1 s1 c1 => kb p1 s1 c1 k) res ->
  run_inv (fun c => A c || B c) (fun c => M c || N c) s caps k res.
Proof.
  intros Hb (p1 & pre1 & s1 & caps1 & Hs1 & Hpre1 & Hm1 & Hc1 & Hk1).
  destruct (Hb _ _ _ _ Hk1)
    as (p2 & pre2 & s2 & caps2 & Hs2 & Hpre2 & Hm2 & Hc2 & Hk2).
  exists p2, (pre1 ++ pre2), s2, caps2. repeat split.
  - rewrite Hs1, Hs2, app_assoc. reflexivity.
  - apply Forall_app. split; (eapply Forall_impl; [eassumption|]);
      cbn beta; intros c Hc; rewrite Hc; [reflexivity | apply orb_true_r].
  - intros c Hc. apply in_or_app. apply orb_true_iff in Hc as [Hc|Hc]; auto.
  - intros Hcaps HP. apply Hc2; [apply Hc1; assumption|].
    rewrite Hs1 in HP. apply Forall_app in HP. tauto.
  - exact Hk2.
Qed.

Lemma star_loop_inv (A : char -> bool)
    (body : option char -> str -> captures -> cont -> option mstate) :
  (forall prev s caps k res,
     body prev s caps k = Some res ->
     exists M, run_inv A M s caps k res) ->
  forall fuel prev s caps k res,
    star_loop body fuel prev s caps k = Some res ->
    run_inv A (fun _ => false) s caps k res.
Proof.
  intros Hbody. induction fuel as [|f IH]; intros prev s caps k res;
    cbn [star_loop].
  - apply run_inv_here.
  - destruct (body prev s caps _) as [r|] eqn:E.
    + intros [= ->]. apply Hbody in E.
      destruct E as (M & p1 & pre1 & s1 & caps1 & Hs1 & Hpre1 & _ & Hc1 & Hk1).
      destruct (length s1 <? length s); [|discriminate].
      apply IH in Hk1.
      destruct Hk1 as (p2 & pre2 & s2 & caps2 & Hs2 & Hpre2 & _ & Hc2 & Hk2).
      exists p2, (pre1 ++ pre2), s2, caps2. repeat split.
      * rewrite Hs1, Hs2, app_assoc. reflexivity.
      * apply Forall_app. split; assumption.
      * discriminate.
      * intros Hcaps HP. apply Hc2; [apply Hc1; assumption|].
        rewrite Hs1 in HP. apply Forall_app in HP. tauto.
      * exact Hk2.
    + apply run_inv_here.
Qed.

Lemma set_cap_in (n : nat) (v : str) (caps : captures) :
  Forall P v -> caps_in P caps -> caps_in P (set_cap n v caps).
Proof.
  intros Hv Hcaps m x [[= <- <-]|Hin]; [exact Hv|].
  apply filter_In in Hin as [Hin _]. exact (Hcaps _ _ Hin).
Qed.

Lemma consumed_in (s s' : str) : Forall P s -> Forall P (consumed s s').
Proof.
  intros H. unfold consumed. rewrite <- (firstn_skipn (length s - length s') s) in H.
  apply Forall_app in H. tauto.
Qed.

(** The matcher's invariant, for every pattern. *)
Lemma rmatch_inv (r : regex) :
  forall prev s caps k res,
    rmatch U r prev s caps k = Some res ->
    run_inv (accepts U r) (requires r) s caps k res.
Proof.
  induction r as [| x | x | neg items | cat | | a IHa b IHb | a IHa b IHb
                  | a IHa | a IHa | a IHa | n a IHa];
    intros prev s caps k res; cbn [rmatch accepts requires].
  - apply run_inv_here.
  - apply literal_inv.
  - apply one_char_inv.
  - apply one_char_inv.
  - apply one_char_inv.
  - destruct (at_boundary U prev s); [apply run_inv_here | discriminate].
  - intros H. apply IHa in H.
    apply (run_inv_seq (accepts U a) (accepts U b) (requires a) (requires b)
             s caps (fun p1 s1 c1 k => rmatch U b p1 s1 c1 k) k res); [|exact H].
    intros p1 s1 c1 res' H'. exact (IHb _ _ _ _ _ H').
  - destruct (rmatch U a prev s caps k) as [x|] eqn:E.
    + intros [= ->]. apply IHa in E.
      eapply run_inv_weaken; [| |exact E].
      * intros c ->. reflexivity.
      * intros c Hc. apply andb_true_iff in Hc. tauto.
    + intros H. apply IHb in H.
      eapply run_inv_weaken; [| |exact H].
      * intros c ->. apply orb_true_r.
      * intros c Hc. apply andb_true_iff in Hc. tauto.
  - intros H. apply (star_loop_inv (accepts U a) (rmatch U a)) in H; [exact H|].
    intros p1 s1 c1 k1 res' H'. exists (requires a). exact (IHa _ _ _ _ _ H').
  - intros H. apply IHa in H.
    pose proof (run_inv_seq (accepts U a) (accepts U a) (requires a)
                  (fun _ => false) s caps
                  (fun p1 s1 c1 k => star_loop (rmatch U a) (S (length s1)) p1 s1 c1 k)
                  k res) as Hseq.
    eapply run_inv_weaken; [| |apply Hseq; [|exact H]].
    + intros c Hc. apply orb_true_iff in Hc. tauto.
    + intros c Hc. cbn beta. rewrite Hc. reflexivity.
    + intros p1 s1 c1 res' H'.
      apply (star_loop_inv (accepts U a) (rmatch U a)) in H'; [exact H'|].
      intros p2 s2 c2 k2 res2 H2. exists (requires a). exact (IHa _ _ _ _ _ H2).
  - destruct (rmatch U a prev s caps k) as [x|] eqn:E.
    + intros [= ->]. apply IHa in E.
      eapply run_inv_weaken; [| |exact E]; [auto | discriminate].
    + apply run_inv_here.
  - intros H. apply IHa in H.
    destruct H as (p1 & pre1 & s1 & caps1 & Hs1 & Hpre1 & Hm1 & Hc1 & Hk1).
    exists p1, pre1, s1, (set_cap n (consumed s s1) caps1). repeat split; auto.
    intros Hcaps HP. apply set_cap_in; [apply consumed_in, HP | auto].
Qed.

(** A match at a position: the matched text is made of acceptable
    characters, has every required character in it, and the groups are
    made of characters of the text. *)
Lemma match_here_inv (r : regex) (prev : option char) (s rest : str)
    (caps : captures) :
  match_here U r prev s = Some (rest, caps) ->
  exists pre,
    s = pre ++ rest
    /\ Forall (fun c => accepts U r c = true) pre
    /\ (forall c, requires r c = true -> In c pre)
    /\ (Forall P s -> caps_in P caps).
Proof.
  unfold match_here.
  destruct (rmatch U r prev s [] _) as [[[p s'] c]|] eqn:E; [|discriminate].
  intros [= <- <-]. apply rmatch_inv in E.
  destruct E as (p1 & pre1 & s1 & caps1 & Hs1 & Hpre1 & Hm1 & Hc1 & [= <- <- <-]).
  exists pre1. repeat split; auto. intros HP. apply Hc1; [|exact HP].
  intros n v [].
Qed.

End MatcherInvariant.

(** The literal parts of a replacement template are within [P]. *)
Definition template_in (P : char -> Prop) (repl : list tpart) : Prop :=
  Forall (fun p => match p with TLit t => Forall P t | TRef _ => True end) repl.

Lemma get_cap_in (P : char -> Prop) (n : nat) (caps : captures) :
  caps_in P caps -> Forall P (get_cap n caps).
Proof.
  induction caps as [|[m v] caps IH]; intros H; cbn [get_cap]; [constructor|].
  destruct (m =? n)%nat.
  - apply (H m v). left. reflexivity.
  - apply IH. intros k x Hin. apply (H k x). right. exact Hin.
Qed.

Lemma expand_in (P : char -> Prop) (repl : list tpart) (caps : captures) :
  template_in P repl -> caps_in P caps -> Forall P (expand repl caps).
Proof.
  intros Ht Hc. unfold expand.
  induction Ht as [|p repl Hp _ IH]; cbn [List.map List.concat]; [constructor|].
  apply Forall_app. split; [|exact IH].
  destruct p; [exact Hp | apply get_cap_in, Hc].
Qed.

(** [re.sub] makes its result of characters of the text and of the
    template. *)
Lemma sub_from_in (U : unicode_tables) (P : char -> Prop) (r : regex)
    (repl : list tpart) (s : str) :
  template_in P repl ->
  Forall P s ->
  forall prev skip, Forall P (sub_from U r repl prev s skip).
Proof.
  intros Ht. induction s as [|c s IH]; intros Hs prev skip.
  - destruct skip; cbn [sub_from]; [|constructor].
    destruct (match_here U r prev []) as [[rest caps]|] eqn:E; [|constructor].
    rewrite app_nil_r. apply expand_in; [exact Ht|].
    destruct (match_here_inv U P r prev [] rest caps E) as (_ & _ & _ & _ & Hc).
    apply Hc. constructor.
  - inversion Hs as [|? ? Hc Hs']; subst.
    destruct skip as [|n]; cbn [sub_from]; [|apply IH, Hs'].
    destruct (match_here U r prev (c :: s)) as [[rest caps]|] eqn:E.
    + apply Forall_app. split.
      * apply expand_in; [exact Ht|].
        destruct (match_here_inv U P r prev (c :: s) rest caps E)
          as (_ & _ & _ & _ & Hcaps).
        apply Hcaps, Hs.
      * destruct (length (c :: s) - length rest);
          [constructor; [exact Hc|] |]; apply IH, Hs'.
    + constructor; [exact Hc | apply IH, Hs'].
Qed.

Lemma re_sub_in (U : unicode_tables) (P : char -> Prop) (r : regex)
    (repl : list tpart) (s : str) :
  template_in P repl -> Forall P s -> Forall P (re_sub U r repl s).
Proof.
  intros Ht Hs. apply sub_from_in; assumption.
Qed.

(** [re.sub] keeps every character the pattern cannot consume. *)
Lemma sub_from_keeps (U : unicode_tables) (r : regex) (repl : list tpart)
    (c : char) (s : str) :
  accepts U r c = false ->
  forall prev skip,
    Forall (fun x => accepts U r x = true) (firstn skip s) ->
    In c s ->
    In c (sub_from U r repl prev s skip).
Proof.
  intros Hc. induction s as [|x s IH]; intros prev skip Hskip Hin;
    [destruct Hin|].
  destruct skip as [|n]; cbn [sub_from].
  - destruct (match_here U r prev (x :: s)) as [[rest caps]|] eqn:E.
    + apply in_or_app. right.
      destruct (match_here_inv U (fun _ => True) r prev (x :: s) rest caps E)
        as (pre & Hs & Hpre & _ & _).
      assert (Hlen : length (x :: s) - length rest = length pre).
      { rewrite Hs, length_app. lia. }
      rewrite Hlen. destruct pre as [|y pre]; cbn [length].
      * destruct Hin as [->|Hin]; [left; reflexivity|].
        right. apply IH; [constructor | exact Hin].
      * cbn [app] in Hs. injection Hs as <- Hs.
        inversion Hpre as [|? ? Hx Hpre']; subst.
        destruct Hin as [->|Hin]; [congruence|].
        apply IH; [|exact Hin].
        rewrite firstn_app, Nat.sub_diag, firstn_all, firstn_O, app_nil_r.
        exact Hpre'.
    + destruct Hin as [->|Hin]; [left; reflexivity|].
      right. apply IH; [constructor | exact Hin].
  - cbn [firstn] in Hskip. inversion Hskip as [|? ? Hx Hskip']; subst.
    destruct Hin as [->|Hin]; [congruence|].
    apply IH; assumption.
Qed.

Lemma re_sub_keeps (U : unicode_tables) (r : regex) (repl : list tpart)
    (c : char) (s : str) :
  accepts U r c = false -> In c s -> In c (re_sub U r repl s).
Proof.
  intros Hc Hin. apply sub_from_keeps; [exact Hc | constructor | exact Hin].
Qed.

(** A pattern that needs a character the text does not have matches
    nowhere in it. *)
Lemma search_needs_required (U : unicode_tables) (r : regex) (c : char) (s : str) :
  requires r c = true -> ~ In c s ->
  forall prev, search_from U r prev s = false.
Proof.
  intros Hreq. induction s as [|x s IH]; intros Hnot prev; cbn [search_from].
  - destruct (match_here U r prev []) as [[rest caps]|] eqn:E; [|reflexivity].
    destruct (match_here_inv U (fun _ => True) r prev [] rest caps E)
      as (pre & Hs & _ & Hm & _).
    exfalso. apply Hnot. rewrite Hs. apply in_or_app. left. apply Hm, Hreq.
  - destruct (match_here U r prev (x :: s)) as [[rest caps]|] eqn:E.
    + destruct (match_here_inv U (fun _ => True) r prev (x :: s) rest caps E)
        as (pre & Hs & _ & Hm & _).
      exfalso. apply Hnot. rewrite Hs. apply in_or_app. left. apply Hm, Hreq.
    + apply IH. intros H. apply Hnot. right. exact H.
Qed.

Lemma re_sub_needs_required (U : unicode_tables) (r : regex) (repl : list tpart)
    (c : char) (s : str) :
  requires r c = true -> ~ In c s -> re_sub U r repl s = s.
Proof.
  intros Hreq Hnot. apply re_sub_no_match. unfold re_search.
  apply (search_needs_required U r c s Hreq Hnot).
Qed.


(** * Further properties of the segmentation policy *)

(** X16.  No abbreviation pattern can consume an exclamation or a question mark,
    so one in the buffer survives the masking: such a buffer is always
    processed, however short and whatever abbreviations it holds. *)
Theorem exclamation_or_question_triggers (U : unicode_tables) (buffer : str) :
  In (ch "!") buffer \/ In (ch "?") buffer ->
  Segmentation.should_process_buffer U buffer = true.
Proof.
  intros H. unfold Segmentation.should_process_buffer.
  apply orb_true_iff. left. apply has_true_sentence_ending_spec.
  unfold Segmentation.text_without_abbrevs.
  destruct H as [H|H].
  - exists (ch "!"). split; [right; left; reflexivity|].
    apply re_sub_keeps; [vm_compute; reflexivity | exact H].
  - exists (ch "?"). split; [right; right; reflexivity|].
    apply re_sub_keeps; [vm_compute; reflexivity | exact H].
Qed.

Lemma exclamation_or_question_triggers_witness :
  In (ch "!") (u "Dr. No!")
  /\ Segmentation.should_process_buffer ascii_tables (u "Dr. No!") = true.
Proof.
  assert (H : In (ch "!") (u "Dr. No!")) by (vm_compute; tauto).
  split; [exact H|].
  apply (exclamation_or_question_triggers ascii_tables (u "Dr. No!")).
  left. exact H.
Defined.

(** The masking writes no ['.'], ['!'] or ['?']. *)
Lemma no_ending_no_sentence (U : unicode_tables) (buffer : str) :
  Forall (fun c => ~ is_ending c) buffer ->
  Segmentation.has_true_sentence_ending U buffer = false.
Proof.
  intros H.
  destruct (Segmentation.has_true_sentence_ending U buffer) eqn:E; [|reflexivity].
  apply has_true_sentence_ending_spec in E as (c & Hc & Hin).
  exfalso.
  assert (Hall : Forall (fun c => ~ is_ending c)
                        (Segmentation.text_without_abbrevs U buffer)).
  { apply re_sub_in; [|exact H].
    repeat constructor; unfold is_ending; intros [E|[E|E]]; discriminate E. }
  rewrite Forall_forall in Hall. apply (Hall c); [|exact Hc].
  apply list_elem_of_In. exact Hin.
Qed.

(** X17.  A buffer with no ['.'], ['!'] or ['?'] in it has no sentence ending,
    masked or not: it is processed exactly when its stripped length
    exceeds 100. *)
Theorem no_punctuation_only_length (U : unicode_tables) (buffer : str) :
  Forall (fun c => ~ is_ending c) buffer ->
  Segmentation.has_true_sentence_ending U buffer = false
  /\ Segmentation.should_process_buffer U buffer
     = (100 <? length (strip U buffer)).
Proof.
  intros H. pose proof (no_ending_no_sentence U buffer H) as Hno.
  split; [exact Hno|].
  unfold Segmentation.should_process_buffer. rewrite Hno. reflexivity.
Qed.

Lemma no_punctuation_only_length_witness :
  Forall (fun c => ~ is_ending c) (u "hello there")
  /\ Segmentation.should_process_buffer ascii_tables (u "hello there") = false.
Proof.
  assert (H : Forall (fun c => ~ is_ending c) (u "hello there")).
  { repeat constructor; unfold is_ending; intros [E|[E|E]]; discriminate E. }
  split; [exact H|].
  rewrite (proj2 (no_punctuation_only_length ascii_tables (u "hello there") H)).
  reflexivity.
Defined.


(** * Further properties of the normaliser *)

Lemma replace_from_in (P : char -> Prop) (old new : str) (s : str) :
  Forall P new -> Forall P s ->
  forall skip, Forall P (replace_from old new s skip).
Proof.
  intros Hnew Hs. induction Hs as [|c s Hc Hs IH]; intros skip;
    cbn [replace_from]; [constructor|].
  destruct skip; [|apply IH].
  destruct (startswith old (c :: s)).
  - apply Forall_app. split; [exact Hnew | apply IH].
  - constructor; [exact Hc | apply IH].
Qed.

Lemma replace_in (P : char -> Prop) (old new s : str) :
  Forall P new -> Forall P s -> Forall P (replace old new s).
Proof.
  intros Hnew Hs. unfold replace. destruct old as [|x old].
  - apply Forall_app. split; [exact Hnew|].
    induction Hs as [|c s Hc _ IH]; cbn [List.map List.concat]; [constructor|].
    constructor; [exact Hc|]. apply Forall_app. split; [exact Hnew | exact IH].
  - apply replace_from_in; assumption.
Qed.

(** Replacing a character by a text without it leaves none. *)
Lemma replace_char_absent (x : char) (new s : str) :
  ~ In x new -> ~ In x (replace [x] new s).
Proof.
  intros Hnew. unfold replace.
  induction s as [|c s IH]; cbn [replace_from]; [tauto|].
  cbn [startswith length Nat.sub]. rewrite andb_true_r.
  destruct s as [|c' s']; (destruct (char_eqb x c) eqn:E;
    [intros H; apply in_app_or in H as [H|H]; [tauto | exact (IH H)]
    |intros [H|H]; [|exact (IH H)];
     subst c; unfold char_eqb in E; rewrite N.eqb_refl in E; discriminate]).
Qed.

Lemma dropwhile_in (P : char -> Prop) (p : char -> bool) (s : str) :
  Forall P s -> Forall P (dropwhile p s).
Proof.
  induction 1 as [|c s Hc Hs IH]; cbn [dropwhile]; [constructor|].
  destruct (p c); [exact IH | constructor; assumption].
Qed.

Lemma strip_in (U : unicode_tables) (P : char -> Prop) (s : str) :
  Forall P s -> Forall P (strip U s).
Proof.
  intros H. unfold strip, rstrip, lstrip.
  apply Forall_rev, dropwhile_in, Forall_rev, dropwhile_in, H.
Qed.

Lemma fold_replace_in (P : char -> Prop) (table : list (str * str)) :
  Forall (fun kv => Forall P (snd kv)) table ->
  forall s, Forall P s ->
            Forall P (fold_left (fun acc kv => replace (fst kv) (snd kv) acc)
                                table s).
Proof.
  induction 1 as [|kv table Hkv _ IH]; intros s Hs; cbn [fold_left]; [exact Hs|].
  apply IH, replace_in; assumption.
Qed.

(** One of ['('], [')'], ['['], [']'], ['{'], ['}']. *)
Definition is_bracket (c : char) : bool := existsb (char_eqb c) (u "()[]{}").

Lemma no_bracket_of_forallb (l : str) :
  forallb (fun c => negb (is_bracket c)) l = true ->
  Forall (fun c => is_bracket c = false) l.
Proof.
  intros H. apply Forall_forall. intros c Hc.
  rewrite forallb_forall in H. apply list_elem_of_In in Hc.
  apply negb_true_iff, H, Hc.
Qed.

Ltac no_bracket_template :=
  repeat constructor; apply no_bracket_of_forallb; vm_compute; reflexivity.

Lemma absent_iff (x : char) (s : str) :
  Forall (fun c => c <> x) s <-> ~ In x s.
Proof.
  rewrite Forall_forall. split.
  - intros H Hin. apply (H x); [apply list_elem_of_In, Hin | reflexivity].
  - intros H c Hc ->. apply H, list_elem_of_In, Hc.
Qed.

Lemma absent_of_existsb (x : char) (s : str) :
  existsb (char_eqb x) s = false -> ~ In x s.
Proof.
  intros H Hin.
  assert (E : existsb (char_eqb x) s = true).
  { apply existsb_exists. exists x. split; [exact Hin|].
    unfold char_eqb. apply N.eqb_refl. }
  congruence.
Qed.

(** A chain of replacements, one of which replaces the character [x] and
    none of which writes it, leaves no [x]. *)
Lemma fold_replace_absent (x : char) (table : list (str * str)) :
  Forall (fun kv => ~ In x (snd kv)) table ->
  forall s,
    In [x] (List.map fst table) \/ ~ In x s ->
    ~ In x (fold_left (fun acc kv => replace (fst kv) (snd kv) acc) table s).
Proof.
  induction 1 as [|[k v] table Hkv _ IH]; intros s Hs; cbn [fold_left].
  - destruct Hs as [[]|Hs]. exact Hs.
  - cbn [fst snd List.map] in *. apply IH.
    destruct (decide (k = [x])) as [->|Hne].
    + right. apply replace_char_absent, Hkv.
    + destruct Hs as [[E|Hin]|Hs]; [congruence | left; exact Hin |].
      right. apply absent_iff, replace_in; apply absent_iff; assumption.
Qed.

(** The six bracket replacements of [process_mathematical_text]. *)
Definition bracket_words : list (str * str) :=
  [(u "(", u " open parenthesis "); (u ")", u " close parenthesis ");
   (u "[", u " open bracket "); (u "]", u " close bracket ");
   (u "{", u " open brace "); (u "}", u " close brace ")].

Lemma bracket_words_remove_brackets (s : str) :
  Forall (fun c => is_bracket c = false)
         (fold_left (fun acc kv => replace (fst kv) (snd kv) acc) bracket_words s).
Proof.
  set (t := fold_left _ bracket_words s).
  assert (H : forall x, In x (u "()[]{}") -> ~ In x t).
  { intros x Hx. apply fold_replace_absent.
    - cbn in Hx.
      repeat (destruct Hx as [<-|Hx];
              [repeat constructor; apply absent_of_existsb; vm_compute; reflexivity|]).
      destruct Hx.
    - left. cbn in Hx |- *.
      repeat (destruct Hx as [<-|Hx]; [tauto|]). destruct Hx. }
  apply Forall_forall. intros c Hc.
  destruct (is_bracket c) eqn:E; [|reflexivity]. exfalso.
  unfold is_bracket in E. apply existsb_exists in E as (x & Hx & Hcx).
  unfold char_eqb in Hcx. apply N.eqb_eq in Hcx. subst x.
  apply (H c Hx). apply list_elem_of_In, Hc.
Qed.

Lemma math_pass_no_bracket (U : unicode_tables) (text : str) :
  Forall (fun c => is_bracket c = false) (process_mathematical_text U text).
Proof.
  unfold process_mathematical_text. cbv zeta.
  match goal with
  | |- context [replace (u "}") _ (replace (u "{") _ (replace (u "]") _
                 (replace (u "[") _ (replace (u ")") _ (replace (u "(") _ ?t)))))] =>
      change (replace (u "}") (u " close brace ")
                (replace (u "{") (u " open brace ")
                   (replace (u "]") (u " close bracket ")
                      (replace (u "[") (u " open bracket ")
                         (replace (u ")") (u " close parenthesis ")
                            (replace (u "(") (u " open parenthesis ") t))))))
        with (fold_left (fun acc kv => replace (fst kv) (snd kv) acc)
                        bracket_words t);
      generalize (bracket_words_remove_brackets t);
      generalize (fold_left (fun acc kv => replace (fst kv) (snd kv) acc)
                            bracket_words t)
  end.
  intros t Ht.
  apply re_sub_in; [no_bracket_template|].
  apply strip_in.
  unfold replace_symbols. apply fold_replace_in.
  { apply Forall_forall. intros kv Hkv. apply no_bracket_of_forallb.
    assert (Hall : forallb (fun kv => forallb (fun c => negb (is_bracket c)) (snd kv))
                           symbol_map_no_hyphen = true) by (vm_compute; reflexivity).
    rewrite forallb_forall in Hall. apply Hall, list_elem_of_In, Hkv. }
  unfold hyphen_rules, hyphen_spaced, hyphen_letter, hyphen_digits.
  repeat (apply re_sub_in; [no_bracket_template|]).
  exact Ht.
Qed.

(** X13.  [process_mathematical_text] spells every parenthesis, bracket and
    brace out, and nothing after that step writes one: neither its result
    nor the normalised text has any. *)
Theorem math_pass_leaves_no_bracket (U : unicode_tables) (text : str) :
  Forall (fun c => is_bracket c = false) (process_mathematical_text U text)
  /\ Forall (fun c => is_bracket c = false) (_clean_text U text).
Proof.
  split; [apply math_pass_no_bracket|].
  unfold _clean_text. cbv zeta.
  apply re_sub_in; [no_bracket_template|]. apply strip_in.
  pose proof (math_pass_no_bracket U text) as Hno.
  revert Hno. generalize (process_mathematical_text U text). intros t Hno.
  unfold process_latex_expressions. cbv zeta.
  apply re_sub_in; [no_bracket_template|]. apply strip_in.
  repeat (apply re_sub_in; [no_bracket_template|]).
  exact Hno.
Qed.

(** X14.  Inside [_clean_text], every rule of [process_latex_expressions]
    that has a brace in its pattern finds nothing: all that pass does there
    is delete backslash commands, strip and collapse whitespace. *)
Theorem latex_brace_rules_never_fire (U : unicode_tables) (text : str) :
  process_latex_expressions U (process_mathematical_text U text)
  = re_sub U spaces1 [TLit (u " ")]
      (strip U (re_sub U (Seq (Chr backslash) (Plus alpha)) []
                  (process_mathematical_text U text))).
Proof.
  pose proof (math_pass_no_bracket U text) as Hno.
  revert Hno. generalize (process_mathematical_text U text). intros t Hno.
  assert (Hbrace : ~ In (ch "{") t).
  { intros Hin. rewrite Forall_forall in Hno.
    apply list_elem_of_In, Hno in Hin. discriminate Hin. }
  unfold process_latex_expressions. cbv zeta.
  do 8 (rewrite (re_sub_needs_required U _ _ (ch "{") t);
        [|vm_compute; reflexivity | exact Hbrace]).
  reflexivity.
Qed.


(** * The symbol table *)

Lemma startswith_head (x : char) (old s : str) :
  startswith (x :: old) s = true -> In x s.
Proof.
  destruct s as [|c s]; cbn [startswith]; [discriminate|].
  intros H. apply andb_true_iff in H as [H _].
  unfold char_eqb in H. apply N.eqb_eq in H. left. congruence.
Qed.

(** A key whose first character is not in the text is not replaced. *)
Lemma replace_absent_key (x : char) (old new s : str) :
  ~ In x s -> replace (x :: old) new s = s.
Proof.
  intros Hnot. unfold replace.
  induction s as [|c s IH]; cbn [replace_from]; [reflexivity|].
  destruct (startswith (x :: old) (c :: s)) eqn:E.
  - exfalso. apply Hnot. apply (startswith_head x old), E.
  - f_equal. apply IH. intros H. apply Hnot. right. exact H.
Qed.

(** The table that is applied, without its entries for [<<] and [>>]. *)
Definition live_symbols : list (str * str) :=
  List.filter (fun kv => negb (str_eqb (fst kv) (u "<<"))
                         && negb (str_eqb (fst kv) (u ">>")))
              symbol_map_no_hyphen.

(** X15.  The entries [<<] and [>>] are never applied: [<] and [>] are replaced
    before they are tried, and nothing in between writes one.  For every
    text the substitution step does what it does without the two
    entries. *)
Theorem much_less_than_is_dead (text : str) :
  replace_symbols text
  = fold_left (fun acc kv => replace (fst kv) (snd kv) acc) live_symbols text.
Proof.
  unfold replace_symbols.
  set (f := fun (acc : str) (kv : str * str) => replace (fst kv) (snd kv) acc).
  set (pre := firstn 14 symbol_map_no_hyphen).
  set (post := skipn 16 symbol_map_no_hyphen).
  assert (Htable : symbol_map_no_hyphen
                   = pre ++ [(u "<<", u " much less than ");
                             (u ">>", u " much greater than ")] ++ post)
    by (vm_compute; reflexivity).
  assert (Hlive : live_symbols = pre ++ post) by (vm_compute; reflexivity).
  rewrite Htable, Hlive, !fold_left_app.
  set (t1 := fold_left f pre text).
  assert (Hlt : ~ In (ch "<") t1).
  { apply fold_replace_absent.
    - apply Forall_forall. intros kv Hkv. apply absent_of_existsb.
      assert (Hall : forallb (fun kv => negb (existsb (char_eqb (ch "<")) (snd kv)))
                             pre = true) by (vm_compute; reflexivity).
      rewrite forallb_forall in Hall. apply negb_true_iff.
      apply Hall, list_elem_of_In, Hkv.
    - left. vm_compute. tauto. }
  assert (Hgt : ~ In (ch ">") t1).
  { apply fold_replace_absent.
    - apply Forall_forall. intros kv Hkv. apply absent_of_existsb.
      assert (Hall : forallb (fun kv => negb (existsb (char_eqb (ch ">")) (snd kv)))
                             pre = true) by (vm_compute; reflexivity).
      rewrite forallb_forall in Hall. apply negb_true_iff.
      apply Hall, list_elem_of_In, Hkv.
    - left. vm_compute. tauto. }
  cbn [fold_left app]. unfold f at 2 3. cbn [fst snd].
  change (u "<<") with (ch "<" :: [ch "<"]).
  change (u ">>") with (ch ">" :: [ch ">"]).
  rewrite (replace_absent_key (ch "<")) by exact Hlt.
  rewrite (replace_absent_key (ch ">")) by exact Hgt.
  reflexivity.
Qed.


(** * Whitespace in the normaliser's result *)

(** A greedy [k*] takes the whole run of class characters. *)
Lemma star_loop_cat_greedy (U : unicode_tables) (k : category) (fuel : nat) :
  forall prev s caps,
    length s < fuel ->
    exists p,
      star_loop (rmatch U (Cat k)) fuel prev s caps accept
      = Some (p, dropwhile (cat_match U k) s, caps).
Proof.
  induction fuel as [|f IH]; intros prev s caps Hlen; [lia|].
  cbn [star_loop].
  change (rmatch U (Cat k) prev s caps) with (one_char (cat_match U k) s caps).
  destruct s as [|x s']; cbn [one_char dropwhile]; [unfold accept; eauto|].
  destruct (cat_match U k x); [|unfold accept; eauto].
  cbn [length] in *.
  replace (length s' <? S (length s')) with true
    by (symmetry; apply Nat.ltb_lt; lia).
  destruct (IH (Some x) s' caps) as [p ->]; [lia|]. eauto.
Qed.

Lemma match_here_spaces (U : unicode_tables) (prev : option char) (x : char)
    (s : str) :
  match_here U spaces1 prev (x :: s)
  = if isspace U x then Some (dropwhile (isspace U) s, []) else None.
Proof.
  unfold spaces1. rewrite match_here_plus_cat_eq. cbn [cat_match].
  destruct (isspace U x); [|reflexivity].
  destruct (star_loop_cat_greedy U CatSpace (S (length s)) (Some x) s [])
    as [p ->]; [lia|].
  reflexivity.
Qed.

Lemma match_here_spaces_nil (U : unicode_tables) (prev : option char) :
  match_here U spaces1 prev [] = None.
Proof. reflexivity. Qed.

(** [re.sub(r'\s+', ' ', s)] by hand: a space for the first character of a
    run of whitespace, nothing for the others. *)
Fixpoint squeeze (U : unicode_tables) (in_run : bool) (s : str) : str :=
  match s with
  | [] => []
  | x :: s' =>
      if isspace U x
      then (if in_run then squeeze U true s' else 32%N :: squeeze U true s')
      else x :: squeeze U false s'
  end.

Lemma dropwhile_length (p : char -> bool) (s : str) :
  length (dropwhile p s) <= length s.
Proof.
  induction s as [|x s IH]; cbn [dropwhile]; [lia|].
  destruct (p x); cbn [length]; lia.
Qed.

Lemma dropwhile_prefix (p : char -> bool) (s : str) :
  let n := length s - length (dropwhile p s) in
  Forall (fun c => p c = true) (firstn n s)
  /\ skipn n s = dropwhile p s.
Proof.
  induction s as [|x s [IH1 IH2]]; cbn zeta; cbn [dropwhile].
  - split; [constructor | reflexivity].
  - destruct (p x) eqn:Hx.
    + pose proof (dropwhile_length p s).
      replace (length (x :: s) - length (dropwhile p s))
        with (S (length s - length (dropwhile p s))) by (cbn [length]; lia).
      cbn [firstn skipn]. split; [constructor; assumption | exact IH2].
    + rewrite Nat.sub_diag. split; [constructor | reflexivity].
Qed.

Lemma dropwhile_head_not (p : char -> bool) (s : str) :
  match dropwhile p s with [] => True | c :: _ => p c = false end.
Proof.
  induction s as [|x s IH]; cbn [dropwhile]; [exact I|].
  destruct (p x) eqn:Hx; [exact IH | exact Hx].
Qed.

Lemma sub_spaces_squeeze (U : unicode_tables) (s : str) :
  (forall prev, sub_from U spaces1 [TLit (u " ")] prev s 0 = squeeze U false s)
  /\ (forall prev n,
        Forall (fun c => isspace U c = true) (firstn n s) ->
        match skipn n s with [] => True | c :: _ => isspace U c = false end ->
        sub_from U spaces1 [TLit (u " ")] prev s n = squeeze U true s).
Proof.
  induction s as [|x s [IH1 IH2]].
  - split; [intros prev; reflexivity|]. intros prev [|n] _ _; reflexivity.
  - assert (H1 : forall prev,
               sub_from U spaces1 [TLit (u " ")] prev (x :: s) 0
               = squeeze U false (x :: s)).
    { intros prev. cbn [sub_from squeeze]. rewrite match_here_spaces.
      destruct (isspace U x) eqn:Hx; [|f_equal; apply IH1].
      change (expand [TLit (u " ")] []) with [32%N]. cbn [app]. f_equal.
      pose proof (dropwhile_length (isspace U) s).
      replace (length (x :: s) - length (dropwhile (isspace U) s))
        with (S (length s - length (dropwhile (isspace U) s)))
        by (cbn [length]; lia).
      destruct (dropwhile_prefix (isspace U) s) as [Hp Hs].
      apply IH2; [exact Hp|]. rewrite Hs. apply dropwhile_head_not. }
    split; [exact H1|].
    intros prev [|n] Hfirst Hnext.
    + rewrite H1. cbn [skipn] in Hnext. cbn [squeeze]. rewrite Hnext. reflexivity.
    + cbn [firstn skipn] in *. inversion Hfirst as [|? ? Hx Hrest]; subst.
      cbn [sub_from squeeze]. rewrite Hx. apply IH2; assumption.
Qed.

Lemma collapse_is_squeeze (U : unicode_tables) (s : str) :
  re_sub U spaces1 [TLit (u " ")] s = squeeze U false s.
Proof. apply sub_spaces_squeeze. Qed.

(** Single-spaced: every whitespace character is the ASCII space, none
    follows another ([after_space] says one has just been read), and the
    text does not end with one. *)
Fixpoint single_spaced (U : unicode_tables) (after_space : bool) (s : str)
    : Prop :=
  match s with
  | [] => after_space = false
  | c :: s' =>
      if isspace U c
      then c = 32%N /\ after_space = false /\ single_spaced U true s'
      else single_spaced U false s'
  end.

(** Tidy: single-spaced, with no whitespace at either end. *)
Definition tidy (U : unicode_tables) (s : str) : Prop :=
  match s with
  | [] => True
  | c :: _ => isspace U c = false /\ single_spaced U false s
  end.

(** The text ends with a character that is not whitespace. *)
Definition ends_in_ink (U : unicode_tables) (s : str) : Prop :=
  exists c : char, last s = Some c /\ isspace U c = false.

Lemma ends_in_ink_cons (U : unicode_tables) (x : char) (s : str) :
  ends_in_ink U (x :: s) ->
  (s = [] /\ isspace U x = false) \/ ends_in_ink U s.
Proof.
  intros (c & Hl & Hc). destruct s as [|y s].
  - left. cbn in Hl. injection Hl as ->. auto.
  - right. exists c. split; [exact Hl | exact Hc].
Qed.

Lemma squeeze_single_spaced (U : unicode_tables) (s : str) :
  forall b : bool, (if b then ends_in_ink U s else s = [] \/ ends_in_ink U s) ->
            single_spaced U b (squeeze U b s).
Proof.
  induction s as [|x s IH]; intros b H.
  - destruct b; [|reflexivity]. destruct H as (c & Hl & _). discriminate.
  - assert (He : ends_in_ink U (x :: s))
      by (destruct b; [exact H | destruct H as [H|H]; [discriminate | exact H]]).
    apply ends_in_ink_cons in He. cbn [squeeze].
    destruct (isspace U x) eqn:Hx.
    + destruct He as [[_ Hx']|He]; [congruence|].
      destruct b.
      * apply (IH true), He.
      * cbn [single_spaced]. change (isspace U 32%N) with true. cbn iota.
        split; [reflexivity|]. split; [reflexivity|]. apply (IH true), He.
    + cbn [single_spaced]. rewrite Hx. apply (IH false).
      destruct He as [[-> _]|He]; auto.
Qed.

Lemma last_rev_head (s : str) : last (rev s) = head s.
Proof.
  destruct s as [|x s]; [reflexivity|]. cbn [rev head].
  rewrite last_snoc. reflexivity.
Qed.

Lemma head_rev_last (s : str) : head (rev s) = last s.
Proof.
  rewrite <- (rev_involutive s) at 2. rewrite last_rev_head. reflexivity.
Qed.

Lemma dropwhile_nonspace_head (p : char -> bool) (x : char) (s : str) :
  p x = false -> dropwhile p (x :: s) = x :: s.
Proof. intros H. cbn. rewrite H. reflexivity. Qed.

(** A text that starts with ink keeps its first character when the
    trailing whitespace is dropped. *)
Lemma rstrip_keeps_head (U : unicode_tables) (x : char) (s : str) :
  isspace U x = false ->
  exists s', rstrip U (x :: s) = x :: s'.
Proof.
  intros Hx. unfold rstrip.
  assert (H : forall l, exists l', dropwhile (isspace U) (l ++ [x]) = l' ++ [x]).
  { induction l as [|y l [l' IH]]; cbn [app dropwhile].
    - rewrite Hx. exists []. reflexivity.
    - destruct (isspace U y); [eauto|]. exists (y :: l). reflexivity. }
  cbn [rev]. destruct (H (rev s)) as [l' ->].
  rewrite rev_app_distr. cbn. eauto.
Qed.

Lemma strip_shape (U : unicode_tables) (s : str) :
  match strip U s with
  | [] => True
  | c :: _ => isspace U c = false /\ ends_in_ink U (strip U s)
  end.
Proof.
  unfold strip, lstrip.
  pose proof (dropwhile_head_not (isspace U) s) as Hh.
  destruct (dropwhile (isspace U) s) as [|x t]; [exact I|].
  destruct (rstrip_keeps_head U x t Hh) as [t' E]. rewrite E. split; [exact Hh|].
  rewrite <- E. unfold rstrip, ends_in_ink. rewrite last_rev_head.
  pose proof (dropwhile_head_not (isspace U) (rev (x :: t))) as Hl.
  destruct (dropwhile (isspace U) (rev (x :: t))) as [|y l] eqn:Ed.
  - exfalso. unfold rstrip in E. rewrite Ed in E. discriminate.
  - exists y. auto.
Qed.

(** Stripping and collapsing gives a tidy text. *)
Lemma collapse_strip_tidy (U : unicode_tables) (s : str) :
  tidy U (re_sub U spaces1 [TLit (u " ")] (strip U s)).
Proof.
  rewrite collapse_is_squeeze.
  pose proof (strip_shape U s) as H.
  destruct (strip U s) as [|x t] eqn:E; [exact I|].
  destruct H as [Hx He].
  pose proof (squeeze_single_spaced U (x :: t) false (or_intror He)) as Hs.
  cbn [squeeze] in *. rewrite Hx in *. cbn [tidy]. auto.
Qed.

(** X11.  The results of [process_mathematical_text], of
    [process_latex_expressions] and of [_clean_text] are tidy: no
    whitespace at either end, and between words always exactly one ASCII
    space, whatever whitespace the input had. *)
Theorem normalised_text_is_tidy (U : unicode_tables) (text : str) :
  tidy U (process_mathematical_text U text)
  /\ tidy U (process_latex_expressions U text)
  /\ tidy U (_clean_text U text).
Proof.
  split; [|split].
  - unfold process_mathematical_text. cbv zeta. apply collapse_strip_tidy.
  - unfold process_latex_expressions. cbv zeta. apply collapse_strip_tidy.
  - unfold _clean_text. cbv zeta. apply collapse_strip_tidy.
Qed.

Lemma single_spaced_squeeze (U : unicode_tables) (s : str) :
  forall b : bool, single_spaced U b s -> squeeze U b s = s.
Proof.
  induction s as [|c s IH]; intros b; cbn [single_spaced squeeze]; [reflexivity|].
  destruct (isspace U c).
  - intros (-> & -> & H). f_equal. apply IH, H.
  - intros H. f_equal. apply IH, H.
Qed.

Lemma single_spaced_end (U : unicode_tables) (s : str) :
  forall b : bool, single_spaced U b s -> s = [] \/ ends_in_ink U s.
Proof.
  induction s as [|c s IH]; intros b; cbn [single_spaced]; [auto|].
  right. destruct (isspace U c) eqn:Hc.
  - destruct H as (_ & _ & H). destruct (IH true H) as [->|(y & Hl & Hy)].
    + cbn in H. discriminate.
    + exists y. split; [|exact Hy]. destruct s; [discriminate | exact Hl].
  - destruct (IH false H) as [->|(y & Hl & Hy)].
    + exists c. auto.
    + exists y. split; [|exact Hy]. destruct s; [discriminate | exact Hl].
Qed.

(** On a tidy text the whitespace step changes nothing. *)
Lemma tidy_fixed (U : unicode_tables) (s : str) :
  tidy U s -> re_sub U spaces1 [TLit (u " ")] (strip U s) = s.
Proof.
  destruct s as [|c s]; [reflexivity|]. intros [Hc Hs].
  assert (Hstrip : strip U (c :: s) = c :: s).
  { unfold strip, lstrip. rewrite dropwhile_nonspace_head by exact Hc.
    unfold rstrip.
    destruct (single_spaced_end U (c :: s) false Hs) as [E|(y & Hl & Hy)];
      [discriminate|].
    rewrite <- head_rev_last in Hl.
    destruct (rev (c :: s)) as [|z l] eqn:Er; [discriminate|].
    cbn in Hl. injection Hl as ->.
    rewrite dropwhile_nonspace_head by exact Hy.
    rewrite <- Er. apply rev_involutive. }
  rewrite Hstrip, collapse_is_squeeze. apply single_spaced_squeeze, Hs.
Qed.

(** X12.  Stripping and collapsing a second time changes nothing: the last step
    of [_clean_text] finds its work done by [process_latex_expressions],
    and normalising whitespace is idempotent. *)
Theorem clean_text_last_step_is_identity (U : unicode_tables) (text : str) :
  _clean_text U text
  = process_latex_expressions U (process_mathematical_text U text)
  /\ re_sub U spaces1 [TLit (u " ")] (strip U (_clean_text U text))
     = _clean_text U text.
Proof.
  split.
  - change (_clean_text U text)
      with (re_sub U spaces1 [TLit (u " ")]
              (strip U (process_latex_expressions U
                          (process_mathematical_text U text)))).
    apply tidy_fixed.
    unfold process_latex_expressions. cbv zeta. apply collapse_strip_tidy.
  - apply tidy_fixed. unfold _clean_text. cbv zeta. apply collapse_strip_tidy.
Qed.


(** * The mock backend *)

(** [enumerate(text)], counting from [i]. *)
Fixpoint enumerate_from (i : nat) (text : str) : list (nat * char) :=
  match text with
  | [] => []
  | c :: text' => (i, c) :: enumerate_from (S i) text'
  end.

(** The mock's [ms_per_char] for a text of [n] characters:
    [(n * 0.08 * 1000) / n] as floats compute it. *)
Definition mock_ms_per_char (n : nat) : Qc :=
  fdiv (fmul (fmul (of_nat n) mock_seconds_per_char) (of_Z 1000)) (of_nat n).

(** The timing of the character [c] at index [i]. *)
Definition mock_timing (U : unicode_tables) (ms : Qc) (ic : nat * char)
    : timing :=
  {| phoneme := u "/" ++ lower U (snd ic) ++ u "/";
     t_start_ms := fmul (of_nat (fst ic)) ms;
     t_end_ms := fmul (of_nat (S (fst ic))) ms |}.

Definition alphabetic (U : unicode_tables) (ic : nat * char) : bool :=
  isalpha U (snd ic).

Lemma mock_timing_loop_by_index (U : unicode_tables) (ms : Qc) (text : str) :
  forall i,
    Engine.mock_timing_loop U ms i text
    = List.map (mock_timing U ms)
        (List.filter (alphabetic U) (enumerate_from i text)).
Proof.
  induction text as [|c text IH]; intros i; [reflexivity|].
  cbn [Engine.mock_timing_loop enumerate_from List.filter].
  unfold alphabetic at 1. cbn [snd]. rewrite IH.
  destruct (isalpha U c); reflexivity.
Qed.

Lemma div_le_of_le_mul (y n k : Q) :
  (0 < n)%Q -> (y * n <= k * n)%Q -> (y <= k)%Q.
Proof. intros Hn H. nra. Qed.

Lemma div_ge_of_ge_mul (y n k : Q) :
  (0 < n)%Q -> (k * n <= y * n)%Q -> (k <= y)%Q.
Proof. intros Hn H. nra. Qed.

(** [ms_per_char] is 80 up to the four roundings on the way. *)
Lemma mock_ms_per_char_close (n : nat) :
  0 < n ->
  within (of_Z 400 * eps64)%Qc (of_Z 80) (mock_ms_per_char n).
Proof.
  intros Hn. unfold mock_ms_per_char.
  pose proof (of_nat_pos n Hn) as HN.
  assert (HN0 : (0 <= of_nat n)%Qc) by apply of_nat_nonneg.
  assert (Hc0 : (0 <= mock_seconds_per_char)%Qc) by (vm_compute; discriminate).
  assert (H1n : (0 <= of_nat n * mock_seconds_per_char)%Qc).
  { unfold Qcle in *. rewrite this_mult.
    change (this 0%Qc) with 0%Q in *. nra. }
  pose proof (R64_err _ H1n) as [L1 U1].
  fold (fmul (of_nat n) mock_seconds_per_char) in L1, U1.
  set (x1 := fmul (of_nat n) mock_seconds_per_char) in *.
  assert (Hx1 : (0 <= x1)%Qc) by (apply fmul_nonneg; assumption).
  assert (H2n : (0 <= x1 * of_Z 1000)%Qc).
  { unfold Qcle in *. rewrite this_mult, this_of_Z.
    change (this 0%Qc) with 0%Q in *. change (inject_Z 1000) with 1000%Q. nra. }
  pose proof (R64_err _ H2n) as [L2 U2].
  fold (fmul x1 (of_Z 1000)) in L2, U2.
  set (x2 := fmul x1 (of_Z 1000)) in *.
  assert (Hx2 : (0 <= x2)%Qc)
    by (apply fmul_nonneg; [exact Hx1 | vm_compute; discriminate]).
  assert (H3n : (0 <= x2 / of_nat n)%Qc) by (apply Qc_div_nonneg; assumption).
  pose proof (R64_err _ H3n) as [L3 U3].
  fold (fdiv x2 (of_nat n)) in L3, U3.
  set (x3 := fdiv x2 (of_nat n)) in *.
  rewrite this_mult in L1, U1. rewrite this_mult, this_of_Z in L2, U2.
  rewrite this_div in L3, U3.
  change (inject_Z 1000) with 1000%Q in *.
  unfold within, Qcle.
  rewrite this_minus, this_plus, this_mult, !this_of_Z.
  change (inject_Z 80) with 80%Q. change (inject_Z 400) with 400%Q.
  change (this eps64) with (1 # 9007199254740992)%Q in *.
  change (this mock_seconds_per_char)
    with (5764607523034235 # 72057594037927936)%Q in *.
  set (N := this (of_nat n)) in *.
  set (X1 := this x1) in *. set (X2 := this x2) in *. set (X3 := this x3) in *.
  assert (HNpos : (0 < N)%Q) by lra.
  assert (HY : (X2 / N * N == X2)%Q) by (field; lra).
  set (Y := (X2 / N)%Q) in *.
  assert (HYu : (Y <= (1 + (1 # 9007199254740992)) * (1 + (1 # 9007199254740992))
                      * 1000 * (5764607523034235 # 72057594037927936))%Q).
  { apply (div_le_of_le_mul Y N); [exact HNpos|]. rewrite HY. lra. }
  assert (HYl : ((1 - (1 # 9007199254740992)) * (1 - (1 # 9007199254740992))
                 * 1000 * (5764607523034235 # 72057594037927936) <= Y)%Q).
  { apply (div_ge_of_ge_mul Y N); [exact HNpos|]. rewrite HY. lra. }
  split; lra.
Qed.

(** X8.  For a text that is not empty the mock backend returns, with its
    audio, one timing for each alphabetic character of the text, in the
    order of the text, and none for the other characters; the timing of
    the character at index [i] starts at [i * ms_per_char] and ends at
    [(i + 1) * ms_per_char], both rounded, where [ms_per_char] is the float
    [(len(text) * 0.08 * 1000) / len(text)]: 80 up to four roundings, 80
    for one character and 80.00000000000001 for 35.  The audio has
    [int(44100 * (len(text) * 0.08))] samples. *)
Theorem mock_timings_by_index (U : unicode_tables)
    (mock_sample : Qc -> nat -> nat -> Qc) :
  (forall text : str,
     text <> [] ->
     exists audio_data,
       Engine._generate_mock_audio_with_timings U mock_sample text
       = Some (audio_data,
               List.map (mock_timing U (mock_ms_per_char (length text)))
                 (List.filter (alphabetic U) (enumerate_from 0 text)))
       /\ length audio_data
          = Z.to_nat (int_trunc (fmul (of_Z 44100)
                                   (fmul (of_nat (length text))
                                         mock_seconds_per_char)))
       /\ within (of_Z 400 * eps64)%Qc (of_Z 80)
                 (mock_ms_per_char (length text)))
  /\ mock_ms_per_char 1 = of_Z 80
  /\ mock_ms_per_char 35 = Q2Qc (5629499534213121 # 70368744177664)
  /\ int_trunc (fmul (of_Z 44100) (fmul (of_nat 35) mock_seconds_per_char))
     = 123480%Z.
Proof.
  split; [|repeat split; try apply Qc_is_canon; vm_compute; reflexivity].
  intros text Hne. unfold Engine._generate_mock_audio_with_timings.
  assert (Hlen : 0 < length text) by (destruct text; [congruence | cbn; lia]).
  fold mock_seconds_per_char.
  destruct (length text) as [|n] eqn:E; [lia|]. rewrite <- E in *.
  eexists. split; [|split].
  - rewrite mock_timing_loop_by_index. reflexivity.
  - rewrite length_map, length_seq. reflexivity.
  - apply mock_ms_per_char_close, Hlen.
Qed.

Lemma mock_timings_by_index_witness :
  exists audio_data,
    Engine._generate_mock_audio_with_timings ascii_tables (fun _ _ _ => of_Z 0)
      (u "hi!")
    = Some (audio_data,
            [ {| phoneme := u "/h/"; t_start_ms := of_Z 0; t_end_ms := of_Z 80 |};
              {| phoneme := u "/i/"; t_start_ms := of_Z 80;
                 t_end_ms := of_Z 160 |} ])
    /\ length audio_data = Z.to_nat 10584.
Proof.
  destruct (proj1 (mock_timings_by_index ascii_tables (fun _ _ _ => of_Z 0))
              (u "hi!")) as (audio & E & Hl & _); [discriminate|].
  exists audio. split.
  - rewrite E. f_equal. f_equal.
    change (List.filter (alphabetic ascii_tables) (enumerate_from 0 (u "hi!")))
      with [(0, ch "h"); (1, ch "i")].
    cbn [List.map]. unfold mock_timing. cbn [fst snd].
    repeat (f_equal; try (apply Qc_is_canon; vm_compute; reflexivity)).
  - rewrite Hl. f_equal.
Defined.

(** * Leaving the loop *)

Section HandlerClose.
Context (U : unicode_tables).
Context (resample : list Qc -> nat -> list Qc).
Context (mock_sample : Qc -> nat -> nat -> Qc).
Context (tts_engine : TTSEngine).

Local Abbreviation process_remaining_text :=
  (Handler.process_remaining_text U resample mock_sample tts_engine).
Local Abbreviation loop_round := (Handler.loop_round U resample mock_sample tts_engine).
Local Abbreviation message_loop :=
  (Handler.message_loop U resample mock_sample tts_engine).
Local Abbreviation websocket_endpoint :=
  (Handler.websocket_endpoint U resample mock_sample tts_engine).

(** The loop over two runs of frames is the loop over the first and, if
    it goes on, the loop over the second. *)
Lemma message_loop_app (session_id : str) (events1 events2 : list event) :
  forall w,
    message_loop session_id (events1 ++ events2) w
    = match message_loop session_id events1 w with
      | (Ok Continue, w1) => message_loop session_id events2 w1
      | other => other
      end.
Proof.
  induction events1 as [|ev events1 IH]; intros w;
    cbn [app Handler.message_loop].
  - reflexivity.
  - unfold bind. destruct (loop_round session_id ev w) as [[[|]|e] w1].
    + apply IH.
    + reflexivity.
    + reflexivity.
Qed.

(** A round with a close frame leaves the loop. *)
Lemma loop_round_close (session_id : str) (message : gmap str jval) (w : world) :
  message !! u "text" = Some (JStr []) ->
  fst (loop_round session_id (Recv (FObject message)) w) = Ok Break.
Proof.
  intros Ht.
  unfold Handler.loop_round, try_except, Handler.loop_body, Handler.dispatch.
  rewrite Ht.
  change (str_eqb [] (u " ")) with false. change (str_eqb [] []) with true.
  cbn iota. unfold bind.
  destruct (process_remaining_text_ok U resample mock_sample tts_engine
              session_id w) as [Hok _].
  destruct (process_remaining_text session_id w) as [[[]|e] w1];
    cbn [fst] in Hok; [reflexivity | discriminate].
Qed.

Lemma message_loop_close (session_id : str) (message : gmap str jval)
    (events : list event) (w : world) :
  message !! u "text" = Some (JStr []) ->
  fst (message_loop session_id (Recv (FObject message) :: events) w) = Ok Break
  /\ message_loop session_id (Recv (FObject message) :: events) w
     = message_loop session_id [Recv (FObject message)] w.
Proof.
  intros Ht. pose proof (loop_round_close session_id message w Ht) as Hb.
  cbn [Handler.message_loop]. unfold bind.
  destruct (loop_round session_id (Recv (FObject message)) w) as [r w1].
  cbn [fst] in Hb. subst r. split; reflexivity.
Qed.

(** X22.  A frame whose [text] is the empty string ends the session wherever it
    comes: the endpoint leaves the loop, the session and its socket are
    gone from the registry, and the frames after it are never read. *)
Theorem close_ends_the_session (now : Qc) (ws : websocket) (session_id : str)
    (message : gmap str jval) (before after : list event) (w : world) :
  message !! u "text" = Some (JStr []) ->
  let close := Recv (FObject message) in
  let r := websocket_endpoint now ws session_id (before ++ close :: after) w in
  fst r = Ok Break
  /\ session_data (cm (snd r)) !! session_id = None
  /\ active_connections (cm (snd r)) !! session_id = None
  /\ r = websocket_endpoint now ws session_id (before ++ [close]) w.
Proof.
  intros Ht. cbv zeta. rewrite !websocket_endpoint_eq.
  set (w0 := {| cm := Registry.connect now ws session_id (cm w);
                sent := sent w; link_up := link_up w |}).
  rewrite !message_loop_app.
  destruct (message_loop_ok U resample mock_sample tts_engine session_id before w0)
    as [[c Hc] _].
  destruct (message_loop session_id before w0) as [r0 w1]. cbn [fst] in Hc.
  subst r0.
  destruct c.
  - destruct (message_loop_close session_id message after w1 Ht) as [Hb Heq].
    rewrite Heq.
    destruct (message_loop_close session_id message [] w1 Ht) as [Hb' _].
    destruct (message_loop session_id [Recv (FObject message)] w1) as [r1 w2].
    cbn [fst] in Hb'. subst r1. cbn [fst snd cm].
    unfold Registry.disconnect. cbn [session_data active_connections].
    rewrite !lookup_delete_eq. repeat split.
  - cbn [fst snd cm].
    unfold Registry.disconnect. cbn [session_data active_connections].
    rewrite !lookup_delete_eq. repeat split.
Qed.

End HandlerClose.

Lemma close_ends_the_session_witness :
  let message : gmap str jval := {[ u "text" := JStr [] ]} in
  message !! u "text" = Some (JStr [])
  /\ fst (Handler.websocket_endpoint ascii_tables (fun x _ => x) (fun _ _ _ => of_Z 0)
            ready_mock_engine (of_Z 0) 1 (u "s1")
            ([text_frame (u "Hi")] ++ Recv (FObject message) :: [flush_frame])
            (world_with_buffer []))
     = Ok Break.
Proof.
  cbv zeta.
  assert (H : ({[ u "text" := JStr [] ]} : gmap str jval) !! u "text"
              = Some (JStr [])) by (vm_compute; reflexivity).
  split; [exact H|].
  exact (proj1 (close_ends_the_session ascii_tables (fun x _ => x)
                  (fun _ _ _ => of_Z 0) ready_mock_engine (of_Z 0) 1 (u "s1") _
                  [text_frame (u "Hi")] [flush_frame] (world_with_buffer []) H)).
Defined.


(** * Buffering and speaking *)

Lemma dropwhile_nil (p : char -> bool) (s : str) :
  dropwhile p s = [] -> Forall (fun c => p c = true) s.
Proof.
  induction s as [|x s IH]; cbn [dropwhile]; [constructor|].
  destruct (p x) eqn:Hx; [|discriminate].
  intros H. constructor; [exact Hx | exact (IH H)].
Qed.

(** A text with a character that is no whitespace is not blank. *)
Lemma token_not_blank (U : unicode_tables) (s : str) :
  has_token U s -> Engine.is_blank U s = false.
Proof.
  intros (c & Hin & Hc). unfold Engine.is_blank, strip, rstrip, lstrip.
  destruct (dropwhile (isspace U) s) as [|x rest] eqn:E.
  - apply dropwhile_nil in E. rewrite Forall_forall in E.
    apply list_elem_of_In, E in Hin. congruence.
  - destruct (dropwhile_head _ _ _ _ E) as [_ Hx].
    destruct (dropwhile (isspace U) (rev (x :: rest))) as [|y l] eqn:E2.
    + apply dropwhile_nil in E2. rewrite Forall_forall in E2.
      assert (Hin' : x ∈ rev (x :: rest)).
      { apply list_elem_of_In, in_rev. rewrite rev_involutive. left. reflexivity. }
      apply E2 in Hin'. congruence.
    + destruct (rev (y :: l)) eqn:E3; [|reflexivity].
      apply (f_equal (@length char)) in E3. rewrite length_rev in E3.
      cbn in E3. discriminate.
Qed.

Section HandlerBuffering.
Context (U : unicode_tables).
Context (resample : list Qc -> nat -> list Qc).
Context (mock_sample : Qc -> nat -> nat -> Qc).
Context (tts_engine : TTSEngine).

Local Abbreviation loop_round := (Handler.loop_round U resample mock_sample tts_engine).

(** X23.  A chunk that leaves the buffer without ['.'], ['!'] and ['?'] and not
    longer than 100 characters once stripped is only stored: nothing is
    sent, the engine is not asked, buffer and transcript grow by the
    chunk. *)
Theorem unfinished_chunk_is_buffered (session_id text : str) (w : world)
    (d : session) :
  session_data (cm w) !! session_id = Some d ->
  is_chunk text ->
  Forall (fun c => ~ is_ending c) (text_buffer d ++ text) ->
  length (strip U (text_buffer d ++ text)) <= 100 ->
  loop_round session_id (text_frame text) w
  = (Ok Continue,
     {| cm := {| active_connections := active_connections (cm w);
                 session_data :=
                   <[session_id :=
                       {| text_buffer := text_buffer d ++ text;
                          full_text := full_text d ++ text;
                          is_active := is_active d;
                          created_at := created_at d |}]> (session_data (cm w)) |};
        sent := sent w; link_up := link_up w |}).
Proof.
  intros Hd [Hmark Hempty] Hno Hlen.
  unfold Handler.loop_round, try_except, text_frame, Handler.loop_body,
    Handler.dispatch.
  rewrite lookup_singleton_eq, Hmark, Hempty.
  unfold bind, update_cm, gets. cbn [cm].
  unfold Segmentation.should_process_text, Registry.get_text_buffer,
    Registry.add_text_chunk.
  rewrite Hd. cbn [session_data]. rewrite lookup_insert_eq. cbn [text_buffer].
  unfold Segmentation.should_process_buffer.
  rewrite (no_ending_no_sentence U _ Hno).
  replace (100 <? length (strip U (text_buffer d ++ text))) with false
    by (symmetry; apply Nat.ltb_ge; exact Hlen).
  reflexivity.
Qed.

(** X24.  A chunk with an exclamation or a question mark is spoken at
    once: with the engine ready and the link up, if the normalised buffer
    is not blank and the backend gives audio for it, the round sends
    exactly one result, for the whole buffer, with the transcript as
    [full_text], and leaves the buffer empty and the transcript grown by
    the chunk. *)
Theorem exclaimed_chunk_is_spoken (session_id text : str) (w : world)
    (d : session) :
  ready tts_engine = true ->
  link_up w = true ->
  session_data (cm w) !! session_id = Some d ->
  is_chunk text ->
  In (ch "!") text \/ In (ch "?") text ->
  Engine.is_blank U (_clean_text U (text_buffer d ++ text)) = false ->
  yields_audio U mock_sample tts_engine (_clean_text U (text_buffer d ++ text)) ->
  exists result,
    loop_round session_id (text_frame text) w
    = (Ok Continue,
       {| cm := {| active_connections := active_connections (cm w);
                   session_data :=
                     <[session_id :=
                         {| text_buffer := [];
                            full_text := full_text d ++ text;
                            is_active := is_active d;
                            created_at := created_at d |}]> (session_data (cm w)) |};
          sent := sent w
                  ++ [OutResult result (_clean_text U (text_buffer d ++ text))];
          link_up := true |})
    /\ r_original_text result = text_buffer d ++ text
    /\ r_processed_text result = _clean_text U (text_buffer d ++ text)
    /\ r_full_text result = full_text d ++ text.
Proof.
  intros Hready Hlink Hd [Hmark Hempty] Hmarks Hclean Haudio.
  set (d1 := {| text_buffer := text_buffer d ++ text;
                full_text := full_text d ++ text;
                is_active := is_active d; created_at := created_at d |}).
  set (w1 := {| cm := Registry.add_text_chunk session_id text (cm w);
                sent := sent w; link_up := link_up w |}).
  assert (Hcm1 : cm w1 = {| active_connections := active_connections (cm w);
                            session_data := <[session_id := d1]> (session_data (cm w)) |}).
  { unfold w1. cbn [cm]. unfold Registry.add_text_chunk. rewrite Hd. reflexivity. }
  assert (Hd1 : session_data (cm w1) !! session_id = Some d1).
  { rewrite Hcm1. cbn [session_data]. apply lookup_insert_eq. }
  assert (Hmark' : exists c : char,
             (c = ch "!" \/ c = ch "?") /\ In c (text_buffer d ++ text)).
  { destruct Hmarks as [H|H]; [exists (ch "!") | exists (ch "?")];
      (split; [auto | apply in_or_app; right; exact H]). }
  assert (Hgo : Segmentation.should_process_text U (cm w1) session_id = true).
  { unfold Segmentation.should_process_text, Registry.get_text_buffer.
    rewrite Hd1. cbn [text_buffer d1].
    unfold Segmentation.should_process_buffer.
    apply orb_true_iff. left. apply has_true_sentence_ending_spec.
    destruct Hmark' as (c & Hc & Hin). exists c.
    split; [unfold is_ending; tauto|].
    unfold Segmentation.text_without_abbrevs.
    apply re_sub_keeps; [|exact Hin].
    destruct Hc as [-> | ->]; vm_compute; reflexivity. }
  assert (Hbuf : Engine.is_blank U (text_buffer d1) = false).
  { apply token_not_blank. destruct Hmark' as (c & Hc & Hin). exists c.
    split; [exact Hin|]. destruct Hc as [-> | ->]; reflexivity. }
  destruct (process_text_buffer_sends_result U resample mock_sample tts_engine
              session_id w1 d1 Hready Hlink Hd1 Hbuf Hclean Haudio)
    as (result & Hp & Ho & Hf & Hpass).
  exists result.
  split; [|split; [exact Ho | split; [exact Hp | exact Hf]]].
  rewrite (loop_round_chunk U resample mock_sample tts_engine session_id text w _
             Hmark Hempty Hgo Hpass).
  f_equal. f_equal.
  unfold Registry.clear_text_buffer. rewrite Hd1, Hcm1.
  cbn [session_data active_connections]. f_equal.
  apply insert_insert_eq.
Qed.

End HandlerBuffering.

Lemma unfinished_chunk_is_buffered_witness :
  let w := world_with_buffer (u "Hello") in
  let d := {| text_buffer := u "Hello"; full_text := u "Hello";
              is_active := true; created_at := of_Z 0 |} in
  session_data (cm w) !! u "s1" = Some d
  /\ sent (snd (Handler.loop_round ascii_tables (fun x _ => x) (fun _ _ _ => of_Z 0)
                  ready_mock_engine (u "s1") (text_frame (u " there")) w)) = [].
Proof.
  cbv zeta.
  assert (Hd : session_data (cm (world_with_buffer (u "Hello"))) !! u "s1"
               = Some {| text_buffer := u "Hello"; full_text := u "Hello";
                         is_active := true; created_at := of_Z 0 |})
    by (vm_compute; reflexivity).
  assert (Hc : is_chunk (u " there")) by (split; reflexivity).
  assert (Hno : Forall (fun c => ~ is_ending c) (u "Hello" ++ u " there")).
  { repeat constructor; unfold is_ending; intros [E|[E|E]]; discriminate E. }
  assert (Hlen : length (strip ascii_tables (u "Hello" ++ u " there")) <= 100)
    by (vm_compute; lia).
  split; [exact Hd|].
  rewrite (unfinished_chunk_is_buffered ascii_tables (fun x _ => x)
             (fun _ _ _ => of_Z 0) ready_mock_engine (u "s1") (u " there") _ _
             Hd Hc Hno Hlen).
  reflexivity.
Defined.

Lemma exclaimed_chunk_is_spoken_witness :
  let w := world_with_buffer (u "Hello") in
  let d := {| text_buffer := u "Hello"; full_text := u "Hello";
              is_active := true; created_at := of_Z 0 |} in
  session_data (cm w) !! u "s1" = Some d
  /\ exists result,
       sent (snd (Handler.loop_round ascii_tables (fun x _ => x) (fun _ _ _ => of_Z 0)
                    ready_mock_engine (u "s1") (text_frame (u " you!")) w))
       = [OutResult result (u "Hello you!")]
       /\ r_full_text result = u "Hello you!".
Proof.
  cbv zeta.
  assert (Hd : session_data (cm (world_with_buffer (u "Hello"))) !! u "s1"
               = Some {| text_buffer := u "Hello"; full_text := u "Hello";
                         is_active := true; created_at := of_Z 0 |})
    by (vm_compute; reflexivity).
  assert (Hc : is_chunk (u " you!")) by (split; reflexivity).
  assert (Hm : In (ch "!") (u " you!") \/ In (ch "?") (u " you!"))
    by (left; vm_compute; tauto).
  assert (Hclean : _clean_text ascii_tables (u "Hello" ++ u " you!")
                   = u "Hello you!") by (vm_compute; reflexivity).
  assert (Hb : Engine.is_blank ascii_tables
                 (_clean_text ascii_tables (u "Hello" ++ u " you!")) = false)
    by (rewrite Hclean; reflexivity).
  assert (Ha : yields_audio ascii_tables (fun _ _ _ => of_Z 0) ready_mock_engine
                 (_clean_text ascii_tables (u "Hello" ++ u " you!"))).
  { apply mock_yields_audio; [reflexivity | rewrite Hclean; discriminate]. }
  split; [exact Hd|].
  destruct (exclaimed_chunk_is_spoken ascii_tables (fun x _ => x)
              (fun _ _ _ => of_Z 0) ready_mock_engine (u "s1") (u " you!")
              (world_with_buffer (u "Hello"))
              {| text_buffer := u "Hello"; full_text := u "Hello";
                 is_active := true; created_at := of_Z 0 |}
              eq_refl eq_refl Hd Hc Hm Hb Ha) as (result & Hr & _ & _ & Hf).
  cbn [text_buffer full_text] in Hr, Hf.
  exists result. rewrite Hr. cbn [snd sent]. rewrite Hclean.
  split; [reflexivity | exact Hf].
Defined.


(** * The segmentation policy, by hand *)

(** The trimmed content of a buffer: the buffer is whitespace, the
    content, whitespace; the content is empty or starts and ends with a
    character that is not whitespace. *)
Definition trimmed (U : unicode_tables) (buffer content : str) : Prop :=
  exists pre post,
    buffer = pre ++ content ++ post
    /\ Forall (fun c => isspace U c = true) pre
    /\ Forall (fun c => isspace U c = true) post
    /\ match content with
       | [] => True
       | c :: _ => isspace U c = false /\ ends_in_ink U content
       end.

(** The letters of [w] at the head of [s], compared without case: what is
    left of [s]. *)
Fixpoint caseless_prefix (U : unicode_tables) (w s : str) : option str :=
  match w with
  | [] => Some s
  | a :: w' =>
      match s with
      | c :: s' => if caseless_eqb U a c then caseless_prefix U w' s' else None
      | [] => None
      end
  end.

Definition stands_at (U : unicode_tables) (s : str) (w : str) : bool :=
  match caseless_prefix U w s with Some _ => true | None => false end.

(** An abbreviation stands at a position: the position is a word boundary
    and the text goes on with an entry of the list, its period included,
    in any case.  The first entry that fits is the one. *)
Definition abbreviation_at (U : unicode_tables) (prev : option char) (s : str)
    : option str :=
  if at_boundary U prev s
  then List.find (stands_at U s) (List.map u Segmentation.abbreviation_words)
  else None.

(** Masking, left to right: where an abbreviation stands, the placeholder
    is written and the abbreviation skipped; every other character is
    copied. *)
Fixpoint mask_from (U : unicode_tables) (skip : nat) (prev : option char)
    (s : str) : str :=
  match s with
  | [] => []
  | c :: s' =>
      match skip with
      | S n => mask_from U n (Some c) s'
      | O =>
          match abbreviation_at U prev s with
          | Some w => u "ABBREV" ++ mask_from U (length w - 1) (Some c) s'
          | None => c :: mask_from U 0 (Some c) s'
          end
      end
  end.

Definition mask_abbreviations (U : unicode_tables) (s : str) : str :=
  mask_from U 0 None s.

(** *** The pattern does what the masking by hand does *)

Definition drop_prev (r : option mstate) : option (str * captures) :=
  match r with
  | Some (_, s', c) => Some (s', c)
  | None => None
  end.

Lemma match_here_drop_prev (U : unicode_tables) (r : regex)
    (prev : option char) (s : str) :
  match_here U r prev s = drop_prev (rmatch U r prev s [] accept).
Proof. reflexivity. Qed.

Lemma caseless_prefix_length (U : unicode_tables) (w : str) :
  forall s rest, caseless_prefix U w s = Some rest ->
                 length s = length w + length rest.
Proof.
  induction w as [|a w IH]; intros s rest; cbn [caseless_prefix].
  - intros [= ->]. reflexivity.
  - destruct s as [|c s]; [discriminate|].
    destruct (caseless_eqb U a c); [|discriminate].
    intros H. cbn [length]. rewrite (IH _ _ H). reflexivity.
Qed.

(** A literal under IGNORECASE matches the caseless prefix. *)
Lemma rmatch_lit_caseless (U : unicode_tables) (w : str) :
  w <> [] ->
  forall prev s caps,
    drop_prev (rmatch U (ignorecase (lit w)) prev s caps accept)
    = match caseless_prefix U w s with
      | Some rest => Some (rest, caps)
      | None => None
      end.
Proof.
  induction w as [|a w IH]; intros Hne prev s caps; [congruence|].
  destruct w as [|b w].
  - cbn [lit ignorecase rmatch caseless_prefix].
    destruct s as [|c s]; cbn [one_char]; [reflexivity|].
    destruct (caseless_eqb U a c); reflexivity.
  - change (lit (a :: b :: w)) with (Seq (Chr a) (lit (b :: w))).
    cbn [ignorecase rmatch]. cbn [caseless_prefix].
    destruct s as [|c s]; cbn [one_char]; [reflexivity|].
    destruct (caseless_eqb U a c); [|reflexivity].
    apply IH. discriminate.
Qed.

Definition abbrev_alternative (w : str) : regex := Seq Bound (lit w).

Lemma rmatch_alternative (U : unicode_tables) (w : str) (prev : option char)
    (s : str) :
  w <> [] ->
  drop_prev (rmatch U (ignorecase (abbrev_alternative w)) prev s [] accept)
  = if at_boundary U prev s
    then match caseless_prefix U w s with
         | Some rest => Some (rest, [])
         | None => None
         end
    else None.
Proof.
  intros Hne. unfold abbrev_alternative. cbn [ignorecase rmatch].
  destruct (at_boundary U prev s); [|reflexivity].
  apply rmatch_lit_caseless, Hne.
Qed.

Lemma drop_prev_none (r : option mstate) : drop_prev r = None -> r = None.
Proof. destruct r as [[[p s] c]|]; [discriminate | reflexivity]. Qed.

(** The alternation takes the first entry that fits. *)
Lemma rmatch_alternatives (U : unicode_tables) (prev : option char) (s : str)
    (ws : list str) :
  Forall (fun w => w <> []) ws ->
  forall w0, w0 <> [] ->
    drop_prev (rmatch U (ignorecase (Alts (List.map abbrev_alternative (w0 :: ws))))
                 prev s [] accept)
    = if at_boundary U prev s
      then match List.find (stands_at U s) (w0 :: ws) with
           | Some w => match caseless_prefix U w s with
                       | Some rest => Some (rest, [])
                       | None => None
                       end
           | None => None
           end
      else None.
Proof.
  induction 1 as [|w1 ws Hw1 _ IH]; intros w0 Hw0.
  - cbn [List.map Alts List.find]. rewrite rmatch_alternative by exact Hw0.
    unfold stands_at. destruct (at_boundary U prev s); [|reflexivity].
    destruct (caseless_prefix U w0 s) eqn:E; [rewrite E|]; reflexivity.
  - change (Alts (List.map abbrev_alternative (w0 :: w1 :: ws)))
      with (Alt (abbrev_alternative w0)
                (Alts (List.map abbrev_alternative (w1 :: ws)))).
    cbn [ignorecase rmatch].
    pose proof (rmatch_alternative U w0 prev s Hw0) as H0.
    specialize (IH w1 Hw1).
    destruct (rmatch U (ignorecase (abbrev_alternative w0)) prev s [] accept)
      as [[[p s'] c]|] eqn:E0; cbn [drop_prev] in H0.
    + cbn [drop_prev]. rewrite H0.
      destruct (at_boundary U prev s); [|reflexivity].
      cbn [List.find]. unfold stands_at at 1.
      destruct (caseless_prefix U w0 s) eqn:E; [rewrite E; reflexivity | discriminate].
    + rewrite IH.
      destruct (at_boundary U prev s); [|reflexivity].
      cbn [List.find]. unfold stands_at at 3.
      destruct (caseless_prefix U w0 s) eqn:E; [discriminate | reflexivity].
Qed.

Lemma abbrev_pattern_alternatives :
  Segmentation.abbrev_pattern
  = ignorecase (Alts (List.map abbrev_alternative
                        (List.map u Segmentation.abbreviation_words))).
Proof. reflexivity. Qed.

Lemma match_here_abbrev (U : unicode_tables) (prev : option char) (s : str) :
  match_here U Segmentation.abbrev_pattern prev s
  = match abbreviation_at U prev s with
    | Some w => match caseless_prefix U w s with
                | Some rest => Some (rest, [])
                | None => None
                end
    | None => None
    end.
Proof.
  rewrite match_here_drop_prev, abbrev_pattern_alternatives.
  unfold abbreviation_at.
  change (List.map u Segmentation.abbreviation_words)
    with (u "Mr." :: List.map u (tl Segmentation.abbreviation_words)).
  rewrite rmatch_alternatives.
  - destruct (at_boundary U prev s); reflexivity.
  - repeat constructor; discriminate.
  - discriminate.
Qed.

Lemma abbreviation_at_stands (U : unicode_tables) (prev : option char)
    (s w : str) :
  abbreviation_at U prev s = Some w ->
  w <> [] /\ exists rest, caseless_prefix U w s = Some rest.
Proof.
  unfold abbreviation_at. destruct (at_boundary U prev s); [|discriminate].
  intros H. apply find_some in H as [Hin Hst]. split.
  - assert (Hall : Forall (fun w => w <> [])
                          (List.map u Segmentation.abbreviation_words))
      by (repeat constructor; discriminate).
    rewrite Forall_forall in Hall. apply Hall, list_elem_of_In, Hin.
  - unfold stands_at in Hst. destruct (caseless_prefix U w s); [eauto | discriminate].
Qed.

(** The substitution of the source is the masking by hand. *)
Lemma sub_from_mask (U : unicode_tables) (s : str) :
  forall skip prev,
    sub_from U Segmentation.abbrev_pattern [TLit (u "ABBREV")] prev s skip
    = mask_from U skip prev s.
Proof.
  induction s as [|c s IH]; intros skip prev.
  - destruct skip; cbn [sub_from mask_from]; [|reflexivity].
    rewrite match_here_abbrev.
    destruct (abbreviation_at U prev []) as [w|] eqn:E; [|reflexivity].
    destruct (abbreviation_at_stands U prev [] w E) as [Hne [rest Hr]].
    destruct w; [congruence | discriminate].
  - destruct skip as [|n]; cbn [sub_from mask_from]; [|apply IH].
    rewrite match_here_abbrev.
    destruct (abbreviation_at U prev (c :: s)) as [w|] eqn:E.
    + destruct (abbreviation_at_stands U prev (c :: s) w E) as [Hne [rest Hr]].
      rewrite Hr. pose proof (caseless_prefix_length U w _ _ Hr) as Hl.
      cbn [length] in Hl. destruct w as [|a w]; [congruence|].
      cbn [length] in *.
      replace (S (length s) - length rest) with (S (length w)) by lia.
      cbn [expand List.map List.concat]. rewrite app_nil_r.
      rewrite IH. replace (S (length w) - 1) with (length w) by lia.
      reflexivity.
    + f_equal. apply IH.
Qed.

Lemma text_without_abbrevs_is_mask (U : unicode_tables) (text : str) :
  Segmentation.text_without_abbrevs U text = mask_abbreviations U text.
Proof. apply sub_from_mask. Qed.

(** *** Trimming *)

Lemma dropwhile_all (p : char -> bool) (pre t : str) :
  Forall (fun c => p c = true) pre -> dropwhile p (pre ++ t) = dropwhile p t.
Proof.
  induction 1 as [|x pre Hx _ IH]; [reflexivity|].
  cbn [app dropwhile]. rewrite Hx. exact IH.
Qed.

Lemma dropwhile_split (p : char -> bool) (s : str) :
  exists pre, s = pre ++ dropwhile p s /\ Forall (fun c => p c = true) pre.
Proof.
  induction s as [|x s (pre & E & Hpre)]; cbn [dropwhile].
  - exists []. split; [reflexivity | constructor].
  - destruct (p x) eqn:Hx.
    + exists (x :: pre). split; [cbn [app]; f_equal; exact E|].
      constructor; assumption.
    + exists []. split; [reflexivity | constructor].
Qed.

Lemma Forall_rev_space (P : char -> Prop) (s : str) :
  Forall P s -> Forall P (rev s).
Proof.
  rewrite !Forall_forall. intros H x Hx. apply H.
  apply list_elem_of_In. apply list_elem_of_In in Hx.
  apply in_rev. exact Hx.
Qed.

(** [str.strip] gives the trimmed content, and nothing else is one. *)
Lemma trimmed_strip (U : unicode_tables) (buffer content : str) :
  trimmed U buffer content <-> strip U buffer = content.
Proof.
  split.
  - intros (pre & post & -> & Hpre & Hpost & Hc).
    unfold strip, lstrip, rstrip. rewrite dropwhile_all by exact Hpre.
    destruct content as [|c t].
    + cbn [app].
      assert (E : dropwhile (isspace U) post = []).
      { clear -Hpost. induction Hpost as [|x l Hx _ IH]; [reflexivity|].
        cbn [dropwhile]. rewrite Hx. exact IH. }
      rewrite E. reflexivity.
    + destruct Hc as [Hc (y & Hy & Hys)].
      cbn [app dropwhile]. rewrite Hc.
      change (c :: t ++ post) with ((c :: t) ++ post).
      rewrite rev_app_distr.
      rewrite dropwhile_all by (apply Forall_rev_space, Hpost).
      rewrite <- head_rev_last in Hy.
      destruct (rev (c :: t)) as [|z l] eqn:E; [discriminate|].
      cbn [head] in Hy. injection Hy as ->.
      cbn [dropwhile]. rewrite Hys. rewrite <- E. apply rev_involutive.
  - intros <-.
    destruct (dropwhile_split (isspace U) buffer) as (pre & E & Hpre).
    destruct (dropwhile_split (isspace U) (rev (lstrip U buffer)))
      as (tsop & E' & Hpost).
    exists pre, (rev tsop). split; [|split; [exact Hpre|split]].
    + rewrite E at 1. f_equal. unfold strip, rstrip.
      rewrite <- rev_app_distr.
      transitivity (rev (rev (lstrip U buffer))); [|rewrite E' at 1; reflexivity].
      rewrite rev_involutive. reflexivity.
    + apply Forall_rev_space, Hpost.
    + apply strip_shape.
Qed.

(** C3. The trigger is true of a buffer exactly when a ['.'], ['!'] or
    ['?'] is left once every abbreviation of the list that stands at a word
    boundary, in any case and with its period, has been masked by the
    placeholder, or the trimmed content of the buffer is longer than 100
    characters.  The masked text and the trimmed content are given by hand
    ([mask_abbreviations], [trimmed]), not by the pattern or by
    [str.strip].  The trigger is false of ["Dr. Smith arrived"], whose only
    period is masked, also in capitals, and true of ["Hello Dr. Smith."];
    without its period an abbreviation is not masked. *)
Theorem should_process_iff (U : unicode_tables) :
  (forall buffer content : str,
     trimmed U buffer content ->
     (Segmentation.should_process_buffer U buffer = true <->
      (exists c, is_ending c /\ In c (mask_abbreviations U buffer))
      \/ 100 < length content))
  /\ (forall (cm : ConnectionManager) (session_id : str),
        Segmentation.should_process_text U cm session_id
        = Segmentation.should_process_buffer U
            (Registry.get_text_buffer session_id cm))
  /\ mask_abbreviations U (u "Dr. Smith arrived") = u "ABBREV Smith arrived"
  /\ Segmentation.should_process_buffer U (u "Dr. Smith arrived") = false
  /\ mask_abbreviations U (u "Hello Dr. Smith.") = u "Hello ABBREV Smith."
  /\ Segmentation.should_process_buffer U (u "Hello Dr. Smith.") = true
  /\ mask_abbreviations U (u "DR. SMITH ARRIVED") = u "ABBREV SMITH ARRIVED"
  /\ Segmentation.should_process_buffer U (u "DR. SMITH ARRIVED") = false
  /\ mask_abbreviations U (u "Dr Smith arrived") = u "Dr Smith arrived"
  /\ mask_abbreviations U (u "Bye etc.") = u "Bye ABBREV".
Proof.
  split; [|repeat split; vm_compute; reflexivity].
  intros buffer content Ht. apply trimmed_strip in Ht. subst content.
  rewrite <- text_without_abbrevs_is_mask.
  unfold Segmentation.should_process_buffer.
  rewrite orb_true_iff, has_true_sentence_ending_spec, Nat.ltb_lt. reflexivity.
Qed.

Lemma should_process_iff_witness :
  trimmed ascii_tables (u "  Hello Dr. Smith. ") (u "Hello Dr. Smith.")
  /\ (Segmentation.should_process_buffer ascii_tables (u "  Hello Dr. Smith. ")
      = true <->
      (exists c, is_ending c
                 /\ In c (mask_abbreviations ascii_tables (u "  Hello Dr. Smith. ")))
      \/ 100 < length (u "Hello Dr. Smith.")).
Proof.
  assert (Ht : trimmed ascii_tables (u "  Hello Dr. Smith. ") (u "Hello Dr. Smith."))
    by (apply trimmed_strip; vm_compute; reflexivity).
  split; [exact Ht|].
  exact (proj1 (should_process_iff ascii_tables) _ _ Ht).
Defined.

(** * Hyphens in context *)













(** The character before the position reached after [l]. *)
Fixpoint before (prev : option char) (l : str) : option char :=
  match l with
  | [] => prev
  | c :: l' => before (Some c) l'
  end.



(** ** One match in a text *)






(** ** The matcher on the parts of the hyphen patterns *)














(** ** Where the digit rule and the letter rule can match *)




















(** ** The three rules on a text with one hyphen *)
















